(** * Event-driven particle collision simulator: model and verified properties

    A shallow embedding of the simulator of [simulator.cpp] (with [vec2.h],
    [particle.h], [event.h] and [simulator.h]).

    Numbers.  The C++ [double] fields are modelled by the real numbers [R]:
    every statement below is about exact real arithmetic, rounding is outside
    the model.  The value [+inf] returned by the collision-time helpers is a
    separate constructor of [duration].  The C++ [int] fields (body indices,
    collision counters, event budget, rollback depth) are modelled by [Z];
    signed overflow of an [int] is undefined behaviour in C++ and is not
    modelled, so a counter is simply incremented in [Z]. *)

From Stdlib Require Import Reals Lra Lia ZArith.
From stdpp Require Import base decidable option list numbers.

#[local] Open Scope R_scope.

(** Comparisons of reals are decided by the excluded-middle instances of the
    standard library; they replace the C++ comparison operators. *)
#[global] Instance Rlt_decision (x y : R) : Decision (x < y) := Rlt_dec x y.
#[global] Instance Rle_decision (x y : R) : Decision (x <= y) := Rle_dec x y.
#[global] Instance Rgt_decision (x y : R) : Decision (x > y) := Rgt_dec x y.

(** ** vec2.h *)

Record Vec2 := mkVec2 { vec_x : R; vec_y : R }.

Definition vec_zero : Vec2 := mkVec2 0 0.
Definition vec_add (u o : Vec2) : Vec2 := mkVec2 (vec_x u + vec_x o) (vec_y u + vec_y o).
Definition vec_sub (u o : Vec2) : Vec2 := mkVec2 (vec_x u - vec_x o) (vec_y u - vec_y o).
Definition vec_scale (u : Vec2) (s : R) : Vec2 := mkVec2 (vec_x u * s) (vec_y u * s).
Definition dot (u o : Vec2) : R := vec_x u * vec_x o + vec_y u * vec_y o.
Definition norm2 (u : Vec2) : R := vec_x u * vec_x u + vec_y u * vec_y u.

(** ** particle.h *)

Record Particle := mkParticle {
  p_r : Vec2;          (* position *)
  p_v : Vec2;          (* velocity *)
  p_rad : R;           (* radius *)
  p_m : R;             (* mass *)
  p_coll_count : Z     (* collision counter for event validation *)
}.

(** The default constructor [Particle()]. *)
Definition Particle_default : Particle := mkParticle vec_zero vec_zero (1/2) 1 0.

#[global] Instance Particle_inhabited : Inhabited Particle := populate Particle_default.

Definition set_r (p : Particle) (r' : Vec2) : Particle :=
  mkParticle r' (p_v p) (p_rad p) (p_m p) (p_coll_count p).
Definition set_v (p : Particle) (v' : Vec2) : Particle :=
  mkParticle (p_r p) v' (p_rad p) (p_m p) (p_coll_count p).
Definition bump (p : Particle) : Particle :=
  mkParticle (p_r p) (p_v p) (p_rad p) (p_m p) (p_coll_count p + 1).

(** ** event.h *)

Inductive EventType := P_WALL_X | P_WALL_Y | P_P.

#[global] Instance EventType_eq_dec : EqDecision EventType.
Proof. solve_decision. Defined.

Record Event := mkEvent {
  e_t : R;             (* absolute time when the event occurs *)
  e_a : Z;             (* particle index A *)
  e_b : Z;             (* particle index B, -1 for wall events *)
  e_type : EventType;
  e_collA : Z;         (* collision count of a at schedule time *)
  e_collB : Z          (* collision count of b at schedule time, or -1 *)
}.

(** [EventEarlier::operator()], the comparator of the queue: [lhs.t > rhs.t]. *)
Definition EventEarlier (lhs rhs : Event) : bool := bool_decide (e_t lhs > e_t rhs).

(** ** simulator.h *)

Record SimConfig := mkSimConfig {
  cfg_W : R;
  cfg_H : R;
  cfg_T_end : R;
  cfg_max_events : Z;
  cfg_enable_rollback : bool;
  cfg_rollback_depth : Z
}.

Record SimState := mkSimState { st_t : R; st_P : list Particle }.

(** The private members of [class Simulator].  [pq_] lists the pending events,
    most recently pushed first; [undo_] lists the snapshot stack, top first. *)
Record Simulator := mkSimulator {
  cfg_ : SimConfig;
  P_ : list Particle;
  t_ : R;
  pq_ : list Event;
  undo_ : list SimState
}.

Definition set_P (s : Simulator) (P : list Particle) : Simulator :=
  mkSimulator (cfg_ s) P (t_ s) (pq_ s) (undo_ s).
Definition set_t (s : Simulator) (t : R) : Simulator :=
  mkSimulator (cfg_ s) (P_ s) t (pq_ s) (undo_ s).
Definition set_pq (s : Simulator) (q : list Event) : Simulator :=
  mkSimulator (cfg_ s) (P_ s) (t_ s) q (undo_ s).
Definition set_undo (s : Simulator) (u : list SimState) : Simulator :=
  mkSimulator (cfg_ s) (P_ s) (t_ s) (pq_ s) u.

(** [P_[i]] for an [int] index.  Indexing a [std::vector] out of range is
    undefined behaviour; the model returns [Particle()] there.  Every index the
    scheduler stores in an event is in range ([schedule_indices_in_range]). *)
Definition body (P : list Particle) (i : Z) : Particle :=
  if decide (0 <= i)%Z then P !!! Z.to_nat i else Particle_default.

(** In-place update of [P_[i]]; out of range nothing is written. *)
Definition update_body (P : list Particle) (i : Z) (f : Particle -> Particle) : list Particle :=
  if decide (0 <= i)%Z then alter f (Z.to_nat i) P else P.

(** [(int)P_.size()] *)
Definition size (P : list Particle) : Z := Z.of_nat (length P).

(** ** simulator.cpp *)

(** 1. Constructor: the initializer list copies its arguments; the queue and
    the snapshot stack start empty and [t_] starts at [0.0].  The body of the
    constructor is empty, so no path signals a failure. *)
Inductive construction :=
  | Constructed (s : Simulator)
  | ConstructionFailure.

Definition Simulator_new (cfg : SimConfig) (init : list Particle) : construction :=
  Constructed (mkSimulator cfg init 0 [] []).

(** The pending-event queue.  [std::priority_queue<Event, std::vector<Event>,
    EventEarlier>] is a library container: [push] adds an event, [top]+[pop]
    removes an event of least time, and which one among equal times is left
    open by the container.  The model keeps the pushed events in a list (push
    is [cons]) and takes the removal as an interface with the container's
    contract, so that every statement holds for any tie-breaking. *)
Class PriorityQueue := {
  pq_take : list Event -> option (Event * list Event);
  pq_take_nil : pq_take [] = None;
  pq_take_nonempty : forall q, pq_take q = None -> q = [];
  pq_take_perm : forall q e q', pq_take q = Some (e, q') -> q ≡ₚ e :: q';
  pq_take_earliest : forall q e q',
    pq_take q = Some (e, q') -> Forall (fun e' => e_t e <= e_t e') q'
}.

(** An implementation of the interface: the earliest event, the most recently
    pushed one among equal times. *)
Fixpoint take_earliest (q : list Event) : option (Event * list Event) :=
  match q with
  | [] => None
  | e :: q1 =>
      match take_earliest q1 with
      | None => Some (e, [])
      | Some (e', q1') =>
          if decide (e_t e <= e_t e') then Some (e, q1) else Some (e', e :: q1')
      end
  end.

#[global, refine] Instance earliest_queue : PriorityQueue :=
  {| pq_take := take_earliest |}.
Proof.
  - reflexivity.
  - intros [|e q]; [done|]. simpl.
    destruct (take_earliest q) as [[e' q1']|]; [|done]. by case_decide.
  - induction q as [|e0 q IH]; intros e q'; simpl; [done|].
    destruct (take_earliest q) as [[e' q1']|] eqn:Hq.
    + specialize (IH e' q1' eq_refl). case_decide.
      * intros [= <- <-]. done.
      * intros [= <- <-]. rewrite IH. apply Permutation_swap.
    + intros [= <- <-]. destruct q as [|e1 q]; [done|]. simpl in Hq.
      destruct (take_earliest q) as [[e' q1']|]; [|done]. by case_decide.
  - induction q as [|e0 q IH]; intros e q'; simpl; [done|].
    destruct (take_earliest q) as [[e' q1']|] eqn:Hq.
    + specialize (IH e' q1' eq_refl). case_decide as Hle.
      * intros [= <- <-].
        assert (HF : Forall (fun e1 => e_t e' <= e_t e1) (e' :: q1')).
        { apply Forall_cons_2; [apply Rle_refl|done]. }
        assert (Hperm : q ≡ₚ e' :: q1').
        { clear -Hq. revert e' q1' Hq. induction q as [|e0 q IH]; intros e' q1'; simpl; [done|].
          destruct (take_earliest q) as [[e2 q2]|] eqn:Hq2.
          - specialize (IH e2 q2 eq_refl). case_decide.
            + by intros [= <- <-].
            + intros [= <- <-]. rewrite IH. apply Permutation_swap.
          - intros [= <- <-]. destruct q as [|e1 q]; [done|]. simpl in Hq2.
            destruct (take_earliest q) as [[e3 q3]|]; [|done]. by case_decide. }
        rewrite Hperm. eapply Forall_impl; [|exact HF]. simpl. intros e1 He1. lra.
      * intros [= <- <-]. apply Forall_cons_2; [lra|done].
    + by intros [= <- <-].
Defined.

(** 2. Snapshot *)

(** What a member function that can throw leaves behind: the simulator, and
    whether the call returned or an exception left it.  The one exception of
    the simulator is the [std::length_error] of [snapshot]; nothing catches
    it. *)
Inductive outcome :=
  | Returned (s : Simulator)
  | Thrown (s : Simulator).

Definition state_of (o : outcome) : Simulator :=
  match o with
  | Returned s => s
  | Thrown s => s
  end.

(** [while (!undo_.empty()) { buf.push_back(undo_.top()); undo_.pop(); }] *)
Fixpoint drain (stack buf : list SimState) : list SimState :=
  match stack with
  | [] => buf
  | top :: rest => drain rest (buf ++ [top])
  end.

(** [if (!buf.empty()) buf.pop_back();] *)
Definition pop_back (buf : list SimState) : list SimState := removelast buf.

(** The loop over [buf.rbegin() .. buf.rend()] that pushes each element back
    onto [undo_], oldest first. *)
Definition rebuild (buf : list SimState) : list SimState :=
  fold_left (fun stack x => x :: stack) (rev buf) [].

(** [buf.reserve(cfg_.rollback_depth)] converts the [int] to [size_t]; a
    negative depth becomes a size beyond [max_size()] and [reserve] throws
    [std::length_error], before anything is written.  A depth that is not
    negative is within [max_size()]. *)
Definition snapshot (s : Simulator) : outcome :=
  if negb (cfg_enable_rollback (cfg_ s)) then Returned s
  else if decide (cfg_rollback_depth (cfg_ s) <= Z.of_nat (length (undo_ s)))%Z then
    if decide (cfg_rollback_depth (cfg_ s) < 0)%Z then Thrown s
    else Returned (set_undo s (mkSimState (t_ s) (P_ s)
                                 :: rebuild (pop_back (drain (undo_ s) []))))
  else Returned (set_undo s (mkSimState (t_ s) (P_ s) :: undo_ s)).

(** 4. Time advancement *)

(** [p.r = p.r + p.v * dt] *)
Definition drift_body (dt : R) (p : Particle) : Particle :=
  set_r p (vec_add (p_r p) (vec_scale (p_v p) dt)).

Definition drift_to (T : R) (s : Simulator) : Simulator :=
  let dt := T - t_ s in
  if decide (dt <= 0) then s
  else set_t (set_P s (drift_body dt <$> P_ s)) T.

(** 5. Collision-time helpers *)

Inductive duration :=
  | Finite (d : R)
  | Infinity.

Definition time_to_wall_x (cfg : SimConfig) (p : Particle) : duration :=
  if decide (0 < vec_x (p_v p)) then Finite ((cfg_W cfg - p_rad p - vec_x (p_r p)) / vec_x (p_v p))
  else if decide (vec_x (p_v p) < 0) then Finite ((p_rad p - vec_x (p_r p)) / vec_x (p_v p))
  else Infinity.

Definition time_to_wall_y (cfg : SimConfig) (p : Particle) : duration :=
  if decide (0 < vec_y (p_v p)) then Finite ((cfg_H cfg - p_rad p - vec_y (p_r p)) / vec_y (p_v p))
  else if decide (vec_y (p_v p) < 0) then Finite ((p_rad p - vec_y (p_r p)) / vec_y (p_v p))
  else Infinity.

(** The contact tolerance [1e-12] of [time_to_pp]. *)
Definition contact_tolerance : R := 1e-12.

Definition time_to_pp (A B : Particle) : duration :=
  let dr := vec_sub (p_r B) (p_r A) in
  let dv := vec_sub (p_v B) (p_v A) in
  let R_ := p_rad A + p_rad B in
  let dvdr := dot dv dr in
  if decide (0 <= dvdr) then Infinity
  else
    let dvdv := norm2 dv in
    let drdr := norm2 dr in
    let disc := dvdr * dvdr - dvdv * (drdr - R_ * R_) in
    if decide (disc < 0) then Infinity
    else
      let tcol := - (dvdr + sqrt disc) / dvdv in
      if decide (tcol <= contact_tolerance) then Infinity else Finite tcol.

(** 6. Event scheduling *)

Definition push (e : Event) (s : Simulator) : Simulator := set_pq s (e :: pq_ s).

(** [if (std::isfinite(dt) && t_ + dt <= cfg_.T_end) pq_.push(Event(t_ + dt, ...))],
    the event being built from the time of the push. *)
Definition push_if_due (dt : duration) (mk : R -> Event) (s : Simulator) : Simulator :=
  match dt with
  | Finite d => if decide (t_ s + d <= cfg_T_end (cfg_ s)) then push (mk (t_ s + d)) s else s
  | Infinity => s
  end.

Definition schedule_wall_events (i : Z) (s : Simulator) : Simulator :=
  let p := body (P_ s) i in
  let tx := time_to_wall_x (cfg_ s) p in
  let ty := time_to_wall_y (cfg_ s) p in
  let s1 := push_if_due tx
              (fun t => mkEvent t i (-1) P_WALL_X (p_coll_count (body (P_ s) i)) (-1)) s in
  push_if_due ty
    (fun t => mkEvent t i (-1) P_WALL_Y (p_coll_count (body (P_ s1) i)) (-1)) s1.

(** [Event(t_ + dt, i, j, P_P, P_[i].coll_count, P_[j].coll_count)] when due. *)
Definition schedule_pair (i j : Z) (s : Simulator) : Simulator :=
  push_if_due (time_to_pp (body (P_ s) i) (body (P_ s) j))
    (fun t => mkEvent t i j P_P (p_coll_count (body (P_ s) i)) (p_coll_count (body (P_ s) j))) s.

(** [for (int j = i + 1; j < (int)P_.size(); ++j)] *)
Definition schedule_pp_events_for (i : Z) (s : Simulator) : Simulator :=
  fold_left (fun s' j => schedule_pair i j s') (seqZ (i + 1) (size (P_ s) - (i + 1))) s.

Definition schedule_all (s : Simulator) : Simulator :=
  let s1 := fold_left (fun s' i => schedule_wall_events i s') (seqZ 0 (size (P_ s))) s in
  fold_left (fun s' i => schedule_pp_events_for i s') (seqZ 0 (size (P_ s1))) s1.

(** 3. Undo *)

Definition undo (s : Simulator) : bool * Simulator :=
  if negb (cfg_enable_rollback (cfg_ s)) then (false, s)
  else
    match undo_ s with
    | [] => (false, s)
    | top :: rest =>
        (true, schedule_all (mkSimulator (cfg_ s) (st_P top) (st_t top) [] rest))
    end.

(** 7. Event validation *)

Definition valid (s : Simulator) (e : Event) : bool :=
  if decide ((0 <= e_a e)%Z /\ p_coll_count (body (P_ s) (e_a e)) <> e_collA e) then false
  else if decide (e_type e = P_P /\ (0 <= e_b e)%Z
                  /\ p_coll_count (body (P_ s) (e_b e)) <> e_collB e) then false
  else true.

(** 8. Collision resolvers *)

Definition bounce_wall_x (i : Z) (s : Simulator) : Simulator :=
  set_P s (update_body (P_ s) i
    (fun p => bump (set_v p (mkVec2 (- vec_x (p_v p)) (vec_y (p_v p)))))).

Definition bounce_wall_y (i : Z) (s : Simulator) : Simulator :=
  set_P s (update_body (P_ s) i
    (fun p => bump (set_v p (mkVec2 (vec_x (p_v p)) (- vec_y (p_v p)))))).

(** The impulse of [bounce_pp], computed from the two bodies before either is
    written. *)
Definition pp_impulse (A B : Particle) : Vec2 :=
  let dr := vec_sub (p_r B) (p_r A) in
  let dv := vec_sub (p_v B) (p_v A) in
  let dist2 := norm2 dr in
  let rel := dot dv dr / dist2 in
  let mA := p_m A in
  let mB := p_m B in
  let Jn := vec_scale dr rel in
  vec_scale Jn (2 * mA * mB / (mA + mB)).

Definition bounce_pp (i j : Z) (s : Simulator) : Simulator :=
  let A := body (P_ s) i in
  let B := body (P_ s) j in
  let dr := vec_sub (p_r B) (p_r A) in
  let dist2 := norm2 dr in
  if decide (dist2 <= 0) then s
  else
    let impulse := pp_impulse A B in
    let mA := p_m A in
    let mB := p_m B in
    let P1 := update_body (P_ s) i
                (fun p => set_v p (vec_add (p_v p) (vec_scale impulse (-1 / mA)))) in
    let P2 := update_body P1 j
                (fun p => set_v p (vec_add (p_v p) (vec_scale impulse (1 / mB)))) in
    let P3 := update_body P2 i bump in
    let P4 := update_body P3 j bump in
    set_P s P4.

(** 9. Main loop *)

(** The inner [for (int k = 0; k < (int)P_.size(); ++k)] of the [P_P] case:
    both impacted bodies against every third body [k], each pair as
    [(min, max)]. *)
Definition reschedule_partners (a b : Z) (s : Simulator) : Simulator :=
  fold_left
    (fun s' k =>
       if decide (k = a \/ k = b) then s'
       else
         let s1 := schedule_pair (Z.min k a) (Z.max k a) s' in
         schedule_pair (Z.min k b) (Z.max k b) s1)
    (seqZ 0 (size (P_ s))) s.

(** The [switch (e.type)]. *)
Definition resolve (e : Event) (s : Simulator) : Simulator :=
  match e_type e with
  | P_WALL_X =>
      schedule_pp_events_for (e_a e) (schedule_wall_events (e_a e) (bounce_wall_x (e_a e) s))
  | P_WALL_Y =>
      schedule_pp_events_for (e_a e) (schedule_wall_events (e_a e) (bounce_wall_y (e_a e) s))
  | P_P =>
      reschedule_partners (e_a e) (e_b e)
        (schedule_wall_events (e_b e)
           (schedule_wall_events (e_a e) (bounce_pp (e_a e) (e_b e) s)))
  end.

(** A valid event is committed: [snapshot(); drift_to(e.t); switch ...].  An
    exception of [snapshot] leaves the loop body at once. *)
Definition commit (e : Event) (s : Simulator) : outcome :=
  match snapshot s with
  | Returned s1 => Returned (resolve e (drift_to (e_t e) s1))
  | Thrown s1 => Thrown s1
  end.

(** The state of the [while] loop: the simulator with the local counter
    [processed] while the loop runs, the simulator alone once the loop is
    left, and the simulator as the exception of [snapshot] left it once that
    has been thrown out of the loop. *)
Inductive loop_state :=
  | Running (processed : Z) (s : Simulator)
  | Exited (s : Simulator)
  | Aborted (s : Simulator).

Definition sim_of (l : loop_state) : Simulator :=
  match l with
  | Running _ s => s
  | Exited s => s
  | Aborted s => s
  end.

(** One evaluation of the loop condition [!pq_.empty() && processed <
    cfg_.max_events] followed, when it holds, by one pass through the loop
    body.  [pq_take] yields [None] exactly on the empty queue and changes
    nothing, so the event is removed only when the budget test has passed. *)
Definition loop_step `{PriorityQueue} (l : loop_state) : loop_state :=
  match l with
  | Exited s => Exited s
  | Aborted s => Aborted s
  | Running processed s =>
      match pq_take (pq_ s) with
      | None => Exited s
      | Some (e, q') =>
          if decide (processed < cfg_max_events (cfg_ s))%Z then
            let s' := set_pq s q' in
            if decide (cfg_T_end (cfg_ s) < e_t e) then Exited s'
            else if valid s' e then
              match commit e s' with
              | Returned s2 => Running (processed + 1) s2
              | Thrown s2 => Aborted s2
              end
            else Running processed s'
          else Exited s
      end
  end.

(** The loop after [n] steps, started on the seeded simulator. *)
Definition loop_after `{PriorityQueue} (n : nat) (s : Simulator) : loop_state :=
  Nat.iter n loop_step (Running 0 (schedule_all s)).

(** A number of steps after which the loop has been left ([loop_exits]): a
    commit pushes at most [2 * size + 4] events and uses up one unit of the
    event budget, any other step removes one event. *)
Definition loop_bound (s : Simulator) : nat :=
  Z.to_nat (cfg_max_events (cfg_ s)) * (2 * length (P_ s) + 5)
  + length (pq_ (schedule_all s)) + 1.

(** [run()], without the printing of the final state.  The loop is iterated
    [loop_bound] times, by which it has been left whenever the pending events
    refer to bodies of the array ([loop_exits]); further steps change
    nothing.  An exception thrown in the loop leaves [run] without the final
    drift. *)
Definition run `{PriorityQueue} (s : Simulator) : outcome :=
  match loop_after (loop_bound s) s with
  | Aborted s' => Thrown s'
  | Running _ s' => Returned (drift_to (cfg_T_end (cfg_ s')) s')
  | Exited s' => Returned (drift_to (cfg_T_end (cfg_ s')) s')
  end.

(** ** Physical quantities of the conservation laws *)

Definition kinetic_energy (p : Particle) : R := 1 / 2 * p_m p * norm2 (p_v p).
Definition momentum (p : Particle) : Vec2 := vec_scale (p_v p) (p_m p).

(** The two velocity writes of [bounce_pp]. *)
Definition kick_A (A B : Particle) : Particle :=
  set_v A (vec_add (p_v A) (vec_scale (pp_impulse A B) (-1 / p_m A))).
Definition kick_B (A B : Particle) : Particle :=
  set_v B (vec_add (p_v B) (vec_scale (pp_impulse A B) (1 / p_m B))).

(** ** Example scenarios *)

(** A head-on pair in contact: body 0 at rest, body 1 one unit to its right
    and moving towards it with unit speed, both of unit mass. *)
Definition head_on_pair : list Particle :=
  [ mkParticle (mkVec2 4 5) (mkVec2 0 0) (1/2) 1 0;
    mkParticle (mkVec2 5 5) (mkVec2 (-1) 0) (1/2) 1 0 ].

Definition demo_cfg : SimConfig := mkSimConfig 10 10 12 2000 true 8.

Definition head_on : Simulator := mkSimulator demo_cfg head_on_pair 0 [] [].

(** ** Notions used by the statements *)

(** A configuration or body list the specification calls malformed: a body
    with non-positive radius or mass, or a box with a non-positive side. *)
Definition malformed (cfg : SimConfig) (init : list Particle) : Prop :=
  Exists (fun p => p_rad p <= 0 \/ p_m p <= 0) init \/ cfg_W cfg <= 0 \/ cfg_H cfg <= 0.

(** The three state components the scheduler reads. *)
Definition same_inputs (s s' : Simulator) : Prop :=
  cfg_ s' = cfg_ s /\ P_ s' = P_ s /\ t_ s' = t_ s.

(** The pushes of the scheduling functions: [s'] is [s] with at most [k] events
    pushed, each of which satisfies [Φ]; nothing else is written. *)
Definition pushes (Φ : Event -> Prop) (k : nat) (s s' : Simulator) : Prop :=
  cfg_ s' = cfg_ s /\ P_ s' = P_ s /\ t_ s' = t_ s /\ undo_ s' = undo_ s
  /\ exists new, pq_ s' = new ++ pq_ s /\ Forall Φ new /\ (length new <= k)%nat.

(** A malformed input: a body of negative radius and mass in an inverted box. *)
Definition inverted_cfg : SimConfig := mkSimConfig (-10) (-10) 12 2000 true 8.
Definition negative_body : Particle := mkParticle (mkVec2 2 2) (mkVec2 1 0) (-1) (-1) 0.

(** Rollback enabled with depth zero. *)
Definition depth0_cfg : SimConfig := mkSimConfig 10 10 12 2000 true 0.

(** The events the scheduler builds in state [s]: the wall events of body [i]
    and the pair event of bodies [i], [j], each present only when its
    predicted time is finite and within the horizon. *)
Definition wall_x_event (s : Simulator) (i : Z) (e : Event) : Prop :=
  exists d, time_to_wall_x (cfg_ s) (body (P_ s) i) = Finite d
    /\ t_ s + d <= cfg_T_end (cfg_ s)
    /\ e = mkEvent (t_ s + d) i (-1) P_WALL_X (p_coll_count (body (P_ s) i)) (-1).

Definition wall_y_event (s : Simulator) (i : Z) (e : Event) : Prop :=
  exists d, time_to_wall_y (cfg_ s) (body (P_ s) i) = Finite d
    /\ t_ s + d <= cfg_T_end (cfg_ s)
    /\ e = mkEvent (t_ s + d) i (-1) P_WALL_Y (p_coll_count (body (P_ s) i)) (-1).

Definition pair_event (s : Simulator) (i j : Z) (e : Event) : Prop :=
  exists d, time_to_pp (body (P_ s) i) (body (P_ s) j) = Finite d
    /\ t_ s + d <= cfg_T_end (cfg_ s)
    /\ e = mkEvent (t_ s + d) i j P_P
             (p_coll_count (body (P_ s) i)) (p_coll_count (body (P_ s) j)).

(** Indices of an event within a body array of [n] bodies. *)
Definition event_in_range (n : Z) (e : Event) : Prop :=
  (0 <= e_a e < n)%Z /\ (e_type e = P_P -> (0 <= e_b e < n)%Z).

Definition indices_in_range (s : Simulator) : Prop :=
  Forall (event_in_range (size (P_ s))) (pq_ s).

(** What the rescheduling of a committed wall event of body [a] pushes, in the
    state [s] reached after the bounce. *)
Definition wall_reschedule (s : Simulator) (a : Z) (e : Event) : Prop :=
  wall_x_event s a e \/ wall_y_event s a e
  \/ exists j, (a < j < size (P_ s))%Z /\ pair_event s a j e.

(** What the rescheduling of a committed pair event of [a] and [b] pushes. *)
Definition pair_reschedule (s : Simulator) (a b : Z) (e : Event) : Prop :=
  wall_x_event s a e \/ wall_y_event s a e
  \/ wall_x_event s b e \/ wall_y_event s b e
  \/ exists k, (0 <= k < size (P_ s))%Z /\ k <> a /\ k <> b
       /\ (pair_event s (Z.min k a) (Z.max k a) e
           \/ pair_event s (Z.min k b) (Z.max k b) e).

(** The state in which [resolve] reschedules: the one left by the bounce. *)
Definition bounced (e : Event) (s : Simulator) : Simulator :=
  match e_type e with
  | P_WALL_X => bounce_wall_x (e_a e) s
  | P_WALL_Y => bounce_wall_y (e_a e) s
  | P_P => bounce_pp (e_a e) (e_b e) s
  end.

(** What [resolve] pushes for the committed event [e], [s] being the state
    left by the bounce. *)
Definition rescheduled (e : Event) (s : Simulator) : Event -> Prop :=
  match e_type e with
  | P_P => pair_reschedule s (e_a e) (e_b e)
  | _ => wall_reschedule s (e_a e)
  end.

(** What the initial seeding pushes. *)
Definition seed_event (s : Simulator) (e : Event) : Prop :=
  exists i, (0 <= i < size (P_ s))%Z
    /\ (wall_x_event s i e \/ wall_y_event s i e
        \/ exists j, (i < j < size (P_ s))%Z /\ pair_event s i j e).

(** [snapshot] throws in [s]: rollback is enabled with a negative depth. *)
Definition snapshot_throws (s : Simulator) : Prop :=
  cfg_enable_rollback (cfg_ s) = true /\ (cfg_rollback_depth (cfg_ s) < 0)%Z.

#[global] Instance snapshot_throws_dec (s : Simulator) : Decision (snapshot_throws s) :=
  decide (cfg_enable_rollback (cfg_ s) = true /\ (cfg_rollback_depth (cfg_ s) < 0)%Z).

(** The simulator [snapshot] leaves, and the one the drift and the [switch]
    of a commit leave after it; the latter is what [commit] returns when
    [snapshot] returns ([commit_returned]). *)
Definition snapshot_taken (s : Simulator) : Simulator := state_of (snapshot s).

Definition committed (e : Event) (s : Simulator) : Simulator :=
  resolve e (drift_to (e_t e) (snapshot_taken s)).

(** The state in which a committed event is rescheduled: after the snapshot,
    the drift and the bounce. *)
Definition before_reschedule (e : Event) (s : Simulator) : Simulator :=
  bounced e (drift_to (e_t e) (snapshot_taken s)).

(** An invariant of the loop in two parts: [T] holds of the simulator while
    the loop runs and once it is left, [W] of the simulator an exception has
    left behind. *)
Definition loop_invariant (T W : Simulator -> Prop) (l : loop_state) : Prop :=
  match l with
  | Running _ s => T s
  | Exited s => T s
  | Aborted s => W s
  end.

(** The loop has not been left by an exception. *)
Definition alive (l : loop_state) : Prop :=
  match l with
  | Aborted _ => False
  | _ => True
  end.

(** The termination measure of the loop. *)
Definition loop_measure (l : loop_state) : nat :=
  match l with
  | Exited _ => 0
  | Aborted _ => 0
  | Running processed s =>
      Z.to_nat (cfg_max_events (cfg_ s) - processed) * (2 * length (P_ s) + 5)
      + length (pq_ s) + 1
  end.

(** The ways one loop step can go. *)
Inductive step_kind `{PriorityQueue} (processed : Z) (s : Simulator) : loop_state -> Prop :=
  | step_empty :
      pq_ s = [] -> step_kind processed s (Exited s)
  | step_budget :
      (cfg_max_events (cfg_ s) <= processed)%Z -> step_kind processed s (Exited s)
  | step_break e q' :
      pq_take (pq_ s) = Some (e, q') ->
      (processed < cfg_max_events (cfg_ s))%Z ->
      cfg_T_end (cfg_ s) < e_t e ->
      step_kind processed s (Exited (set_pq s q'))
  | step_stale e q' :
      pq_take (pq_ s) = Some (e, q') ->
      (processed < cfg_max_events (cfg_ s))%Z ->
      e_t e <= cfg_T_end (cfg_ s) ->
      valid (set_pq s q') e = false ->
      step_kind processed s (Running processed (set_pq s q'))
  | step_commit e q' :
      pq_take (pq_ s) = Some (e, q') ->
      (processed < cfg_max_events (cfg_ s))%Z ->
      e_t e <= cfg_T_end (cfg_ s) ->
      valid (set_pq s q') e = true ->
      commit e (set_pq s q') = Returned (committed e (set_pq s q')) ->
      step_kind processed s (Running (processed + 1) (committed e (set_pq s q')))
  | step_throw e q' :
      pq_take (pq_ s) = Some (e, q') ->
      (processed < cfg_max_events (cfg_ s))%Z ->
      e_t e <= cfg_T_end (cfg_ s) ->
      valid (set_pq s q') e = true ->
      snapshot_throws s ->
      commit e (set_pq s q') = Thrown (set_pq s q') ->
      step_kind processed s (Aborted (set_pq s q')).

(** A function of the simulator that only pushes events, the same ones whatever
    the queue and the snapshot stack hold. *)
Definition appends (f : Simulator -> Simulator) : Prop :=
  forall c P t, exists new, forall q u,
    f (mkSimulator c P t q u) = mkSimulator c P t (new ++ q) u.

(** The simulator [s] with another rollback configuration and snapshot stack;
    width, height, horizon, event budget, bodies, time and queue are kept. *)
Definition with_rollback (en : bool) (d : Z) (u : list SimState) (s : Simulator) : Simulator :=
  mkSimulator
    (mkSimConfig (cfg_W (cfg_ s)) (cfg_H (cfg_ s)) (cfg_T_end (cfg_ s))
       (cfg_max_events (cfg_ s)) en d)
    (P_ s) (t_ s) (pq_ s) u.

(** [f] reads neither the rollback configuration nor the snapshot stack and
    writes neither. *)
Definition ignores_rollback (en : bool) (d : Z) (f : Simulator -> Simulator) : Prop :=
  forall u s, f (with_rollback en d u s) = with_rollback en d u (f s).

Definition loop_with_rollback (en : bool) (d : Z) (u : list SimState) (l : loop_state)
  : loop_state :=
  match l with
  | Running processed s => Running processed (with_rollback en d u s)
  | Exited s => Exited (with_rollback en d u s)
  | Aborted s => Aborted (with_rollback en d u s)
  end.

(** A simulator whose horizon lies before its current time. *)
Definition past_horizon_cfg : SimConfig := mkSimConfig 10 10 (-1) 2000 true 8.
Definition past_horizon : Simulator := mkSimulator past_horizon_cfg [] 0 [] [].

(** ** Staleness *)

(** The live collision counter of body [i]. *)
Definition coll_count_of (s : Simulator) (i : Z) : Z := p_coll_count (body (P_ s) i).

(** Some counter captured by [e] differs from the live one: the negation of
    what [valid] tests. *)
Definition stale (s : Simulator) (e : Event) : Prop :=
  ((0 <= e_a e)%Z /\ coll_count_of s (e_a e) <> e_collA e)
  \/ (e_type e = P_P /\ (0 <= e_b e)%Z /\ coll_count_of s (e_b e) <> e_collB e).

(** [e] captured the counter of body [x] when it was scheduled. *)
Definition refers_to (e : Event) (x : Z) : Prop :=
  e_a e = x \/ (e_type e = P_P /\ e_b e = x).

(** Body [x] takes part in the collision that committing [e] resolves in the
    state [s] reached by the drift: the wall bounce of [x], or a pair bounce of
    [x] that is not skipped for coincident centers. *)
Definition collides (e : Event) (s : Simulator) (x : Z) : Prop :=
  match e_type e with
  | P_P => (x = e_a e \/ x = e_b e)
           /\ p_r (body (P_ s) (e_a e)) <> p_r (body (P_ s) (e_b e))
  | _ => x = e_a e
  end.

(** No pending event has captured a counter value that its body has not
    reached yet. *)
Definition captured_le_live (s : Simulator) : Prop :=
  Forall (fun e => (e_collA e <= coll_count_of s (e_a e))%Z
                   /\ (e_type e = P_P -> (e_collB e <= coll_count_of s (e_b e))%Z))
         (pq_ s).

(** Every event the scheduler pushes captures the live counters. *)
Definition captures_live (s : Simulator) (e : Event) : Prop :=
  e_collA e = coll_count_of s (e_a e)
  /\ (e_type e = P_P -> e_collB e = coll_count_of s (e_b e)).

(** A pending wall event of body 0 scheduled for time 3, and the wall event of
    the same body that fires first, at time 2. *)
Definition runner : Particle := mkParticle (mkVec2 5 5) (mkVec2 1 1) (1/2) 1 0.
Definition first_hit : Event := mkEvent 2 0 (-1) P_WALL_X 0 (-1).
Definition later_hit : Event := mkEvent 3 0 (-1) P_WALL_Y 0 (-1).
Definition two_pending : Simulator :=
  mkSimulator demo_cfg [runner] 0 [first_hit; later_hit] [].

(** The same state with rollback enabled at depth zero. *)
Definition depth0_sim : Simulator :=
  mkSimulator depth0_cfg [runner] 0 [first_hit; later_hit] [].

(** ** Time consistency of the pending events *)

(** The body lies inside the box, its edge included. *)
Definition contained (cfg : SimConfig) (p : Particle) : Prop :=
  p_rad p <= vec_x (p_r p) <= cfg_W cfg - p_rad p
  /\ p_rad p <= vec_y (p_r p) <= cfg_H cfg - p_rad p.

Definition all_contained (s : Simulator) : Prop := Forall (contained (cfg_ s)) (P_ s).

(** No pending event lies before the current time. *)
Definition pending_not_past (s : Simulator) : Prop :=
  Forall (fun e => t_ s <= e_t e) (pq_ s).

(** The due wall events of every body, with its live counter, are pending. *)
Definition walls_scheduled (s : Simulator) : Prop :=
  forall i e, (0 <= i < size (P_ s))%Z ->
    wall_x_event s i e \/ wall_y_event s i e -> e ∈ pq_ s.

Definition time_consistent (s : Simulator) : Prop :=
  all_contained s /\ pending_not_past s /\ walls_scheduled s.

(** The invariant of time consistency: while the loop runs, the pending events
    are consistent with the time and the bodies and refer to bodies of the
    array; what an exception leaves behind has lost a valid event from the
    queue, with it possibly the due wall event of a body. *)
Definition loop_time_consistent (l : loop_state) : Prop :=
  loop_invariant
    (fun s => time_consistent s /\ indices_in_range s)
    (fun s => all_contained s /\ pending_not_past s /\ indices_in_range s) l.

(** A body that starts outside the box, beyond the right wall. *)
Definition outside : Particle := mkParticle (mkVec2 20 5) (mkVec2 1 0) (1/2) 1 0.
Definition stray : Simulator := mkSimulator demo_cfg [outside] 0 [] [].

(** The instants of [run]: after the seeding and after each loop step
    ([instant_loop]), after an event is popped, after the snapshot for a
    committed event has returned, after the drift to the event, after its
    bounce, and the state [run] returns, after the final [drift_to(T_end)],
    when the loop was left with the event budget not used up
    ([instant_final]): on an empty queue or on an event beyond the horizon. *)
Inductive run_instant `{PriorityQueue} (s0 : Simulator) : Simulator -> Prop :=
  | instant_loop n :
      run_instant s0 (sim_of (loop_after n s0))
  | instant_popped n processed s e q' :
      loop_after n s0 = Running processed s ->
      pq_take (pq_ s) = Some (e, q') ->
      (processed < cfg_max_events (cfg_ s))%Z ->
      run_instant s0 (set_pq s q')
  | instant_snapshot n processed s e q' s1 :
      loop_after n s0 = Running processed s ->
      pq_take (pq_ s) = Some (e, q') ->
      (processed < cfg_max_events (cfg_ s))%Z ->
      e_t e <= cfg_T_end (cfg_ s) ->
      valid (set_pq s q') e = true ->
      snapshot (set_pq s q') = Returned s1 ->
      run_instant s0 s1
  | instant_drifted n processed s e q' s1 :
      loop_after n s0 = Running processed s ->
      pq_take (pq_ s) = Some (e, q') ->
      (processed < cfg_max_events (cfg_ s))%Z ->
      e_t e <= cfg_T_end (cfg_ s) ->
      valid (set_pq s q') e = true ->
      snapshot (set_pq s q') = Returned s1 ->
      run_instant s0 (drift_to (e_t e) s1)
  | instant_bounced n processed s e q' s1 :
      loop_after n s0 = Running processed s ->
      pq_take (pq_ s) = Some (e, q') ->
      (processed < cfg_max_events (cfg_ s))%Z ->
      e_t e <= cfg_T_end (cfg_ s) ->
      valid (set_pq s q') e = true ->
      snapshot (set_pq s q') = Returned s1 ->
      run_instant s0 (bounced e (drift_to (e_t e) s1))
  | instant_final n processed s s' s_end :
      loop_after n s0 = Running processed s ->
      (processed < cfg_max_events (cfg_ s))%Z ->
      loop_step (Running processed s) = Exited s' ->
      run s0 = Returned s_end ->
      run_instant s0 s_end.

(** Body 0 rests at (2,5); body 1 starts at (8,5), moves right, bounces off
    the right wall at time 3/2 and comes back along the line through body 0. *)
Definition resting : Particle := mkParticle (mkVec2 2 5) (mkVec2 0 0) (1/2) 1 0.
Definition mover : Particle := mkParticle (mkVec2 8 5) (mkVec2 1 0) (1/2) 1 0.
Definition crossing : Simulator := mkSimulator demo_cfg [resting; mover] 0 [] [].

(** The same bodies with an event budget of zero. *)
Definition capped : Simulator :=
  mkSimulator (mkSimConfig 10 10 12 0 true 8) [resting; mover] 0 [] [].

(** The two wall events of body 1, and body 1 after each bounce and at the
    end of the run. *)
Definition first_wall : Event := mkEvent (3/2) 1 (-1) P_WALL_X 0 (-1).
Definition second_wall : Event := mkEvent (21/2) 1 (-1) P_WALL_X 1 (-1).
Definition back : Particle := mkParticle (mkVec2 (19/2) 5) (mkVec2 (-1) 0) (1/2) 1 1.
Definition at_left : Particle := mkParticle (mkVec2 (1/2) 5) (mkVec2 1 0) (1/2) 1 2.
Definition through : Particle := mkParticle (mkVec2 2 5) (mkVec2 1 0) (1/2) 1 2.

(** The simulator after the first and after the second wall event. *)
Definition crossing1 : Simulator :=
  mkSimulator demo_cfg [resting; back] (3/2) [second_wall]
    [mkSimState 0 [resting; mover]].
Definition crossing2 : Simulator :=
  mkSimulator demo_cfg [resting; at_left] (21/2) []
    [mkSimState (3/2) [resting; back]; mkSimState 0 [resting; mover]].

(** Proof steps for the evaluation of this run: projections of explicit
    records, and comparisons of the numbers that occur in it. *)
Ltac sim_proj := cbn [cfg_ P_ t_ pq_ undo_ push set_pq set_P set_t set_undo].

Ltac crossing_reals :=
  cbv [cfg_ P_ t_ pq_ undo_ push set_pq set_P set_t set_undo e_t e_a
       cfg_W cfg_H cfg_T_end cfg_max_events cfg_rollback_depth cfg_enable_rollback
       crossing crossing1 crossing2 first_wall second_wall demo_cfg
       resting mover back at_left body p_r p_v p_rad p_m vec_x vec_y length size];
  simpl; first [lra | lia].

(** Body 0 at rest at (4,5) and body 1 at (6,5) moving towards it: they touch
    at time 1, in the positions of [head_on_pair]. *)
Definition target : Particle := mkParticle (mkVec2 4 5) (mkVec2 0 0) (1/2) 1 0.
Definition bullet : Particle := mkParticle (mkVec2 6 5) (mkVec2 (-1) 0) (1/2) 1 0.
Definition colliding : Simulator := mkSimulator demo_cfg [target; bullet] 0 [] [].
Definition contact : Event := mkEvent 1 0 1 P_P 0 0.
Definition bullet_wall : Event := mkEvent (11/2) 1 (-1) P_WALL_X 0 (-1).

Ltac colliding_reals :=
  cbv [cfg_ P_ t_ pq_ undo_ push set_pq set_P set_t set_undo e_t e_a e_b
       cfg_W cfg_H cfg_T_end cfg_max_events cfg_rollback_depth cfg_enable_rollback
       colliding contact bullet_wall demo_cfg target bullet
       body p_r p_v p_rad p_m vec_x vec_y length size dot norm2 vec_sub];
  simpl; first [lra | lia].

(** ** Accuracy of the pending pair events *)

(** The squared distance of the centers of [A] and [B] after both have moved
    along their velocities for the time [dt]. *)
Definition separation (A B : Particle) (dt : R) : R :=
  norm2 (vec_add (vec_sub (p_r B) (p_r A)) (vec_scale (vec_sub (p_v B) (p_v A)) dt)).

(** A pending pair event that is still valid is dated at the instant at which
    its two bodies touch. *)
Definition pair_accurate (s : Simulator) (e : Event) : Prop :=
  e_type e = P_P -> valid s e = true ->
  separation (body (P_ s) (e_a e)) (body (P_ s) (e_b e)) (e_t e - t_ s)
  = (p_rad (body (P_ s) (e_a e)) + p_rad (body (P_ s) (e_b e))) ^ 2.

Definition pairs_accurate (s : Simulator) : Prop := Forall (pair_accurate s) (pq_ s).

Definition radii_positive (s : Simulator) : Prop := Forall (fun p => 0 < p_rad p) (P_ s).

(** The invariant of a run that starts from bodies of positive radius inside
    the box. *)
Definition well_formed (s : Simulator) : Prop :=
  time_consistent s /\ indices_in_range s /\ captured_le_live s
  /\ pairs_accurate s /\ radii_positive s.

(** ** Notions of the further properties *)

(** No pending event lies beyond the horizon. *)
Definition pending_within_horizon (s : Simulator) : Prop :=
  Forall (fun e => e_t e <= cfg_T_end (cfg_ s)) (pq_ s).

(** ** main.cpp *)

(** The configuration and the three bodies of the demo in [main]. *)
Definition main_cfg : SimConfig := mkSimConfig 10 10 12 2000 true 8.

Definition main_body0 : Particle := mkParticle (mkVec2 2 2) (mkVec2 1.2 0.8) 0.3 1 0.
Definition main_body1 : Particle :=
  mkParticle (mkVec2 5.5 6.5) (mkVec2 (-0.9) (-0.6)) 0.4 1.5 0.
Definition main_body2 : Particle := mkParticle (mkVec2 7.8 3.2) (mkVec2 (-0.4) 1.1) 0.5 2 0.

Definition main_init : list Particle := [main_body0; main_body1; main_body2].

(** [Simulator sim(cfg, init)] *)
Definition main_sim : Simulator := mkSimulator main_cfg main_init 0 [] [].

(** Body [b], moved along its velocity for the time [tau], touches the wall
    it moves towards: a vertical wall for [P_WALL_X], a horizontal one for
    [P_WALL_Y]. *)
Definition touches_wall (cfg : SimConfig) (ty : EventType) (b : Particle) (tau : R) : Prop :=
  match ty with
  | P_WALL_X =>
      (0 < vec_x (p_v b) /\ vec_x (p_r b) + vec_x (p_v b) * tau = cfg_W cfg - p_rad b)
      \/ (vec_x (p_v b) < 0 /\ vec_x (p_r b) + vec_x (p_v b) * tau = p_rad b)
  | P_WALL_Y =>
      (0 < vec_y (p_v b) /\ vec_y (p_r b) + vec_y (p_v b) * tau = cfg_H cfg - p_rad b)
      \/ (vec_y (p_v b) < 0 /\ vec_y (p_r b) + vec_y (p_v b) * tau = p_rad b)
  | P_P => True
  end.

(** A pending wall event that is still valid is dated at the instant at which
    its body touches the wall. *)
Definition wall_accurate (s : Simulator) (e : Event) : Prop :=
  valid s e = true ->
  touches_wall (cfg_ s) (e_type e) (body (P_ s) (e_a e)) (e_t e - t_ s).

Definition walls_accurate (s : Simulator) : Prop := Forall (wall_accurate s) (pq_ s).

(** The shape of the events the scheduler builds for an array of [n] bodies:
    the index [a] is in range; a pair event names a second body of higher
    index, a wall event carries [b = -1]. *)
Definition event_shaped (n : Z) (e : Event) : Prop :=
  (0 <= e_a e < n)%Z
  /\ match e_type e with
     | P_P => (e_a e < e_b e < n)%Z
     | _ => e_b e = (-1)%Z
     end.

(** The sum of the collision counters. *)
Definition total_collisions (P : list Particle) : Z :=
  foldr Z.add 0%Z (p_coll_count <$> P).

(** * Properties *)

(** ** Indexing lemmas *)

Lemma body_lookup (P : list Particle) (i : Z) (p : Particle) :
  (0 <= i)%Z -> P !! Z.to_nat i = Some p -> body P i = p.
Proof.
  intros Hi Hp. unfold body. rewrite decide_True by done.
  by rewrite (list_lookup_total_correct _ _ _ Hp).
Qed.

Lemma lookup_body (P : list Particle) (i : Z) :
  (0 <= i < size P)%Z -> P !! Z.to_nat i = Some (body P i).
Proof.
  unfold size. intros Hi. unfold body. rewrite decide_True by lia.
  apply list_lookup_lookup_total_lt. lia.
Qed.

Lemma length_update_body (P : list Particle) (i : Z) f :
  length (update_body P i f) = length P.
Proof. unfold update_body. case_decide; [apply length_alter | done]. Qed.

Lemma size_update_body (P : list Particle) (i : Z) f :
  size (update_body P i f) = size P.
Proof. unfold size. by rewrite length_update_body. Qed.

Lemma body_update_eq (P : list Particle) (i : Z) f :
  (0 <= i < size P)%Z -> body (update_body P i f) i = f (body P i).
Proof.
  intros Hi. apply body_lookup; [lia|].
  unfold update_body. rewrite decide_True by lia.
  by rewrite list_lookup_alter_eq, (lookup_body P i Hi).
Qed.

Lemma body_update_ne (P : list Particle) (i j : Z) f :
  i <> j -> body (update_body P i f) j = body P j.
Proof.
  intros Hij. unfold body, update_body.
  destruct (decide (0 <= j)%Z) as [Hj|]; [|done].
  destruct (decide (0 <= i)%Z) as [Hi|]; [|done].
  apply list_lookup_total_alter_ne. lia.
Qed.

(** ** Algebra of the pair impulse *)

Lemma norm2_pos (u : Vec2) : u <> vec_zero -> 0 < norm2 u.
Proof.
  destruct u as [x y]. unfold norm2, vec_zero. simpl. intros Hne.
  destruct (Req_dec x 0) as [->|Hx].
  - destruct (Req_dec y 0) as [->|Hy]; [done|]. nra.
  - nra.
Qed.

Lemma vec_sub_zero (u o : Vec2) : vec_sub u o = vec_zero -> u = o.
Proof.
  destruct u, o. unfold vec_sub, vec_zero. simpl. intros [= H1 H2].
  f_equal; lra.
Qed.

Lemma centers_apart (A B : Particle) :
  p_r A <> p_r B -> 0 < norm2 (vec_sub (p_r B) (p_r A)).
Proof. intros Hne. apply norm2_pos. intros H0. by apply vec_sub_zero in H0. Qed.

(** The written velocities change the kinetic energy of the pair by
    [4 mA mB / (mA + mB) * (dv . dr)^2 / |dr|^2]: the impulse is applied with
    the sign that pushes the two bodies towards each other. *)
Lemma kick_energy (A B : Particle) :
  0 < p_m A -> 0 < p_m B -> 0 < norm2 (vec_sub (p_r B) (p_r A)) ->
  kinetic_energy (kick_A A B) + kinetic_energy (kick_B A B)
  = kinetic_energy A + kinetic_energy B
    + 4 * p_m A * p_m B / (p_m A + p_m B)
      * (dot (vec_sub (p_v B) (p_v A)) (vec_sub (p_r B) (p_r A))) ^ 2
      / norm2 (vec_sub (p_r B) (p_r A)).
Proof.
  destruct A as [[ax ay] [avx avy] ar am ac], B as [[bx by'] [bvx bvy] br bm bc].
  unfold kinetic_energy, kick_A, kick_B, pp_impulse, set_v, vec_add, vec_sub,
    vec_scale, dot, norm2. simpl. intros HmA HmB Hd.
  field. repeat split; lra.
Qed.

Lemma kick_momentum (A B : Particle) :
  0 < p_m A -> 0 < p_m B -> 0 < norm2 (vec_sub (p_r B) (p_r A)) ->
  vec_add (momentum (kick_A A B)) (momentum (kick_B A B))
  = vec_add (momentum A) (momentum B).
Proof.
  destruct A as [[ax ay] [avx avy] ar am ac], B as [[bx by'] [bvx bvy] br bm bc].
  unfold momentum, kick_A, kick_B, pp_impulse, set_v, vec_add, vec_sub,
    vec_scale, dot, norm2. simpl. intros HmA HmB Hd.
  f_equal; field; repeat split; lra.
Qed.

(** ** The pair bounce on the body array *)

Lemma bounce_pp_skip (i j : Z) (s : Simulator) :
  norm2 (vec_sub (p_r (body (P_ s) j)) (p_r (body (P_ s) i))) <= 0 ->
  bounce_pp i j s = s.
Proof. intros Hd. unfold bounce_pp. by rewrite decide_True. Qed.

Lemma bounce_pp_bodies (i j : Z) (s : Simulator) :
  (0 <= i < size (P_ s))%Z -> (0 <= j < size (P_ s))%Z ->
  p_r (body (P_ s) i) <> p_r (body (P_ s) j) ->
  body (P_ (bounce_pp i j s)) i = bump (kick_A (body (P_ s) i) (body (P_ s) j))
  /\ body (P_ (bounce_pp i j s)) j = bump (kick_B (body (P_ s) i) (body (P_ s) j)).
Proof.
  intros Hi Hj Hr.
  assert (Hij : i <> j) by (intros ->; done).
  pose proof (centers_apart _ _ Hr) as Hd.
  unfold bounce_pp. rewrite decide_False by lra. cbn [P_ set_P].
  split.
  - rewrite body_update_ne by done.
    rewrite body_update_eq by (rewrite !size_update_body; lia).
    rewrite body_update_ne by done.
    rewrite body_update_eq by done. reflexivity.
  - rewrite body_update_eq by (rewrite !size_update_body; lia).
    rewrite body_update_ne by done.
    rewrite body_update_eq by (rewrite !size_update_body; lia).
    rewrite body_update_ne by done. reflexivity.
Qed.

Lemma kinetic_energy_bump (p : Particle) : kinetic_energy (bump p) = kinetic_energy p.
Proof. reflexivity. Qed.

Lemma momentum_bump (p : Particle) : momentum (bump p) = momentum p.
Proof. reflexivity. Qed.

(** The kinetic energy of the pair after [bounce_pp], for any two bodies in
    range with positive masses and distinct centers. *)
Lemma bounce_pp_energy (i j : Z) (s : Simulator) :
  (0 <= i < size (P_ s))%Z -> (0 <= j < size (P_ s))%Z ->
  0 < p_m (body (P_ s) i) -> 0 < p_m (body (P_ s) j) ->
  p_r (body (P_ s) i) <> p_r (body (P_ s) j) ->
  let A := body (P_ s) i in
  let B := body (P_ s) j in
  kinetic_energy (body (P_ (bounce_pp i j s)) i)
  + kinetic_energy (body (P_ (bounce_pp i j s)) j)
  = kinetic_energy A + kinetic_energy B
    + 4 * p_m A * p_m B / (p_m A + p_m B)
      * (dot (vec_sub (p_v B) (p_v A)) (vec_sub (p_r B) (p_r A))) ^ 2
      / norm2 (vec_sub (p_r B) (p_r A)).
Proof.
  intros Hi Hj HmA HmB Hr A B.
  destruct (bounce_pp_bodies i j s Hi Hj Hr) as [-> ->].
  rewrite !kinetic_energy_bump.
  apply kick_energy; [done|done|by apply centers_apart].
Qed.


(** C3.  [bounce_pp] conserves the total momentum of the pair: for two bodies
    of the array with positive masses and distinct centers, the vector
    [mA * vA' + mB * vB'] after the call equals [mA * vA + mB * vB]. *)
Theorem bounce_pp_conserves_momentum (i j : Z) (s : Simulator) :
  (0 <= i < size (P_ s))%Z -> (0 <= j < size (P_ s))%Z ->
  0 < p_m (body (P_ s) i) -> 0 < p_m (body (P_ s) j) ->
  p_r (body (P_ s) i) <> p_r (body (P_ s) j) ->
  vec_add (momentum (body (P_ (bounce_pp i j s)) i))
          (momentum (body (P_ (bounce_pp i j s)) j))
  = vec_add (momentum (body (P_ s) i)) (momentum (body (P_ s) j)).
Proof.
  intros Hi Hj HmA HmB Hr.
  destruct (bounce_pp_bodies i j s Hi Hj Hr) as [-> ->].
  rewrite !momentum_bump.
  apply kick_momentum; [done|done|by apply centers_apart].
Qed.

Lemma bounce_pp_conserves_momentum_witness :
  vec_add (momentum (body (P_ (bounce_pp 0 1 head_on)) 0))
          (momentum (body (P_ (bounce_pp 0 1 head_on)) 1))
  = vec_add (momentum (body (P_ head_on) 0)) (momentum (body (P_ head_on) 1)).
Proof.
  apply (bounce_pp_conserves_momentum 0 1 head_on).
  - unfold size. simpl. lia.
  - unfold size. simpl. lia.
  - unfold body. simpl. lra.
  - unfold body. simpl. lra.
  - unfold body. simpl. intros [= H]. lra.
Defined.

(** ** Construction *)

(** C4 (refuted as stated).  The constructor accepts a malformed input: a body
    of negative radius and mass in a box of negative width and height yields a
    simulator, not a construction failure. *)
Lemma constructor_accepts_malformed :
  malformed inverted_cfg [negative_body]
  /\ Simulator_new inverted_cfg [negative_body]
     = Constructed (mkSimulator inverted_cfg [negative_body] 0 [] [])
  /\ Simulator_new inverted_cfg [negative_body] <> ConstructionFailure.
Proof.
  split; [|done].
  left. apply Exists_cons_hd. left. simpl. lra.
Qed.

(** C4 (amended).  Construction never fails and validates nothing: for every
    configuration and body list, malformed or not, the constructor yields the
    simulator holding exactly that configuration and body list, at time 0,
    with no pending event and no snapshot. *)
Theorem constructor_total (cfg : SimConfig) (init : list Particle) :
  Simulator_new cfg init <> ConstructionFailure
  /\ exists s, Simulator_new cfg init = Constructed s
       /\ cfg_ s = cfg /\ P_ s = init /\ t_ s = 0 /\ pq_ s = [] /\ undo_ s = [].
Proof.
  split; [done|]. eexists. split; [reflexivity|]. done.
Qed.

(** ** The snapshot stack *)

Lemma drain_app (stack buf : list SimState) : drain stack buf = buf ++ stack.
Proof.
  revert buf. induction stack as [|x stack IH]; intros buf; simpl.
  - by rewrite app_nil_r.
  - by rewrite IH, <- app_assoc.
Qed.

Lemma rebuild_id (buf : list SimState) : rebuild buf = buf.
Proof.
  unfold rebuild.
  assert (H : forall l acc, fold_left (fun stack (x : SimState) => x :: stack) l acc
                            = rev l ++ acc).
  { induction l as [|x l IH]; intros acc; simpl; [done|].
    by rewrite IH, <- app_assoc. }
  by rewrite H, rev_involutive, app_nil_r.
Qed.

(** The trim of [snapshot] drops the bottom of the stack (the oldest snapshot)
    and keeps the others in order. *)
Lemma trim_removes_oldest (u : list SimState) :
  rebuild (pop_back (drain u [])) = removelast u.
Proof. by rewrite rebuild_id, drain_app. Qed.

(** [snapshot] throws exactly when rollback is enabled with a negative depth,
    and then leaves the simulator as it is. *)
Lemma snapshot_outcome (s : Simulator) :
  (snapshot_throws s -> snapshot s = Thrown s)
  /\ (~ snapshot_throws s -> snapshot s = Returned (snapshot_taken s)).
Proof.
  unfold snapshot_throws, snapshot_taken, snapshot.
  destruct (cfg_enable_rollback (cfg_ s)); simpl.
  - split.
    + intros [_ Hd]. rewrite decide_True by lia. by rewrite decide_True by done.
    + intros Hno. case_decide; [|done]. rewrite decide_False; [done|]. tauto.
  - split; [by intros [? _]|done].
Qed.

Lemma snapshot_thrown (s s' : Simulator) :
  snapshot s = Thrown s' -> snapshot_throws s /\ s' = s.
Proof.
  destruct (decide (snapshot_throws s)) as [Hs|Hs].
  - rewrite (proj1 (snapshot_outcome s) Hs). by intros [= <-].
  - by rewrite (proj2 (snapshot_outcome s) Hs).
Qed.

Lemma snapshot_returned (s s' : Simulator) :
  snapshot s = Returned s' -> ~ snapshot_throws s /\ s' = snapshot_taken s.
Proof.
  destruct (decide (snapshot_throws s)) as [Hs|Hs].
  - by rewrite (proj1 (snapshot_outcome s) Hs).
  - rewrite (proj2 (snapshot_outcome s) Hs). by intros [= <-].
Qed.

Lemma snapshot_disabled (s : Simulator) :
  cfg_enable_rollback (cfg_ s) = false -> snapshot_taken s = s.
Proof. intros H. unfold snapshot_taken, snapshot. by rewrite H. Qed.

Lemma snapshot_enabled (s : Simulator) :
  cfg_enable_rollback (cfg_ s) = true -> (0 <= cfg_rollback_depth (cfg_ s))%Z ->
  snapshot_taken s
  = set_undo s (mkSimState (t_ s) (P_ s)
      :: (if decide (cfg_rollback_depth (cfg_ s) <= Z.of_nat (length (undo_ s)))%Z
          then removelast (undo_ s) else undo_ s)).
Proof.
  intros H Hd. unfold snapshot_taken, snapshot. rewrite H. simpl.
  case_decide; [|done]. rewrite decide_False by lia. simpl.
  by rewrite trim_removes_oldest.
Qed.

Lemma snapshot_frame (s : Simulator) :
  cfg_ (snapshot_taken s) = cfg_ s /\ P_ (snapshot_taken s) = P_ s
  /\ t_ (snapshot_taken s) = t_ s /\ pq_ (snapshot_taken s) = pq_ s.
Proof. unfold snapshot_taken, snapshot. destruct (negb _); repeat case_decide; done. Qed.

Lemma length_removelast {A} (l : list A) : length (removelast l) = pred (length l).
Proof.
  destruct (decide (l = [])) as [->|Hne]; [done|].
  destruct (exists_last Hne) as (l' & x & ->).
  rewrite removelast_last, length_app. simpl. lia.
Qed.

(** With a depth of at least one, a stack within the bound stays within it. *)
Lemma snapshot_bounded (s : Simulator) :
  (1 <= cfg_rollback_depth (cfg_ s))%Z ->
  (Z.of_nat (length (undo_ s)) <= cfg_rollback_depth (cfg_ s))%Z ->
  (Z.of_nat (length (undo_ (snapshot_taken s))) <= cfg_rollback_depth (cfg_ s))%Z.
Proof.
  intros Hd Hlen.
  destruct (cfg_enable_rollback (cfg_ s)) eqn:Hen.
  - rewrite snapshot_enabled by (done || lia). cbn [undo_ set_undo length].
    case_decide.
    + rewrite length_removelast. lia.
    + lia.
  - by rewrite snapshot_disabled.
Qed.

(** When the stack is full, exactly its oldest snapshot is evicted. *)
Lemma snapshot_evicts_oldest (s : Simulator) (kept : list SimState) (oldest : SimState) :
  cfg_enable_rollback (cfg_ s) = true -> (0 <= cfg_rollback_depth (cfg_ s))%Z ->
  undo_ s = kept ++ [oldest] ->
  (cfg_rollback_depth (cfg_ s) <= Z.of_nat (length (undo_ s)))%Z ->
  snapshot s = Returned (snapshot_taken s)
  /\ undo_ (snapshot_taken s) = mkSimState (t_ s) (P_ s) :: kept.
Proof.
  intros Hen Hd Hu Hfull. split.
  - apply snapshot_outcome. unfold snapshot_throws. lia.
  - rewrite snapshot_enabled by done.
    cbn [undo_ set_undo]. rewrite decide_True by done.
    by rewrite Hu, removelast_last.
Qed.

(** An enabled snapshot that returns leaves at least one entry on the stack. *)
Lemma snapshot_nonempty (s : Simulator) :
  cfg_enable_rollback (cfg_ s) = true -> (0 <= cfg_rollback_depth (cfg_ s))%Z ->
  (1 <= length (undo_ (snapshot_taken s)))%nat.
Proof.
  intros Hen Hd. rewrite snapshot_enabled by done. cbn [undo_ set_undo length]. lia.
Qed.

(** ** What the scheduling functions push *)

Lemma pushes_refl Φ k (s : Simulator) : pushes Φ k s s.
Proof. repeat split. exists []. split; [done|]. split; [done|simpl; lia]. Qed.

Lemma pushes_trans Φ k1 k2 (s1 s2 s3 : Simulator) :
  pushes Φ k1 s1 s2 -> pushes Φ k2 s2 s3 -> pushes Φ (k1 + k2) s1 s3.
Proof.
  intros (Hc1 & HP1 & Ht1 & Hu1 & new1 & Hq1 & HF1 & Hl1)
         (Hc2 & HP2 & Ht2 & Hu2 & new2 & Hq2 & HF2 & Hl2).
  repeat split; try congruence.
  exists (new2 ++ new1). split; [|split].
  - by rewrite Hq2, Hq1, app_assoc.
  - by apply Forall_app.
  - rewrite length_app. lia.
Qed.

Lemma pushes_weaken (Φ Ψ : Event -> Prop) k k' (s s' : Simulator) :
  (forall e, Φ e -> Ψ e) -> (k <= k')%nat -> pushes Φ k s s' -> pushes Ψ k' s s'.
Proof.
  intros HΦ Hk (Hc & HP & Ht & Hu & new & Hq & HF & Hl).
  repeat split; try done.
  exists new. split; [done|]. split; [|lia].
  eapply Forall_impl; eauto.
Qed.

Lemma push_if_due_pushes (dt : duration) (mk : R -> Event) (s : Simulator) :
  pushes (fun e => exists d, dt = Finite d /\ t_ s + d <= cfg_T_end (cfg_ s)
                     /\ e = mk (t_ s + d)) 1 s (push_if_due dt mk s).
Proof.
  unfold push_if_due. destruct dt as [d|].
  - case_decide.
    + repeat split. exists [mk (t_ s + d)]. split; [done|]. split; [|done].
      apply Forall_singleton. by exists d.
    + apply pushes_refl.
  - apply pushes_refl.
Qed.

Lemma pushes_same_inputs Φ k (s s' : Simulator) : pushes Φ k s s' -> same_inputs s s'.
Proof. intros (? & ? & ? & _). done. Qed.

Lemma fold_left_pushes {A} Φ k (f : Simulator -> A -> Simulator) (l : list A) (s : Simulator) :
  (forall s' x, x ∈ l -> same_inputs s s' -> pushes Φ k s' (f s' x)) ->
  pushes Φ (length l * k) s (fold_left f l s).
Proof.
  revert s. induction l as [|x l IH]; intros s Hf; simpl.
  - apply pushes_refl.
  - eapply pushes_trans.
    + apply Hf; [left|done].
    + assert (Hx : same_inputs s (f s x)).
      { eapply pushes_same_inputs, Hf; [left|done]. }
      apply IH. intros s' y Hy Hs'. apply Hf; [by right|].
      destruct Hx as (? & ? & ?), Hs' as (? & ? & ?).
      repeat split; congruence.
Qed.

Lemma wall_x_event_inputs (s s' : Simulator) i e :
  same_inputs s s' -> wall_x_event s' i e -> wall_x_event s i e.
Proof. intros (Hc & HP & Ht). unfold wall_x_event. by rewrite Hc, HP, Ht. Qed.

Lemma wall_y_event_inputs (s s' : Simulator) i e :
  same_inputs s s' -> wall_y_event s' i e -> wall_y_event s i e.
Proof. intros (Hc & HP & Ht). unfold wall_y_event. by rewrite Hc, HP, Ht. Qed.

Lemma pair_event_inputs (s s' : Simulator) i j e :
  same_inputs s s' -> pair_event s' i j e -> pair_event s i j e.
Proof. intros (Hc & HP & Ht). unfold pair_event. by rewrite Hc, HP, Ht. Qed.

Lemma seed_event_inputs (s s' : Simulator) e :
  same_inputs s s' -> seed_event s' e -> seed_event s e.
Proof.
  intros Hin (i & Hi & He). pose proof Hin as (_ & HP & _). rewrite HP in Hi.
  exists i. split; [done|].
  destruct He as [He|[He|(j & Hj & He)]].
  - left. by eapply wall_x_event_inputs.
  - right. left. by eapply wall_y_event_inputs.
  - right. right. exists j. rewrite HP in Hj. split; [done|]. by eapply pair_event_inputs.
Qed.

Lemma schedule_wall_events_pushes (i : Z) (s : Simulator) :
  pushes (fun e => wall_x_event s i e \/ wall_y_event s i e) 2 s (schedule_wall_events i s).
Proof.
  unfold schedule_wall_events.
  set (s1 := push_if_due (time_to_wall_x _ _) _ s).
  assert (H1 : pushes (fun e => wall_x_event s i e \/ wall_y_event s i e) 1 s s1).
  { eapply pushes_weaken; [| |apply push_if_due_pushes]; [|lia].
    intros e (d & Hd & Hle & ->). left. by exists d. }
  change 2%nat with (1 + 1)%nat. eapply pushes_trans; [exact H1|].
  pose proof (pushes_same_inputs _ _ _ _ H1) as Hin.
  eapply pushes_weaken; [| |apply push_if_due_pushes]; [|lia].
  intros e (d & Hd & Hle & ->). right.
  destruct Hin as (Hc & HP & Ht). exists d. rewrite Hc, HP, Ht in *. done.
Qed.

Lemma schedule_pair_pushes (i j : Z) (s : Simulator) :
  pushes (pair_event s i j) 1 s (schedule_pair i j s).
Proof.
  unfold schedule_pair.
  eapply pushes_weaken; [| |apply push_if_due_pushes]; [|lia].
  intros e (d & Hd & Hle & ->). by exists d.
Qed.

Lemma elem_of_seqZ_range (m len k : Z) : k ∈ seqZ m len -> (m <= k < m + len)%Z.
Proof. rewrite elem_of_seqZ. lia. Qed.

(** [schedule_pp_events_for i] pushes pair events of [i] with partners of
    higher index only. *)
Lemma schedule_pp_events_for_pushes (i : Z) (s : Simulator) :
  pushes (fun e => exists j, (i < j < size (P_ s))%Z /\ pair_event s i j e)
    (Z.to_nat (size (P_ s) - (i + 1))) s (schedule_pp_events_for i s).
Proof.
  unfold schedule_pp_events_for.
  eapply pushes_weaken; [| |apply (fold_left_pushes
    (fun e => exists j, (i < j < size (P_ s))%Z /\ pair_event s i j e) 1)].
  - done.
  - rewrite length_seqZ. lia.
  - intros s' j Hj Hin. apply elem_of_seqZ_range in Hj.
    eapply pushes_weaken; [| |apply schedule_pair_pushes]; [|lia].
    intros e He. exists j. split; [lia|]. by eapply pair_event_inputs.
Qed.

Lemma reschedule_partners_pushes (a b : Z) (s : Simulator) :
  pushes (fun e => exists k, (0 <= k < size (P_ s))%Z /\ k <> a /\ k <> b
            /\ (pair_event s (Z.min k a) (Z.max k a) e
                \/ pair_event s (Z.min k b) (Z.max k b) e))
    (length (P_ s) * 2) s (reschedule_partners a b s).
Proof.
  unfold reschedule_partners.
  eapply pushes_weaken; [| |apply (fold_left_pushes
    (fun e => exists k, (0 <= k < size (P_ s))%Z /\ k <> a /\ k <> b
            /\ (pair_event s (Z.min k a) (Z.max k a) e
                \/ pair_event s (Z.min k b) (Z.max k b) e)) 2)].
  - done.
  - rewrite length_seqZ. unfold size. lia.
  - intros s' k Hk Hin. apply elem_of_seqZ_range in Hk.
    case_decide as Hab; [apply pushes_refl|].
    change 2%nat with (1 + 1)%nat. eapply pushes_trans.
    + eapply pushes_weaken; [| |apply schedule_pair_pushes]; [|lia].
      intros e He. exists k. repeat split; [lia|lia|tauto|tauto|].
      left. by eapply pair_event_inputs.
    + pose proof (pushes_same_inputs _ _ _ _ (schedule_pair_pushes (Z.min k a) (Z.max k a) s'))
        as (Hc & HP & Ht).
      eapply pushes_weaken; [| |apply schedule_pair_pushes]; [|lia].
      intros e He. exists k. repeat split; [lia|lia|tauto|tauto|].
      right. eapply pair_event_inputs; [|exact He].
      destruct Hin as (? & ? & ?). repeat split; congruence.
Qed.

Lemma schedule_all_pushes (s : Simulator) :
  pushes (seed_event s) (length (P_ s) * 2 + length (P_ s) * length (P_ s))
    s (schedule_all s).
Proof.
  unfold schedule_all.
  set (s1 := fold_left _ _ s).
  assert (H1 : pushes (seed_event s) (length (P_ s) * 2) s s1).
  { eapply pushes_weaken; [| |apply (fold_left_pushes (seed_event s) 2)].
    - done.
    - rewrite length_seqZ. unfold size. lia.
    - intros s' i Hi Hin. apply elem_of_seqZ_range in Hi.
      eapply pushes_weaken; [| |apply schedule_wall_events_pushes]; [|lia].
      intros e He. exists i. split; [lia|].
      destruct He as [He|He]; [left|right; left].
      + by eapply wall_x_event_inputs.
      + by eapply wall_y_event_inputs. }
  eapply pushes_trans; [exact H1|].
  pose proof (pushes_same_inputs _ _ _ _ H1) as Hin1.
  assert (HP1 : P_ s1 = P_ s) by apply Hin1.
  rewrite HP1.
  eapply pushes_weaken; [| |apply (fold_left_pushes (seed_event s) (length (P_ s)))].
  - done.
  - rewrite length_seqZ. unfold size. lia.
  - intros s' i Hi Hin. apply elem_of_seqZ_range in Hi.
    assert (Hs : same_inputs s s').
    { destruct Hin1 as (? & ? & ?), Hin as (? & ? & ?). repeat split; congruence. }
    assert (HP : P_ s' = P_ s) by apply Hs.
    eapply pushes_weaken; [| |apply schedule_pp_events_for_pushes].
    + intros e (j & Hj & He). exists i. rewrite HP in Hj. split; [lia|].
      right; right. exists j. split; [lia|]. by eapply pair_event_inputs.
    + rewrite HP. unfold size. lia.
Qed.

(** ** Frames of the resolvers and of the drift *)

Lemma bounce_wall_x_frame (i : Z) (s : Simulator) :
  cfg_ (bounce_wall_x i s) = cfg_ s /\ t_ (bounce_wall_x i s) = t_ s
  /\ pq_ (bounce_wall_x i s) = pq_ s /\ undo_ (bounce_wall_x i s) = undo_ s
  /\ length (P_ (bounce_wall_x i s)) = length (P_ s).
Proof. unfold bounce_wall_x. cbn. by rewrite length_update_body. Qed.

Lemma bounce_wall_y_frame (i : Z) (s : Simulator) :
  cfg_ (bounce_wall_y i s) = cfg_ s /\ t_ (bounce_wall_y i s) = t_ s
  /\ pq_ (bounce_wall_y i s) = pq_ s /\ undo_ (bounce_wall_y i s) = undo_ s
  /\ length (P_ (bounce_wall_y i s)) = length (P_ s).
Proof. unfold bounce_wall_y. cbn. by rewrite length_update_body. Qed.

Lemma bounce_pp_frame (i j : Z) (s : Simulator) :
  cfg_ (bounce_pp i j s) = cfg_ s /\ t_ (bounce_pp i j s) = t_ s
  /\ pq_ (bounce_pp i j s) = pq_ s /\ undo_ (bounce_pp i j s) = undo_ s
  /\ length (P_ (bounce_pp i j s)) = length (P_ s).
Proof.
  unfold bounce_pp. case_decide; [done|]. cbn.
  by rewrite !length_update_body.
Qed.

Lemma drift_to_frame (T : R) (s : Simulator) :
  cfg_ (drift_to T s) = cfg_ s /\ pq_ (drift_to T s) = pq_ s
  /\ undo_ (drift_to T s) = undo_ s /\ length (P_ (drift_to T s)) = length (P_ s).
Proof.
  unfold drift_to. case_decide; [done|]. cbn. by rewrite length_fmap.
Qed.

Lemma bounced_frame (e : Event) (s : Simulator) :
  cfg_ (bounced e s) = cfg_ s /\ t_ (bounced e s) = t_ s
  /\ pq_ (bounced e s) = pq_ s /\ undo_ (bounced e s) = undo_ s
  /\ length (P_ (bounced e s)) = length (P_ s).
Proof.
  unfold bounced. destruct (e_type e);
    [apply bounce_wall_x_frame|apply bounce_wall_y_frame|apply bounce_pp_frame].
Qed.

Lemma same_inputs_trans (s1 s2 s3 : Simulator) :
  same_inputs s1 s2 -> same_inputs s2 s3 -> same_inputs s1 s3.
Proof. intros (? & ? & ?) (? & ? & ?). repeat split; congruence. Qed.

Lemma wall_resolve_pushes (a : Z) (s : Simulator) :
  pushes (wall_reschedule s a) (2 * length (P_ s) + 4 + Z.to_nat (- a)) s
    (schedule_pp_events_for a (schedule_wall_events a s)).
Proof.
  pose proof (schedule_wall_events_pushes a s) as H1.
  pose proof (pushes_same_inputs _ _ _ _ H1) as Hin.
  assert (HP : P_ (schedule_wall_events a s) = P_ s) by apply Hin.
  eapply pushes_weaken; [done| |eapply pushes_trans].
  2: { eapply pushes_weaken; [| |exact H1]; [|done].
       intros e' He'. unfold wall_reschedule. destruct He'; auto. }
  2: { eapply pushes_weaken; [| |apply schedule_pp_events_for_pushes]; [|done].
       intros e' (j & Hj & He'). right; right. exists j. rewrite HP in Hj.
       split; [done|]. by eapply pair_event_inputs. }
  rewrite HP. unfold size. lia.
Qed.

Lemma pair_resolve_pushes (a b : Z) (s : Simulator) :
  pushes (pair_reschedule s a b) (2 * length (P_ s) + 4) s
    (reschedule_partners a b (schedule_wall_events b (schedule_wall_events a s))).
Proof.
  pose proof (schedule_wall_events_pushes a s) as H1.
  pose proof (pushes_same_inputs _ _ _ _ H1) as Hin1.
  pose proof (schedule_wall_events_pushes b (schedule_wall_events a s)) as H2.
  pose proof (pushes_same_inputs _ _ _ _ H2) as Hin2.
  pose proof (same_inputs_trans _ _ _ Hin1 Hin2) as Hin.
  assert (HP : P_ (schedule_wall_events b (schedule_wall_events a s)) = P_ s) by apply Hin.
  eapply pushes_weaken; [done| |eapply pushes_trans; [eapply pushes_trans|]].
  2: { eapply pushes_weaken; [| |exact H1]; [|done].
       intros e' He'. unfold pair_reschedule. destruct He'; auto. }
  2: { eapply pushes_weaken; [| |exact H2]; [|done].
       intros e' [He'|He']; unfold pair_reschedule.
       - right; right; left. eapply wall_x_event_inputs; [exact Hin1|done].
       - right; right; right; left. eapply wall_y_event_inputs; [exact Hin1|done]. }
  2: { eapply pushes_weaken; [| |apply reschedule_partners_pushes]; [|done].
       intros e' (k & Hk & Hka & Hkb & He'). do 4 right. exists k. rewrite HP in Hk.
       split; [done|]. split; [done|]. split; [done|].
       destruct He' as [He'|He']; [left|right];
         (eapply pair_event_inputs; [exact Hin|done]). }
  rewrite HP. lia.
Qed.

Lemma resolve_pushes (e : Event) (s : Simulator) :
  pushes (rescheduled e (bounced e s)) (2 * length (P_ s) + 4 + Z.to_nat (- e_a e))
    (bounced e s) (resolve e s).
Proof.
  pose proof (bounced_frame e s) as (_ & _ & _ & _ & Hlen). rewrite <- Hlen.
  unfold resolve, rescheduled, bounced.
  destruct (e_type e).
  - apply wall_resolve_pushes.
  - apply wall_resolve_pushes.
  - eapply pushes_weaken; [done| |apply pair_resolve_pushes]. lia.
Qed.

Lemma commit_pushes (e : Event) (s : Simulator) :
  pushes (rescheduled e (before_reschedule e s))
    (2 * length (P_ s) + 4 + Z.to_nat (- e_a e))
    (before_reschedule e s) (committed e s).
Proof.
  unfold committed, before_reschedule.
  pose proof (drift_to_frame (e_t e) (snapshot_taken s)) as (_ & _ & _ & Hlen).
  pose proof (snapshot_frame s) as (_ & HP & _).
  rewrite HP in Hlen. rewrite <- Hlen. apply resolve_pushes.
Qed.

Lemma before_reschedule_frame (e : Event) (s : Simulator) :
  cfg_ (before_reschedule e s) = cfg_ s
  /\ pq_ (before_reschedule e s) = pq_ s
  /\ undo_ (before_reschedule e s) = undo_ (snapshot_taken s)
  /\ length (P_ (before_reschedule e s)) = length (P_ s)
  /\ t_ (before_reschedule e s) = t_ (drift_to (e_t e) s).
Proof.
  unfold before_reschedule.
  pose proof (bounced_frame e (drift_to (e_t e) (snapshot_taken s))) as (-> & -> & -> & -> & ->).
  pose proof (drift_to_frame (e_t e) (snapshot_taken s)) as (-> & -> & -> & ->).
  pose proof (snapshot_frame s) as (-> & HP & Ht & ->).
  rewrite HP. repeat split.
  unfold drift_to. rewrite Ht. by case_decide.
Qed.

(** [commit] throws exactly when [snapshot] does, leaving the simulator as it
    is, and otherwise returns the simulator after the snapshot, the drift and
    the [switch]. *)
Lemma commit_outcome (e : Event) (s : Simulator) :
  (snapshot_throws s -> commit e s = Thrown s)
  /\ (~ snapshot_throws s -> commit e s = Returned (committed e s)).
Proof.
  unfold commit, committed. split; intros Hs.
  - by rewrite (proj1 (snapshot_outcome s) Hs).
  - by rewrite (proj2 (snapshot_outcome s) Hs).
Qed.

Lemma commit_returned (e : Event) (s s' : Simulator) :
  commit e s = Returned s' -> ~ snapshot_throws s /\ s' = committed e s.
Proof.
  destruct (decide (snapshot_throws s)) as [Hs|Hs].
  - by rewrite (proj1 (commit_outcome e s) Hs).
  - rewrite (proj2 (commit_outcome e s) Hs). by intros [= <-].
Qed.

Lemma commit_thrown (e : Event) (s s' : Simulator) :
  commit e s = Thrown s' -> snapshot_throws s /\ s' = s.
Proof.
  destruct (decide (snapshot_throws s)) as [Hs|Hs].
  - rewrite (proj1 (commit_outcome e s) Hs). by intros [= <-].
  - by rewrite (proj2 (commit_outcome e s) Hs).
Qed.

Lemma commit_frame (e : Event) (s : Simulator) :
  cfg_ (committed e s) = cfg_ s
  /\ undo_ (committed e s) = undo_ (snapshot_taken s)
  /\ length (P_ (committed e s)) = length (P_ s)
  /\ t_ (committed e s) = t_ (drift_to (e_t e) s).
Proof.
  pose proof (commit_pushes e s) as (-> & -> & -> & -> & _).
  pose proof (before_reschedule_frame e s) as (-> & _ & -> & -> & ->). done.
Qed.

(** ** The main loop *)

Section Loop.
Context `{PriorityQueue}.

Lemma pq_take_length (q q' : list Event) (e : Event) :
  pq_take q = Some (e, q') -> length q = S (length q').
Proof. intros Hq. apply pq_take_perm in Hq. by rewrite Hq. Qed.

Lemma pq_take_elem (q q' : list Event) (e : Event) :
  pq_take q = Some (e, q') -> e ∈ q /\ (forall e', e' ∈ q' -> e' ∈ q).
Proof.
  intros Hq. apply pq_take_perm in Hq. split.
  - rewrite Hq. left.
  - intros e' He'. rewrite Hq. by right.
Qed.

Lemma loop_step_kind (processed : Z) (s : Simulator) :
  step_kind processed s (loop_step (Running processed s)).
Proof.
  unfold loop_step.
  destruct (pq_take (pq_ s)) as [[e q']|] eqn:Hq.
  - case_decide as Hb; [|apply step_budget; lia].
    case_decide as Ht; [by eapply step_break|].
    destruct (valid (set_pq s q') e) eqn:Hv.
    + destruct (decide (snapshot_throws (set_pq s q'))) as [Hs|Hs].
      * rewrite (proj1 (commit_outcome e (set_pq s q')) Hs).
        eapply step_throw; eauto; [lra|]. by apply commit_outcome.
      * rewrite (proj2 (commit_outcome e (set_pq s q')) Hs).
        eapply step_commit; eauto; [lra|]. by apply commit_outcome.
    + eapply step_stale; eauto. lra.
  - apply step_empty. by apply pq_take_nonempty.
Qed.

Lemma loop_step_exited (s : Simulator) : loop_step (Exited s) = Exited s.
Proof. reflexivity. Qed.

Lemma iter_exited (n : nat) (s : Simulator) : Nat.iter n loop_step (Exited s) = Exited s.
Proof. induction n as [|n IH]; [done|]. simpl. by rewrite IH. Qed.

Lemma iter_aborted (n : nat) (s : Simulator) : Nat.iter n loop_step (Aborted s) = Aborted s.
Proof. induction n as [|n IH]; [done|]. simpl. by rewrite IH. Qed.

(** Invariants of the loop are proved step by step: a popped event is dropped
    when it is stale or beyond the horizon, and committed otherwise, unless
    the snapshot throws; then the event has been popped and nothing else has
    happened. *)
Lemma loop_step_invariant_strong (T W : Simulator -> Prop) :
  (forall s e q', T s -> pq_take (pq_ s) = Some (e, q') ->
     valid (set_pq s q') e = false \/ cfg_T_end (cfg_ s) < e_t e ->
     T (set_pq s q')) ->
  (forall s e q', T s -> pq_take (pq_ s) = Some (e, q') ->
     valid (set_pq s q') e = true -> e_t e <= cfg_T_end (cfg_ s) ->
     T (committed e (set_pq s q'))) ->
  (forall s e q', T s -> pq_take (pq_ s) = Some (e, q') ->
     valid (set_pq s q') e = true -> W (set_pq s q')) ->
  forall l, loop_invariant T W l -> loop_invariant T W (loop_step l).
Proof.
  intros Hpop Hcommit Habort [p s|s|s] HI; [|done|done].
  destruct (loop_step_kind p s); simpl in *; eauto.
Qed.

Lemma loop_step_invariant (I : Simulator -> Prop) :
  (forall s e q', I s -> pq_take (pq_ s) = Some (e, q') -> I (set_pq s q')) ->
  (forall s e q', I s -> pq_take (pq_ s) = Some (e, q') ->
     valid (set_pq s q') e = true -> e_t e <= cfg_T_end (cfg_ s) ->
     I (committed e (set_pq s q'))) ->
  forall l, I (sim_of l) -> I (sim_of (loop_step l)).
Proof.
  intros Hpop Hcommit [p s|s|s] HI; [|done|done].
  destruct (loop_step_kind p s); simpl in *; eauto.
Qed.

(** Once an exception has left the loop, it stays left. *)
Lemma loop_step_alive (l : loop_state) : alive (loop_step l) -> alive l.
Proof. by destruct l. Qed.

Lemma loop_invariant_alive (T W : Simulator -> Prop) (l : loop_state) :
  loop_invariant T W l -> alive l -> T (sim_of l).
Proof. by destruct l. Qed.

Lemma loop_invariant_weaken (T W : Simulator -> Prop) (l : loop_state) :
  (forall s, T s -> W s) -> loop_invariant T W l -> W (sim_of l).
Proof. destruct l; simpl; auto. Qed.

Lemma loop_after_invariant (I : Simulator -> Prop) (s : Simulator) :
  I (schedule_all s) ->
  (forall s e q', I s -> pq_take (pq_ s) = Some (e, q') -> I (set_pq s q')) ->
  (forall s e q', I s -> pq_take (pq_ s) = Some (e, q') ->
     valid (set_pq s q') e = true -> e_t e <= cfg_T_end (cfg_ s) ->
     I (committed e (set_pq s q'))) ->
  forall n, I (sim_of (loop_after n s)).
Proof.
  intros Hseed Hpop Hcommit n. unfold loop_after.
  induction n as [|n IH]; [done|].
  simpl. by apply loop_step_invariant.
Qed.

End Loop.

(** ** Indices stay in range *)

Lemma wall_x_event_in_range (s : Simulator) i e n :
  wall_x_event s i e -> (0 <= i < n)%Z -> event_in_range n e.
Proof. intros (d & _ & _ & ->) Hi. split; [done|]. simpl. done. Qed.

Lemma wall_y_event_in_range (s : Simulator) i e n :
  wall_y_event s i e -> (0 <= i < n)%Z -> event_in_range n e.
Proof. intros (d & _ & _ & ->) Hi. split; [done|]. simpl. done. Qed.

Lemma pair_event_in_range (s : Simulator) i j e n :
  pair_event s i j e -> (0 <= i < n)%Z -> (0 <= j < n)%Z -> event_in_range n e.
Proof. intros (d & _ & _ & ->) Hi Hj. split; done. Qed.

Lemma seed_event_in_range (s : Simulator) e :
  seed_event s e -> event_in_range (size (P_ s)) e.
Proof.
  intros (i & Hi & [He|[He|(j & Hj & He)]]).
  - by eapply wall_x_event_in_range.
  - by eapply wall_y_event_in_range.
  - eapply pair_event_in_range; [done|lia|lia].
Qed.

Lemma rescheduled_in_range (e : Event) (s : Simulator) e' :
  event_in_range (size (P_ s)) e -> rescheduled e s e' ->
  event_in_range (size (P_ s)) e'.
Proof.
  intros [Ha Hb]. unfold rescheduled.
  destruct (e_type e) eqn:Hty.
  - intros [He|[He|(j & Hj & He)]].
    + by eapply wall_x_event_in_range.
    + by eapply wall_y_event_in_range.
    + eapply pair_event_in_range; [done|lia|lia].
  - intros [He|[He|(j & Hj & He)]].
    + by eapply wall_x_event_in_range.
    + by eapply wall_y_event_in_range.
    + eapply pair_event_in_range; [done|lia|lia].
  - specialize (Hb eq_refl).
    intros [He|[He|[He|[He|(k & Hk & _ & _ & [He|He])]]]].
    + by eapply wall_x_event_in_range.
    + by eapply wall_y_event_in_range.
    + by eapply wall_x_event_in_range.
    + by eapply wall_y_event_in_range.
    + eapply pair_event_in_range; [done|lia|lia].
    + eapply pair_event_in_range; [done|lia|lia].
Qed.

Lemma pushes_in_range Φ k (s s' : Simulator) :
  pushes Φ k s s' ->
  (forall e, Φ e -> event_in_range (size (P_ s)) e) ->
  indices_in_range s -> indices_in_range s'.
Proof.
  intros (_ & HP & _ & _ & new & Hq & HF & _) HΦ Hin.
  unfold indices_in_range in *. rewrite Hq, HP.
  apply Forall_app. split; [|done].
  eapply Forall_impl; eauto.
Qed.

Lemma schedule_all_in_range (s : Simulator) :
  indices_in_range s -> indices_in_range (schedule_all s).
Proof.
  intros Hin. eapply pushes_in_range; [apply schedule_all_pushes| |done].
  apply seed_event_in_range.
Qed.

Lemma commit_in_range (e : Event) (s : Simulator) :
  event_in_range (size (P_ s)) e -> indices_in_range s -> indices_in_range (committed e s).
Proof.
  intros He Hin.
  pose proof (before_reschedule_frame e s) as (_ & Hq & _ & Hlen & _).
  assert (Hsz : size (P_ (before_reschedule e s)) = size (P_ s)).
  { unfold size. by rewrite Hlen. }
  eapply pushes_in_range; [apply commit_pushes| |].
  - intros e' He'. eapply rescheduled_in_range; [|done]. by rewrite Hsz.
  - unfold indices_in_range. by rewrite Hq, Hsz.
Qed.

Section LoopFacts.
Context `{PriorityQueue}.

Lemma pop_in_range (s : Simulator) (e : Event) (q' : list Event) :
  indices_in_range s -> pq_take (pq_ s) = Some (e, q') ->
  event_in_range (size (P_ s)) e /\ indices_in_range (set_pq s q').
Proof.
  unfold indices_in_range. intros Hin Hq.
  apply pq_take_perm in Hq. rewrite Hq in Hin.
  cbn [set_pq pq_ P_]. by apply Forall_cons_iff in Hin.
Qed.

(** Every event the scheduler ever queues refers to bodies of the array. *)
Lemma schedule_indices_in_range (s : Simulator) (n : nat) :
  indices_in_range s -> indices_in_range (sim_of (loop_after n s)).
Proof.
  intros Hin. apply (loop_after_invariant indices_in_range).
  - by apply schedule_all_in_range.
  - intros s' e q' Hs' Hq. by destruct (pop_in_range s' e q').
  - intros s' e q' Hs' Hq _ _. destruct (pop_in_range s' e q') as [He Hq']; [done..|].
    by apply commit_in_range.
Qed.

Lemma loop_step_static (l : loop_state) :
  cfg_ (sim_of (loop_step l)) = cfg_ (sim_of l)
  /\ length (P_ (sim_of (loop_step l))) = length (P_ (sim_of l)).
Proof.
  destruct l as [p s|s|s]; [|done|done].
  destruct (loop_step_kind p s); simpl; try done.
  by pose proof (commit_frame e (set_pq s q')) as (-> & _ & -> & _).
Qed.

Lemma iter_static (n : nat) (l : loop_state) :
  cfg_ (sim_of (Nat.iter n loop_step l)) = cfg_ (sim_of l).
Proof.
  induction n as [|n IH]; [done|]. simpl.
  by pose proof (loop_step_static (Nat.iter n loop_step l)) as [-> _].
Qed.

Lemma loop_after_static (s : Simulator) (n : nat) :
  cfg_ (sim_of (loop_after n s)) = cfg_ s
  /\ length (P_ (sim_of (loop_after n s))) = length (P_ s).
Proof.
  unfold loop_after. induction n as [|n [IHc IHl]].
  - simpl. by pose proof (schedule_all_pushes s) as (-> & -> & _).
  - simpl. pose proof (loop_step_static (Nat.iter n loop_step (Running 0 (schedule_all s))))
      as [-> ->]. done.
Qed.

(** *** Termination *)

Lemma loop_step_measure (l : loop_state) :
  indices_in_range (sim_of l) ->
  loop_measure (loop_step l) = 0%nat \/ (loop_measure (loop_step l) < loop_measure l)%nat.
Proof.
  destruct l as [p s|s|s]; [|by left|by left]. intros Hin. cbn [sim_of] in Hin.
  destruct (loop_step_kind p s)
    as [?|?|e q' ? ? ?|e q' Hq Hp Ht Hv|e q' Hq Hp Ht Hv _|e q' Hq Hp Ht Hv _ _];
    [by left|by left|by left| | |by left].
  - right. simpl. rewrite (pq_take_length _ _ _ Hq). lia.
  - right. destruct (pop_in_range s e q' Hin Hq) as [[Ha _] _].
    pose proof (commit_pushes e (set_pq s q')) as (Hc & HP & _ & _ & new & Hnew & _ & Hlen).
    pose proof (before_reschedule_frame e (set_pq s q')) as (Hc' & Hq'' & _ & Hlen' & _).
    simpl. rewrite Hnew, Hq'', length_app, Hc, Hc', HP, Hlen'.
    cbn [set_pq cfg_ P_ pq_] in *.
    rewrite (pq_take_length _ _ _ Hq).
    replace (Z.to_nat (- e_a e)) with 0%nat in Hlen by lia.
    replace (Z.to_nat (cfg_max_events (cfg_ s) - p))
      with (S (Z.to_nat (cfg_max_events (cfg_ s) - (p + 1)))) by lia.
    lia.
Qed.

Lemma loop_exits_within (n : nat) (l : loop_state) :
  indices_in_range (sim_of l) -> (loop_measure l <= n)%nat ->
  exists s', Nat.iter n loop_step l = Exited s' \/ Nat.iter n loop_step l = Aborted s'.
Proof.
  revert l. induction n as [|n IH]; intros l Hin Hm.
  - destruct l as [p s|s|s]; [unfold loop_measure in Hm; nia| |]; exists s; auto.
  - rewrite Nat.iter_succ_r.
    destruct (loop_step_measure l Hin) as [H0|Hlt].
    + destruct (loop_step l) as [p s|s|s]; [unfold loop_measure in H0; nia| |]; exists s.
      * left. apply iter_exited.
      * right. apply iter_aborted.
    + apply IH; [|lia].
      apply (loop_step_invariant indices_in_range); [| |done].
      * intros s' e q' Hs' Hq. by destruct (pop_in_range s' e q').
      * intros s' e q' Hs' Hq _ _. destruct (pop_in_range s' e q') as [He Hq']; [done..|].
        by apply commit_in_range.
Qed.

(** The loop of [run] is left within [loop_bound] steps, by its condition, by
    the [break] or by an exception, and stays left. *)
Lemma loop_exits (s : Simulator) (n : nat) :
  indices_in_range s -> (loop_bound s <= n)%nat ->
  exists s', loop_after n s = Exited s' \/ loop_after n s = Aborted s'.
Proof.
  intros Hin Hn. apply loop_exits_within.
  - by apply schedule_all_in_range.
  - simpl. pose proof (schedule_all_pushes s) as (-> & -> & _).
    unfold loop_bound in Hn. lia.
Qed.

(** An exception leaves the loop only when rollback is enabled with a negative
    depth, and then at the first event that is committed. *)
Lemma snapshot_throws_cfg (s s' : Simulator) :
  cfg_ s' = cfg_ s -> snapshot_throws s' <-> snapshot_throws s.
Proof. unfold snapshot_throws. by intros ->. Qed.

Lemma loop_step_keeps_alive (l : loop_state) :
  ~ snapshot_throws (sim_of l) -> alive l -> alive (loop_step l).
Proof.
  destruct l as [p s|s|s]; [|done|done]. intros Hno _. cbn [sim_of] in Hno.
  by destruct (loop_step_kind p s).
Qed.

Lemma loop_after_alive (s : Simulator) (n : nat) :
  ~ snapshot_throws s -> alive (loop_after n s).
Proof.
  intros Hno. unfold loop_after. induction n as [|n IH]; [done|].
  simpl. apply loop_step_keeps_alive; [|done].
  rewrite snapshot_throws_cfg; [exact Hno|].
  apply (loop_after_static s n).
Qed.

Lemma loop_exits_alive (s : Simulator) (n : nat) :
  indices_in_range s -> ~ snapshot_throws s -> (loop_bound s <= n)%nat ->
  exists s', loop_after n s = Exited s'.
Proof.
  intros Hin Hno Hn. pose proof (loop_after_alive s n Hno) as Ha.
  destruct (loop_exits s n Hin Hn) as (s' & [Hs'|Hs']); [by exists s'|].
  by rewrite Hs' in Ha.
Qed.

End LoopFacts.

(** ** Rollback *)

Lemma appends_id : appends (fun s => s).
Proof. intros c P t. by exists []. Qed.

Lemma appends_compose (f g : Simulator -> Simulator) :
  appends f -> appends g -> appends (fun s => g (f s)).
Proof.
  intros Hf Hg c P t. destruct (Hf c P t) as [new1 H1], (Hg c P t) as [new2 H2].
  exists (new2 ++ new1). intros q u. by rewrite H1, H2, app_assoc.
Qed.

Lemma appends_fold {A} (f : Simulator -> A -> Simulator) (l : list A) :
  (forall x, appends (fun s => f s x)) -> appends (fun s => fold_left f l s).
Proof.
  intros Hf. induction l as [|x l IH]; simpl; [apply appends_id|].
  apply (appends_compose (fun s => f s x) (fun s => fold_left f l s)); [apply Hf|apply IH].
Qed.

Lemma appends_ext (f g : Simulator -> Simulator) :
  (forall s, f s = g s) -> appends f -> appends g.
Proof.
  intros Hfg Hf c P t. destruct (Hf c P t) as [new Hnew].
  exists new. intros q u. by rewrite <- Hfg.
Qed.

Lemma appends_push_if_due (dt : Simulator -> duration) (mk : Simulator -> R -> Event) :
  (forall c P t q u q' u',
     dt (mkSimulator c P t q u) = dt (mkSimulator c P t q' u')
     /\ mk (mkSimulator c P t q u) = mk (mkSimulator c P t q' u')) ->
  appends (fun s => push_if_due (dt s) (mk s) s).
Proof.
  intros Hind c P t.
  destruct (dt (mkSimulator c P t [] [])) as [d|] eqn:Hdt.
  - destruct (decide (t + d <= cfg_T_end c)) as [Hle|Hgt].
    + exists [mk (mkSimulator c P t [] []) (t + d)]. intros q u.
      destruct (Hind c P t q u [] []) as [Hd Hm].
      unfold push_if_due. rewrite Hd, Hdt. cbn. rewrite decide_True by done.
      unfold push. cbn. by rewrite Hm.
    + exists []. intros q u. destruct (Hind c P t q u [] []) as [Hd Hm].
      unfold push_if_due. rewrite Hd, Hdt. cbn. by rewrite decide_False.
  - exists []. intros q u. destruct (Hind c P t q u [] []) as [Hd Hm].
    unfold push_if_due. by rewrite Hd, Hdt.
Qed.

Lemma appends_schedule_pair (i j : Z) : appends (schedule_pair i j).
Proof.
  unfold schedule_pair.
  apply (appends_push_if_due
    (fun s => time_to_pp (body (P_ s) i) (body (P_ s) j))
    (fun s t => mkEvent t i j P_P (p_coll_count (body (P_ s) i))
                  (p_coll_count (body (P_ s) j)))).
  done.
Qed.

Lemma appends_inputs (f : Simulator -> Simulator) (s : Simulator) :
  appends f -> same_inputs s (f s).
Proof.
  intros Hf. destruct s as [c P t q u]. destruct (Hf c P t) as [new ->]. done.
Qed.

Lemma appends_schedule_wall_events (i : Z) : appends (schedule_wall_events i).
Proof.
  apply (appends_ext (fun s =>
    (fun s1 => push_if_due (time_to_wall_y (cfg_ s1) (body (P_ s1) i))
       (fun t => mkEvent t i (-1) P_WALL_Y (p_coll_count (body (P_ s1) i)) (-1)) s1)
    ((fun s0 => push_if_due (time_to_wall_x (cfg_ s0) (body (P_ s0) i))
       (fun t => mkEvent t i (-1) P_WALL_X (p_coll_count (body (P_ s0) i)) (-1)) s0) s))).
  - intros s. unfold schedule_wall_events. cbv beta.
    pose proof (pushes_same_inputs _ _ _ _ (push_if_due_pushes
      (time_to_wall_x (cfg_ s) (body (P_ s) i))
      (fun t => mkEvent t i (-1) P_WALL_X (p_coll_count (body (P_ s) i)) (-1)) s))
      as (Hc & HP & _).
    cbv zeta. by rewrite Hc, HP.
  - apply (appends_compose
      (fun s => push_if_due (time_to_wall_x (cfg_ s) (body (P_ s) i))
         (fun t => mkEvent t i (-1) P_WALL_X (p_coll_count (body (P_ s) i)) (-1)) s)
      (fun s1 => push_if_due (time_to_wall_y (cfg_ s1) (body (P_ s1) i))
         (fun t => mkEvent t i (-1) P_WALL_Y (p_coll_count (body (P_ s1) i)) (-1)) s1)).
    + apply (appends_push_if_due
        (fun s => time_to_wall_x (cfg_ s) (body (P_ s) i))
        (fun s t => mkEvent t i (-1) P_WALL_X (p_coll_count (body (P_ s) i)) (-1))).
      done.
    + apply (appends_push_if_due
        (fun s => time_to_wall_y (cfg_ s) (body (P_ s) i))
        (fun s t => mkEvent t i (-1) P_WALL_Y (p_coll_count (body (P_ s) i)) (-1))).
      done.
Qed.

Lemma appends_schedule_pp_events_for (i : Z) : appends (schedule_pp_events_for i).
Proof.
  intros c P t.
  destruct (appends_fold (fun s' j => schedule_pair i j s')
              (seqZ (i + 1) (size P - (i + 1)))
              (fun j => appends_schedule_pair i j) c P t) as [new Hnew].
  exists new. intros q u. unfold schedule_pp_events_for. cbn [P_]. apply Hnew.
Qed.

Lemma appends_schedule_all : appends schedule_all.
Proof.
  intros c P t.
  destruct (appends_fold (fun s' i => schedule_wall_events i s') (seqZ 0 (size P))
              appends_schedule_wall_events c P t) as [new1 H1].
  destruct (appends_fold (fun s' i => schedule_pp_events_for i s') (seqZ 0 (size P))
              appends_schedule_pp_events_for c P t) as [new2 H2].
  exists (new2 ++ new1). intros q u. unfold schedule_all. cbn [P_].
  rewrite H1. cbn [P_]. rewrite H2. by rewrite app_assoc.
Qed.

(** What [schedule_all] pushes depends on the configuration, the bodies and the
    time only. *)
Lemma schedule_all_queue (s : Simulator) :
  pq_ (schedule_all s)
  = pq_ (schedule_all (mkSimulator (cfg_ s) (P_ s) (t_ s) [] [])) ++ pq_ s.
Proof.
  destruct s as [c P t q u]. destruct (appends_schedule_all c P t) as [new Hnew].
  cbn. rewrite !Hnew. cbn. by rewrite app_nil_r.
Qed.

(** ** The rollback configuration and the trajectory *)

Section RollbackIndependence.
Variables (en : bool) (d : Z).

Lemma ignores_compose (f g : Simulator -> Simulator) :
  ignores_rollback en d f -> ignores_rollback en d g -> ignores_rollback en d (fun s => g (f s)).
Proof. intros Hf Hg u s. by rewrite Hf, Hg. Qed.

Lemma ignores_fold {A} (f : Simulator -> A -> Simulator) (l : list A) :
  (forall x, ignores_rollback en d (fun s => f s x)) ->
  ignores_rollback en d (fun s => fold_left f l s).
Proof.
  intros Hf u. induction l as [|x l IH]; intros s; simpl; [done|].
  by rewrite (Hf x u s), IH.
Qed.

Lemma ignores_push_if_due (dt : Simulator -> duration) (mk : Simulator -> R -> Event) :
  (forall u s, dt (with_rollback en d u s) = dt s /\ mk (with_rollback en d u s) = mk s) ->
  ignores_rollback en d (fun s => push_if_due (dt s) (mk s) s).
Proof.
  intros Hind u s. destruct (Hind u s) as [-> ->].
  unfold push_if_due. destruct (dt s) as [x|]; [|done].
  cbn. by case_decide.
Qed.

Lemma ignores_schedule_pair (i j : Z) : ignores_rollback en d (schedule_pair i j).
Proof.
  apply (ignores_push_if_due
    (fun s => time_to_pp (body (P_ s) i) (body (P_ s) j))
    (fun s t => mkEvent t i j P_P (p_coll_count (body (P_ s) i))
                  (p_coll_count (body (P_ s) j)))).
  done.
Qed.

Lemma ignores_schedule_wall_events (i : Z) : ignores_rollback en d (schedule_wall_events i).
Proof.
  intros u s. unfold schedule_wall_events.
  unfold push_if_due at 2 4. cbn [cfg_ P_ t_ with_rollback cfg_W cfg_H cfg_T_end].
  unfold time_to_wall_x, time_to_wall_y. cbn [cfg_W cfg_H].
  repeat (case_decide; cbn [cfg_ P_ t_ with_rollback cfg_W cfg_H cfg_T_end push set_pq pq_];
          unfold push_if_due;
          cbn [cfg_ P_ t_ with_rollback cfg_W cfg_H cfg_T_end push set_pq pq_]);
    try done.
Qed.

Lemma ignores_schedule_pp_events_for (i : Z) : ignores_rollback en d (schedule_pp_events_for i).
Proof.
  intros u s. unfold schedule_pp_events_for. cbn [P_ with_rollback].
  apply (ignores_fold (fun s' j => schedule_pair i j s')).
  intros j. apply ignores_schedule_pair.
Qed.

Lemma ignores_schedule_all : ignores_rollback en d schedule_all.
Proof.
  intros u s. unfold schedule_all. cbn [P_ with_rollback].
  rewrite (ignores_fold (fun s' i => schedule_wall_events i s') _
             ignores_schedule_wall_events).
  cbn [P_ with_rollback].
  apply (ignores_fold (fun s' i => schedule_pp_events_for i s')).
  apply ignores_schedule_pp_events_for.
Qed.

Lemma ignores_reschedule_partners (a b : Z) : ignores_rollback en d (reschedule_partners a b).
Proof.
  intros u s. unfold reschedule_partners. cbn [P_ with_rollback].
  apply (ignores_fold (fun s' k =>
    if decide (k = a \/ k = b) then s'
    else schedule_pair (Z.min k b) (Z.max k b)
           (schedule_pair (Z.min k a) (Z.max k a) s'))).
  intros k u' s'. case_decide; [done|].
  by rewrite !ignores_schedule_pair.
Qed.

Lemma ignores_bounce_wall_x (i : Z) : ignores_rollback en d (bounce_wall_x i).
Proof. done. Qed.

Lemma ignores_bounce_wall_y (i : Z) : ignores_rollback en d (bounce_wall_y i).
Proof. done. Qed.

Lemma ignores_bounce_pp (i j : Z) : ignores_rollback en d (bounce_pp i j).
Proof. intros u s. unfold bounce_pp. cbn [P_ with_rollback]. by case_decide. Qed.

Lemma ignores_drift_to (T : R) : ignores_rollback en d (drift_to T).
Proof. intros u s. unfold drift_to. cbn [t_ with_rollback]. by case_decide. Qed.

Lemma ignores_resolve (e : Event) : ignores_rollback en d (resolve e).
Proof.
  intros u s. unfold resolve. destruct (e_type e).
  - by rewrite ignores_bounce_wall_x, ignores_schedule_wall_events,
      ignores_schedule_pp_events_for.
  - by rewrite ignores_bounce_wall_y, ignores_schedule_wall_events,
      ignores_schedule_pp_events_for.
  - by rewrite ignores_bounce_pp, !ignores_schedule_wall_events,
      ignores_reschedule_partners.
Qed.

(** [snapshot] writes the snapshot stack and nothing else. *)
Lemma snapshot_with_rollback (u : list SimState) (s : Simulator) :
  exists u', snapshot_taken (with_rollback en d u s) = with_rollback en d u' (snapshot_taken s).
Proof.
  destruct (snapshot_frame s) as (Hc & HP & Ht & Hq).
  destruct (snapshot_frame (with_rollback en d u s)) as (Hc' & HP' & Ht' & Hq').
  exists (undo_ (snapshot_taken (with_rollback en d u s))).
  destruct (snapshot_taken (with_rollback en d u s)) as [c1 P1 t1 q1 u1].
  unfold with_rollback. rewrite Hc, HP, Ht, Hq. cbn in *. by subst.
Qed.

Lemma commit_with_rollback (e : Event) (u : list SimState) (s : Simulator) :
  exists u', committed e (with_rollback en d u s) = with_rollback en d u' (committed e s).
Proof.
  destruct (snapshot_with_rollback u s) as [u' Hu'].
  exists u'. unfold committed. by rewrite Hu', ignores_drift_to, ignores_resolve.
Qed.

Lemma valid_with_rollback (e : Event) (u : list SimState) (s : Simulator) :
  valid (with_rollback en d u s) e = valid s e.
Proof. reflexivity. Qed.

Context `{PriorityQueue}.

Lemma snapshot_throws_with_rollback (u : list SimState) (s : Simulator) :
  snapshot_throws (with_rollback en d u s) <-> en = true /\ (d < 0)%Z.
Proof. reflexivity. Qed.

(** As long as the snapshot throws under neither rollback configuration, the
    loop takes the same steps under both. *)
Lemma loop_step_with_rollback (u : list SimState) (l : loop_state) :
  ~ (en = true /\ (d < 0)%Z) -> ~ snapshot_throws (sim_of l) ->
  exists u', loop_step (loop_with_rollback en d u l)
             = loop_with_rollback en d u' (loop_step l).
Proof.
  intros Hen Hs.
  destruct l as [p s|s|s]; [|by exists u|by exists u]. cbn [sim_of] in Hs.
  unfold loop_step, loop_with_rollback at 1. cbn [pq_ cfg_ with_rollback cfg_max_events cfg_T_end].
  destruct (pq_take (pq_ s)) as [[e q']|]; [|by exists u].
  case_decide; [|by exists u].
  case_decide; [by exists u|].
  change (set_pq (with_rollback en d u s) q') with (with_rollback en d u (set_pq s q')).
  rewrite valid_with_rollback.
  destruct (valid (set_pq s q') e); [|by exists u].
  rewrite (proj2 (commit_outcome e (with_rollback en d u (set_pq s q'))) Hen).
  rewrite (proj2 (commit_outcome e (set_pq s q')) Hs).
  destruct (commit_with_rollback e u (set_pq s q')) as [u' ->]. by exists u'.
Qed.

Lemma iter_with_rollback (n : nat) (u : list SimState) (l : loop_state) :
  ~ (en = true /\ (d < 0)%Z) -> ~ snapshot_throws (sim_of l) ->
  exists u', Nat.iter n loop_step (loop_with_rollback en d u l)
             = loop_with_rollback en d u' (Nat.iter n loop_step l).
Proof.
  intros Hen Hs. induction n as [|n [u1 IH]]; [by exists u|].
  simpl. rewrite IH. apply loop_step_with_rollback; [done|].
  rewrite snapshot_throws_cfg; [exact Hs|]. apply iter_static.
Qed.

Lemma loop_bound_with_rollback (u : list SimState) (s : Simulator) :
  loop_bound (with_rollback en d u s) = loop_bound s.
Proof.
  unfold loop_bound. by rewrite ignores_schedule_all.
Qed.

Lemma run_with_rollback (u : list SimState) (s : Simulator) :
  ~ (en = true /\ (d < 0)%Z) -> ~ snapshot_throws s ->
  exists u' s', run s = Returned s'
    /\ run (with_rollback en d u s) = Returned (with_rollback en d u' s').
Proof.
  intros Hen Hs.
  assert (Hs' : ~ snapshot_throws (schedule_all s)).
  { rewrite snapshot_throws_cfg; [exact Hs|].
    by pose proof (schedule_all_pushes s) as (-> & _). }
  pose proof (loop_after_alive s (loop_bound s) Hs) as Halive.
  unfold run, loop_after in *. rewrite loop_bound_with_rollback, ignores_schedule_all.
  destruct (iter_with_rollback (loop_bound s) u (Running 0 (schedule_all s)) Hen Hs')
    as [u' Hu'].
  change (Running 0 (with_rollback en d u (schedule_all s)))
    with (loop_with_rollback en d u (Running 0 (schedule_all s))).
  rewrite Hu'. exists u'.
  destruct (Nat.iter (loop_bound s) loop_step (Running 0 (schedule_all s))) as [p s'|s'|s'];
    [| |done]; cbn [loop_with_rollback sim_of];
    eexists; (split; [reflexivity|]); f_equal; apply ignores_drift_to.
Qed.

End RollbackIndependence.

(** C10 (amended).  Where the snapshot does not throw, the rollback
    configuration does not influence the trajectory: two runs from simulators
    that differ only in [enable_rollback], [rollback_depth] (and in the
    snapshots already on the stack), neither of them with rollback enabled at
    a negative depth, both return, at the same time and with the same bodies,
    positions, velocities and counters included. *)
Theorem rollback_config_does_not_affect_run `{PriorityQueue}
    (en : bool) (d : Z) (u : list SimState) (s : Simulator) :
  en = false \/ (0 <= d)%Z ->
  cfg_enable_rollback (cfg_ s) = false \/ (0 <= cfg_rollback_depth (cfg_ s))%Z ->
  exists s1 s2,
    run (with_rollback en d u s) = Returned s1 /\ run s = Returned s2
    /\ t_ s1 = t_ s2 /\ P_ s1 = P_ s2.
Proof.
  intros Hen Hs.
  destruct (run_with_rollback en d u s) as (u' & s' & Hrun & Hrun').
  - intros [-> Hd]. destruct Hen as [|]; [done|lia].
  - intros [Hen' Hd]. destruct Hs as [Hs|Hs]; [congruence|lia].
  - eexists _, s'. split; [exact Hrun'|]. split; [exact Hrun|]. done.
Qed.

Lemma rollback_config_does_not_affect_run_witness :
  exists s1 s2,
    run (with_rollback true 2 [] colliding) = Returned s1 /\ run colliding = Returned s2
    /\ t_ s1 = t_ s2 /\ P_ s1 = P_ s2.
Proof.
  apply (rollback_config_does_not_affect_run true 2 [] colliding).
  - right. lia.
  - right. simpl. lia.
Defined.

(** ** The end of [run] *)

Lemma drift_body_zero (p : Particle) : drift_body 0 p = p.
Proof.
  destruct p as [[x y] [vx vy] rad m c]. unfold drift_body, set_r, vec_add, vec_scale.
  simpl. do 2 f_equal; lra.
Qed.

Lemma drift_to_time (T : R) (s : Simulator) : t_ s <= T -> t_ (drift_to T s) = T.
Proof. intros Hle. unfold drift_to. case_decide; simpl; lra. Qed.

Lemma drift_to_bodies (T : R) (s : Simulator) :
  t_ s <= T -> P_ (drift_to T s) = drift_body (T - t_ s) <$> P_ s.
Proof.
  intros Hle. unfold drift_to. case_decide as Hdt; [|done].
  replace (T - t_ s) with 0 by lra.
  rewrite <- (list_fmap_id (P_ s)) at 1.
  apply list_fmap_ext. intros i p _. by rewrite drift_body_zero.
Qed.

Lemma drift_to_time_le (T B : R) (s : Simulator) :
  t_ s <= B -> T <= B -> t_ (drift_to T s) <= B.
Proof. intros Hs HT. unfold drift_to. case_decide; simpl; lra. Qed.

Section RunEnd.
Context `{PriorityQueue}.

Lemma loop_after_exited (k n : nat) (s s' : Simulator) :
  loop_after k s = Exited s' -> (k <= n)%nat -> loop_after n s = Exited s'.
Proof.
  unfold loop_after. intros Hk Hle.
  replace n with ((n - k) + k)%nat by lia.
  rewrite Nat.iter_add, Hk. apply iter_exited.
Qed.

(** The loop never advances the time beyond the horizon. *)
Lemma loop_time_within_horizon (s : Simulator) (n : nat) :
  t_ s <= cfg_T_end (cfg_ s) ->
  t_ (sim_of (loop_after n s)) <= cfg_T_end (cfg_ (sim_of (loop_after n s))).
Proof.
  intros Hle.
  apply (loop_after_invariant (fun s' => t_ s' <= cfg_T_end (cfg_ s'))).
  - by pose proof (schedule_all_pushes s) as (-> & _ & -> & _).
  - done.
  - intros s' e q' Hs' _ _ He.
    pose proof (commit_frame e (set_pq s' q')) as (-> & _ & _ & ->).
    by apply drift_to_time_le.
Qed.

(** With an event budget of zero, or with nothing to schedule, the loop is
    left at once. *)
Lemma loop_after_no_event (s : Simulator) (n : nat) :
  (cfg_max_events (cfg_ s) <= 0)%Z \/ pq_ (schedule_all s) = [] -> (1 <= n)%nat ->
  loop_after n s = Exited (schedule_all s).
Proof.
  intros Hnone Hn. apply (loop_after_exited 1); [|done].
  unfold loop_after. simpl.
  pose proof (schedule_all_pushes s) as (Hc & _).
  destruct Hnone as [Hmax|Hempty].
  - destruct (pq_take (pq_ (schedule_all s))) as [[e q']|]; [|done].
    rewrite Hc. by rewrite decide_False by lia.
  - by rewrite Hempty, pq_take_nil.
Qed.

Lemma loop_bound_pos (s : Simulator) : (1 <= loop_bound s)%nat.
Proof. unfold loop_bound. lia. Qed.

(** An exception leaves the loop at the first commit when rollback is enabled
    with a negative depth: the event has been popped, nothing else has been
    written, and [run] does not return. *)
Lemma loop_step_throws (p : Z) (s : Simulator) (e : Event) (q' : list Event) :
  snapshot_throws s -> pq_take (pq_ s) = Some (e, q') ->
  (p < cfg_max_events (cfg_ s))%Z -> e_t e <= cfg_T_end (cfg_ s) ->
  valid (set_pq s q') e = true ->
  loop_step (Running p s) = Aborted (set_pq s q').
Proof.
  intros Hs Hq Hp Ht Hv. unfold loop_step. rewrite Hq.
  rewrite decide_True by done. rewrite decide_False by lra. rewrite Hv.
  by rewrite (proj1 (commit_outcome e (set_pq s q'))).
Qed.

Lemma loop_after_aborted (k n : nat) (s s' : Simulator) :
  loop_after k s = Aborted s' -> (k <= n)%nat -> loop_after n s = Aborted s'.
Proof.
  unfold loop_after. intros Hk Hle.
  replace n with ((n - k) + k)%nat by lia.
  rewrite Nat.iter_add, Hk. apply iter_aborted.
Qed.

(** C9 (amended).  When the horizon is not before the current time and the
    snapshot does not throw (rollback is disabled or its depth is not
    negative, or nothing is committed for want of budget or of events), [run]
    leaves its loop and returns with the time equal to the horizon, every body
    of the state the loop ended in being moved along its velocity for the
    time that was left; with an event budget of zero, or with no event to
    schedule, that state is the initial one, so the bodies drift through the
    whole run. *)
Theorem run_ends_at_horizon (s : Simulator) :
  indices_in_range s ->
  t_ s <= cfg_T_end (cfg_ s) ->
  (cfg_enable_rollback (cfg_ s) = false \/ (0 <= cfg_rollback_depth (cfg_ s))%Z)
  \/ (cfg_max_events (cfg_ s) <= 0)%Z \/ pq_ (schedule_all s) = [] ->
  exists s_loop s_end,
    loop_after (loop_bound s) s = Exited s_loop
    /\ run s = Returned s_end
    /\ cfg_ s_end = cfg_ s
    /\ t_ s_end = cfg_T_end (cfg_ s)
    /\ P_ s_end = drift_body (cfg_T_end (cfg_ s) - t_ s_loop) <$> P_ s_loop
    /\ ((cfg_max_events (cfg_ s) <= 0)%Z \/ pq_ (schedule_all s) = [] ->
        P_ s_loop = P_ s /\ t_ s_loop = t_ s).
Proof.
  intros Hin Hle Hsafe.
  assert (Hex : exists s_loop, loop_after (loop_bound s) s = Exited s_loop).
  { destruct Hsafe as [Hsafe|Hnone].
    - apply loop_exits_alive; [done| |done].
      intros [Hen Hd]. destruct Hsafe as [Hsafe|Hsafe]; [congruence|lia].
    - eexists. apply (loop_after_no_event s _ Hnone (loop_bound_pos s)). }
  destruct Hex as [s_loop Hloop].
  exists s_loop, (drift_to (cfg_T_end (cfg_ s_loop)) s_loop). split; [done|].
  pose proof (loop_after_static s (loop_bound s)) as [Hc _].
  pose proof (loop_time_within_horizon s (loop_bound s) Hle) as Ht.
  unfold run. rewrite Hloop in *. cbn [sim_of] in *. rewrite Hc in *.
  split; [done|].
  pose proof (drift_to_frame (cfg_T_end (cfg_ s)) s_loop) as (-> & _).
  split; [done|]. split; [by apply drift_to_time|].
  split; [by apply drift_to_bodies|].
  intros Hnone. rewrite (loop_after_no_event s _ Hnone (loop_bound_pos s)) in Hloop.
  injection Hloop as <-.
  by pose proof (schedule_all_pushes s) as (_ & -> & -> & _).
Qed.

End RunEnd.

(** C9 (refuted as stated).  With a horizon before the current time [run]
    returns without changing anything: the final time is 0, not the
    horizon -1. *)
Lemma run_misses_past_horizon :
  cfg_T_end (cfg_ past_horizon) = -1
  /\ exists s_end, run past_horizon = Returned s_end
       /\ t_ s_end = 0
       /\ t_ s_end <> cfg_T_end (cfg_ past_horizon).
Proof.
  assert (Hloop : loop_after (loop_bound past_horizon) past_horizon = Exited past_horizon).
  { apply (loop_after_exited 1); [done|apply loop_bound_pos]. }
  split; [done|]. eexists. split.
  - unfold run. rewrite Hloop. reflexivity.
  - unfold drift_to. cbn [past_horizon cfg_ t_ cfg_T_end past_horizon_cfg].
    rewrite decide_True by lra. simpl. split; lra.
Qed.

Lemma run_ends_at_horizon_witness :
  exists s_loop s_end,
    loop_after (loop_bound colliding) colliding = Exited s_loop
    /\ run colliding = Returned s_end
    /\ cfg_ s_end = cfg_ colliding
    /\ t_ s_end = cfg_T_end (cfg_ colliding)
    /\ P_ s_end = drift_body (cfg_T_end (cfg_ colliding) - t_ s_loop) <$> P_ s_loop
    /\ ((cfg_max_events (cfg_ colliding) <= 0)%Z \/ pq_ (schedule_all colliding) = [] ->
        P_ s_loop = P_ colliding /\ t_ s_loop = t_ colliding).
Proof.
  apply (run_ends_at_horizon colliding).
  - apply Forall_nil_2.
  - simpl. lra.
  - left. right. simpl. lia.
Defined.

(** ** Collision counters and stale events *)

Lemma valid_false_stale (s : Simulator) (e : Event) : valid s e = false <-> stale s e.
Proof.
  unfold valid, stale, coll_count_of.
  repeat case_decide; split; intros Hs; try done; tauto.
Qed.

Lemma valid_true_counters (s : Simulator) (e : Event) :
  valid s e = true ->
  ((0 <= e_a e)%Z -> coll_count_of s (e_a e) = e_collA e)
  /\ (e_type e = P_P -> (0 <= e_b e)%Z -> coll_count_of s (e_b e) = e_collB e).
Proof.
  unfold valid, coll_count_of. repeat case_decide; try done. intros _.
  split.
  - intros Ha. destruct (decide (p_coll_count (body (P_ s) (e_a e)) = e_collA e)); tauto.
  - intros Hty Hb.
    destruct (decide (p_coll_count (body (P_ s) (e_b e)) = e_collB e)); tauto.
Qed.

Lemma update_body_out_of_range (P : list Particle) (i : Z) f :
  ~ (0 <= i < size P)%Z -> update_body P i f = P.
Proof.
  unfold update_body, size. intros Hi. case_decide; [|done].
  apply list_eq. intros j. destruct (decide (Z.to_nat i = j)) as [<-|Hne].
  - rewrite list_lookup_alter_eq. rewrite (lookup_ge_None_2 P (Z.to_nat i)) by lia. done.
  - by rewrite list_lookup_alter_ne.
Qed.

(** A write to body [i] that adds [k] to its counter adds [k] to the counter
    of [i], when [i] is in range, and leaves every other counter as it is. *)
Lemma coll_count_update (P : list Particle) (i j : Z) f (k : Z) :
  (forall p, p_coll_count (f p) = (p_coll_count p + k)%Z) ->
  p_coll_count (body (update_body P i f) j)
  = if decide (i = j /\ (0 <= i < size P)%Z) then (p_coll_count (body P j) + k)%Z
    else p_coll_count (body P j).
Proof.
  intros Hf. case_decide as Hij.
  - destruct Hij as [<- Hi]. by rewrite body_update_eq, Hf.
  - destruct (decide (i = j)) as [<-|Hne].
    + rewrite update_body_out_of_range; [done|tauto].
    + by rewrite body_update_ne.
Qed.

Lemma coll_count_bounce_wall_x (i j : Z) (s : Simulator) :
  coll_count_of (bounce_wall_x i s) j
  = if decide (i = j /\ (0 <= i < size (P_ s))%Z) then (coll_count_of s j + 1)%Z
    else coll_count_of s j.
Proof. unfold coll_count_of, bounce_wall_x. cbn [P_ set_P]. by apply coll_count_update. Qed.

Lemma coll_count_bounce_wall_y (i j : Z) (s : Simulator) :
  coll_count_of (bounce_wall_y i s) j
  = if decide (i = j /\ (0 <= i < size (P_ s))%Z) then (coll_count_of s j + 1)%Z
    else coll_count_of s j.
Proof. unfold coll_count_of, bounce_wall_y. cbn [P_ set_P]. by apply coll_count_update. Qed.

Lemma coll_count_bounce_pp_le (i j x : Z) (s : Simulator) :
  (coll_count_of s x <= coll_count_of (bounce_pp i j s) x)%Z.
Proof.
  unfold coll_count_of, bounce_pp. case_decide; [done|]. cbn [P_ set_P].
  rewrite (coll_count_update _ j x bump 1) by done.
  rewrite (coll_count_update _ i x bump 1) by done.
  rewrite (coll_count_update _ j x _ 0) by (intros p; simpl; lia).
  rewrite (coll_count_update _ i x _ 0) by (intros p; simpl; lia).
  repeat case_decide; lia.
Qed.

Lemma coll_count_bounce_pp (i j x : Z) (s : Simulator) :
  (0 <= i < size (P_ s))%Z -> (0 <= j < size (P_ s))%Z ->
  p_r (body (P_ s) i) <> p_r (body (P_ s) j) ->
  x = i \/ x = j ->
  coll_count_of (bounce_pp i j s) x = (coll_count_of s x + 1)%Z.
Proof.
  intros Hi Hj Hr Hx. unfold coll_count_of.
  destruct (bounce_pp_bodies i j s Hi Hj Hr) as [HA HB].
  destruct Hx as [->| ->]; [by rewrite HA|by rewrite HB].
Qed.

Lemma coll_count_drift_to (T : R) (s : Simulator) (i : Z) :
  coll_count_of (drift_to T s) i = coll_count_of s i.
Proof.
  unfold coll_count_of, drift_to. case_decide; [done|]. cbn [P_ set_P set_t].
  unfold body. case_decide; [|done].
  rewrite !list_lookup_total_alt, list_lookup_fmap.
  by destruct (P_ s !! Z.to_nat i).
Qed.

Lemma coll_count_snapshot (s : Simulator) (i : Z) :
  coll_count_of (snapshot_taken s) i = coll_count_of s i.
Proof. unfold coll_count_of. by pose proof (snapshot_frame s) as (_ & -> & _). Qed.

Lemma coll_count_commit (e : Event) (s : Simulator) (i : Z) :
  coll_count_of (committed e s) i = coll_count_of (before_reschedule e s) i.
Proof. unfold coll_count_of. by pose proof (commit_pushes e s) as (_ & -> & _). Qed.

Lemma coll_count_before_reschedule_le (e : Event) (s : Simulator) (i : Z) :
  (coll_count_of s i <= coll_count_of (before_reschedule e s) i)%Z.
Proof.
  unfold before_reschedule, bounced.
  rewrite <- (coll_count_snapshot s i), <- (coll_count_drift_to (e_t e) (snapshot_taken s) i).
  destruct (e_type e).
  - rewrite coll_count_bounce_wall_x. case_decide; lia.
  - rewrite coll_count_bounce_wall_y. case_decide; lia.
  - apply coll_count_bounce_pp_le.
Qed.

Lemma commit_counters_le (e : Event) (s : Simulator) (i : Z) :
  (coll_count_of s i <= coll_count_of (committed e s) i)%Z.
Proof. rewrite coll_count_commit. apply coll_count_before_reschedule_le. Qed.

Lemma drift_to_snapshot_bodies (T : R) (s : Simulator) :
  P_ (drift_to T (snapshot_taken s)) = P_ (drift_to T s).
Proof.
  pose proof (snapshot_frame s) as (_ & HP & Ht & _).
  unfold drift_to. rewrite Ht. case_decide; [done|]. cbn. by rewrite HP.
Qed.

(** A collision adds one to the counter of each body that takes part. *)
Lemma commit_counter_bumped (e : Event) (s : Simulator) (x : Z) :
  event_in_range (size (P_ s)) e ->
  collides e (drift_to (e_t e) s) x ->
  coll_count_of (committed e s) x = (coll_count_of s x + 1)%Z.
Proof.
  intros [Ha Hb] Hx. rewrite coll_count_commit.
  rewrite <- (coll_count_snapshot s x), <- (coll_count_drift_to (e_t e) (snapshot_taken s) x).
  pose proof (drift_to_frame (e_t e) (snapshot_taken s)) as (_ & _ & _ & Hlen).
  pose proof (snapshot_frame s) as (_ & HP & _).
  assert (Hsz : size (P_ (drift_to (e_t e) (snapshot_taken s))) = size (P_ s)).
  { unfold size. by rewrite Hlen, HP. }
  unfold before_reschedule, bounced, collides in *.
  destruct (e_type e).
  - subst x. rewrite coll_count_bounce_wall_x, Hsz. by rewrite decide_True.
  - subst x. rewrite coll_count_bounce_wall_y, Hsz. by rewrite decide_True.
  - destruct Hx as [Hx Hr]. specialize (Hb eq_refl).
    apply coll_count_bounce_pp; rewrite ?Hsz; try done.
    by rewrite drift_to_snapshot_bodies.
Qed.

Lemma wall_x_event_captured (s : Simulator) i e :
  wall_x_event s i e ->
  e_a e = i /\ e_type e = P_WALL_X /\ e_collA e = coll_count_of s i.
Proof. by intros (d & _ & _ & ->). Qed.

Lemma wall_y_event_captured (s : Simulator) i e :
  wall_y_event s i e ->
  e_a e = i /\ e_type e = P_WALL_Y /\ e_collA e = coll_count_of s i.
Proof. by intros (d & _ & _ & ->). Qed.

Lemma pair_event_captured (s : Simulator) i j e :
  pair_event s i j e ->
  e_a e = i /\ e_b e = j /\ e_type e = P_P
  /\ e_collA e = coll_count_of s i /\ e_collB e = coll_count_of s j.
Proof. by intros (d & _ & _ & ->). Qed.

Lemma wall_x_event_live (s : Simulator) i e : wall_x_event s i e -> captures_live s e.
Proof.
  intros He. apply wall_x_event_captured in He as (Ha & Hty & Hc).
  split; [by rewrite Hc, Ha|]. by rewrite Hty.
Qed.

Lemma wall_y_event_live (s : Simulator) i e : wall_y_event s i e -> captures_live s e.
Proof.
  intros He. apply wall_y_event_captured in He as (Ha & Hty & Hc).
  split; [by rewrite Hc, Ha|]. by rewrite Hty.
Qed.

Lemma pair_event_live (s : Simulator) i j e : pair_event s i j e -> captures_live s e.
Proof.
  intros He. apply pair_event_captured in He as (Ha & Hb & _ & HcA & HcB).
  split; [by rewrite HcA, Ha|]. by rewrite HcB, Hb.
Qed.

Lemma seed_event_live (s : Simulator) e : seed_event s e -> captures_live s e.
Proof.
  intros (i & _ & [He|[He|(j & _ & He)]]);
    eauto using wall_x_event_live, wall_y_event_live, pair_event_live.
Qed.

Lemma rescheduled_live (e0 : Event) (s : Simulator) e :
  rescheduled e0 s e -> captures_live s e.
Proof.
  unfold rescheduled, wall_reschedule, pair_reschedule.
  destruct (e_type e0).
  - intros [He|[He|(j & _ & He)]];
      eauto using wall_x_event_live, wall_y_event_live, pair_event_live.
  - intros [He|[He|(j & _ & He)]];
      eauto using wall_x_event_live, wall_y_event_live, pair_event_live.
  - intros [He|[He|[He|[He|(k & _ & _ & _ & [He|He])]]]];
      eauto using wall_x_event_live, wall_y_event_live, pair_event_live.
Qed.

Lemma pushes_captured_le_live Φ k (s0 s s' : Simulator) :
  pushes Φ k s s' ->
  (forall e, Φ e -> captures_live s e) ->
  (forall i, (coll_count_of s0 i <= coll_count_of s i)%Z) ->
  pq_ s = pq_ s0 ->
  captured_le_live s0 -> captured_le_live s'.
Proof.
  intros (_ & HP & _ & _ & new & Hq & HF & _) HΦ Hle Hq0 Hold.
  unfold captured_le_live in *. rewrite Hq, Hq0.
  assert (Hcc : forall i, coll_count_of s' i = coll_count_of s i).
  { intros i. unfold coll_count_of. by rewrite HP. }
  apply Forall_app. split.
  - eapply Forall_impl; [|exact HF]. intros e He.
    destruct (HΦ e He) as [HA HB]. rewrite !Hcc. split; [lia|].
    intros Hty. rewrite (HB Hty). lia.
  - eapply Forall_impl; [|exact Hold]. intros e [HA HB]. rewrite !Hcc.
    split; [etrans; [exact HA|apply Hle]|].
    intros Hty. etrans; [exact (HB Hty)|apply Hle].
Qed.

Lemma schedule_all_captured_le_live (s : Simulator) :
  captured_le_live s -> captured_le_live (schedule_all s).
Proof.
  intros Hs. eapply (pushes_captured_le_live _ _ s s); [apply schedule_all_pushes| | |done|done].
  - apply seed_event_live.
  - intros i. lia.
Qed.

Lemma commit_captured_le_live (e : Event) (s : Simulator) :
  captured_le_live s -> captured_le_live (committed e s).
Proof.
  intros Hs. eapply (pushes_captured_le_live _ _ s); [apply commit_pushes| | | |done].
  - apply rescheduled_live.
  - apply coll_count_before_reschedule_le.
  - by pose proof (before_reschedule_frame e s) as (_ & -> & _).
Qed.

Section Staleness.
Context `{PriorityQueue}.

Lemma pop_captured_le_live (s : Simulator) (e : Event) (q' : list Event) :
  captured_le_live s -> pq_take (pq_ s) = Some (e, q') -> captured_le_live (set_pq s q').
Proof.
  unfold captured_le_live. intros Hs Hq. apply pq_take_perm in Hq.
  rewrite Hq in Hs. apply Forall_cons_iff in Hs as [_ Hs]. exact Hs.
Qed.

Lemma loop_step_captured_le_live (l : loop_state) :
  captured_le_live (sim_of l) -> captured_le_live (sim_of (loop_step l)).
Proof.
  apply (loop_step_invariant captured_le_live).
  - intros s e q'. apply pop_captured_le_live.
  - intros s e q' Hs Hq _ _. apply commit_captured_le_live.
    by eapply pop_captured_le_live.
Qed.

Lemma loop_step_counters_le (l : loop_state) (i : Z) :
  (coll_count_of (sim_of l) i <= coll_count_of (sim_of (loop_step l)) i)%Z.
Proof.
  destruct l as [p s|s|s]; [|done|done].
  destruct (loop_step_kind p s); cbn [sim_of]; try done.
  apply (commit_counters_le e (set_pq s q') i).
Qed.

Lemma iter_counters_le (k : nat) (l : loop_state) (i : Z) :
  (coll_count_of (sim_of l) i <= coll_count_of (sim_of (Nat.iter k loop_step l)) i)%Z.
Proof.
  induction k as [|k IH]; [done|]. simpl.
  etrans; [exact IH|apply loop_step_counters_le].
Qed.

(** A step that pops a stale event commits nothing and leaves time, bodies,
    snapshots and configuration as they are. *)
Lemma stale_step_changes_nothing (p : Z) (s : Simulator) (e : Event) (q' : list Event) :
  pq_take (pq_ s) = Some (e, q') -> stale s e ->
  (forall s2, loop_step (Running p s) <> Running (p + 1) s2)
  /\ cfg_ (sim_of (loop_step (Running p s))) = cfg_ s
  /\ t_ (sim_of (loop_step (Running p s))) = t_ s
  /\ P_ (sim_of (loop_step (Running p s))) = P_ s
  /\ undo_ (sim_of (loop_step (Running p s))) = undo_ s.
Proof.
  intros Hq Hst.
  assert (Hv : valid (set_pq s q') e = false) by by apply valid_false_stale.
  unfold loop_step. rewrite Hq, Hv.
  repeat case_decide; split; try done; intros s2 [=]; lia.
Qed.

(** A step that counts an event has committed the popped event, which was
    valid. *)
Lemma counted_step_commits (p : Z) (s : Simulator) (e : Event) (q' : list Event)
    (s2 : Simulator) :
  pq_take (pq_ s) = Some (e, q') ->
  loop_step (Running p s) = Running (p + 1) s2 ->
  valid (set_pq s q') e = true /\ commit e (set_pq s q') = Returned s2.
Proof.
  intros Hq. unfold loop_step. rewrite Hq.
  case_decide; [|done]. case_decide; [done|].
  destruct (valid (set_pq s q') e); [|intros [=]; lia].
  destruct (commit e (set_pq s q')); [|done]. by intros [= <-].
Qed.

(** C7.  An event is committed only when the counters it captured equal the
    live ones; a popped event with a differing counter is not committed and
    leaves configuration, time, bodies and history unchanged; and once a body
    has taken part in a collision, every event that was pending for it at
    that moment is stale in all later states of the loop, so that popping it
    there commits nothing. *)
Theorem stale_event_never_applied :
  (forall p s e q' s2,
     pq_take (pq_ s) = Some (e, q') ->
     loop_step (Running p s) = Running (p + 1) s2 ->
     commit e (set_pq s q') = Returned s2
     /\ ((0 <= e_a e)%Z -> coll_count_of s (e_a e) = e_collA e)
     /\ (e_type e = P_P -> (0 <= e_b e)%Z -> coll_count_of s (e_b e) = e_collB e))
  /\ (forall p s e q',
        pq_take (pq_ s) = Some (e, q') -> stale s e ->
        (forall s2, loop_step (Running p s) <> Running (p + 1) s2)
        /\ cfg_ (sim_of (loop_step (Running p s))) = cfg_ s
        /\ t_ (sim_of (loop_step (Running p s))) = t_ s
        /\ P_ (sim_of (loop_step (Running p s))) = P_ s
        /\ undo_ (sim_of (loop_step (Running p s))) = undo_ s)
  /\ (forall p1 s1 e1 q1 s2 e x k,
        indices_in_range s1 -> captured_le_live s1 ->
        pq_take (pq_ s1) = Some (e1, q1) ->
        valid (set_pq s1 q1) e1 = true ->
        commit e1 (set_pq s1 q1) = Returned s2 ->
        collides e1 (drift_to (e_t e1) s1) x ->
        e ∈ q1 -> refers_to e x ->
        let l := Nat.iter k loop_step (Running (p1 + 1) s2) in
        stale (sim_of l) e
        /\ forall p s q',
             l = Running p s -> pq_take (pq_ s) = Some (e, q') ->
             (forall s3, loop_step l <> Running (p + 1) s3)
             /\ t_ (sim_of (loop_step l)) = t_ s
             /\ P_ (sim_of (loop_step l)) = P_ s
             /\ undo_ (sim_of (loop_step l)) = undo_ s).
Proof.
  split; [|split].
  - intros p s e q' s2 Hq Hstep.
    destruct (counted_step_commits p s e q' s2 Hq Hstep) as [Hv Hc].
    split; [done|]. by apply (valid_true_counters (set_pq s q') e).
  - apply stale_step_changes_nothing.
  - intros p1 s1 e1 q1 s2 e x k Hin Hcap Hq Hv Hc Hx He Hre l.
    apply commit_returned in Hc as [_ ->].
    assert (Hstale : stale (sim_of l) e).
    { destruct (pop_in_range s1 e1 q1 Hin Hq) as [Hr1 Hin'].
      pose proof (pop_captured_le_live s1 e1 q1 Hcap Hq) as Hcap'.
      unfold captured_le_live in Hcap'. rewrite Forall_forall in Hcap'.
      destruct (Hcap' e) as [HA HB]; [by apply list_elem_of_In|].
      unfold indices_in_range in Hin'. rewrite Forall_forall in Hin'.
      destruct (Hin' e) as [HrA HrB]; [by apply list_elem_of_In|].
      cbn [set_pq P_ pq_] in *.
      assert (Hx' : collides e1 (drift_to (e_t e1) (set_pq s1 q1)) x).
      { unfold collides, drift_to in *. cbn [t_ set_pq] in *. by case_decide. }
      pose proof (commit_counter_bumped e1 (set_pq s1 q1) x Hr1 Hx') as Hbump.
      pose proof (iter_counters_le k (Running (p1 + 1) (committed e1 (set_pq s1 q1))) x)
        as Hmono.
      fold l in Hmono. cbn [sim_of] in Hmono. rewrite Hbump in Hmono.
      change (coll_count_of (set_pq s1 q1) x) with (coll_count_of s1 x) in Hmono.
      change (coll_count_of (set_pq s1 q1)) with (coll_count_of s1) in HA, HB.
      destruct Hre as [Ha|[Hty Hb]].
      - left. subst x. split; [lia|]. lia.
      - right. subst x. specialize (HB Hty). specialize (HrB Hty).
        split; [done|]. split; [lia|]. lia. }
    split; [done|].
    intros p s q' Hl Hq'. rewrite Hl in *. cbn [sim_of] in Hstale.
    destruct (stale_step_changes_nothing p s e q' Hq' Hstale) as (? & _ & ? & ? & ?).
    done.
Qed.

End Staleness.

Lemma stale_event_never_applied_witness :
  stale (sim_of (Nat.iter 0 loop_step
                   (Running (0 + 1) (committed first_hit (set_pq two_pending [later_hit])))))
        later_hit.
Proof.
  apply (proj2 (proj2 stale_event_never_applied) 0%Z two_pending first_hit [later_hit]
           (committed first_hit (set_pq two_pending [later_hit])) later_hit 0%Z 0%nat).
  - unfold indices_in_range, two_pending, size. simpl.
    repeat apply Forall_cons_2; try apply Forall_nil_2; split; simpl; (lia || done).
  - unfold captured_le_live, two_pending, coll_count_of, body. simpl.
    repeat apply Forall_cons_2; try apply Forall_nil_2; split; simpl; (lia || done).
  - simpl. rewrite decide_True by lra. reflexivity.
  - reflexivity.
  - apply commit_outcome. unfold snapshot_throws. simpl. lia.
  - reflexivity.
  - apply list_elem_of_In. left. reflexivity.
  - left. reflexivity.
Defined.

Section StalenessInvariant.
Context `{PriorityQueue}.

(** The hypothesis of the staleness theorem holds throughout a run. *)
Lemma loop_after_captured_le_live (s : Simulator) (n : nat) :
  captured_le_live s -> captured_le_live (sim_of (loop_after n s)).
Proof.
  intros Hs. unfold loop_after. induction n as [|n IH].
  - by apply schedule_all_captured_le_live.
  - simpl. by apply loop_step_captured_le_live.
Qed.

End StalenessInvariant.

(** ** Rescheduling after a wall event *)

(** After a wall event of body [a] is committed, every pair event pushed has
    [a] as its first body and a partner of higher index as its second. *)
Lemma wall_commit_pairs_upward (e : Event) (s : Simulator) :
  e_type e <> P_P ->
  exists new, pq_ (committed e s) = new ++ pq_ s
    /\ Forall (fun e' => e_type e' = P_P -> e_a e' = e_a e /\ (e_a e < e_b e')%Z) new.
Proof.
  intros Hty.
  pose proof (commit_pushes e s) as (_ & _ & _ & _ & new & Hq & HF & _).
  pose proof (before_reschedule_frame e s) as (_ & Hq' & _).
  exists new. rewrite Hq, Hq'. split; [done|].
  eapply Forall_impl; [|exact HF]. intros e'. unfold rescheduled.
  destruct (e_type e); [| |done].
  - intros [He'|[He'|(j & Hj & He')]] HP.
    + apply wall_x_event_captured in He' as (_ & Hty' & _). congruence.
    + apply wall_y_event_captured in He' as (_ & Hty' & _). congruence.
    + apply pair_event_captured in He' as (-> & -> & _). split; [done|lia].
  - intros [He'|[He'|(j & Hj & He')]] HP.
    + apply wall_x_event_captured in He' as (_ & Hty' & _). congruence.
    + apply wall_y_event_captured in He' as (_ & Hty' & _). congruence.
    + apply pair_event_captured in He' as (-> & -> & _). split; [done|lia].
Qed.

(** [time_to_pp] on an approaching pair whose discriminant is the square of
    [root]. *)
Lemma time_to_pp_finite (A B : Particle) (root : R) :
  let dr := vec_sub (p_r B) (p_r A) in
  let dv := vec_sub (p_v B) (p_v A) in
  let R_ := p_rad A + p_rad B in
  dot dv dr < 0 ->
  0 <= root ->
  root * root = dot dv dr * dot dv dr - norm2 dv * (norm2 dr - R_ * R_) ->
  contact_tolerance < - (dot dv dr + root) / norm2 dv ->
  time_to_pp A B = Finite (- (dot dv dr + root) / norm2 dv).
Proof.
  intros dr dv R_ Happroach Hroot Hdisc Htol.
  unfold time_to_pp. fold dr dv R_.
  rewrite decide_False by lra.
  rewrite decide_False by (rewrite <- Hdisc; nra).
  rewrite <- Hdisc, (sqrt_lem_1 (root * root) root) by nra.
  by rewrite decide_False by lra.
Qed.


(** ** Predicted times *)

Lemma time_to_wall_x_nonneg (cfg : SimConfig) (p : Particle) (d : R) :
  contained cfg p -> time_to_wall_x cfg p = Finite d -> 0 <= d.
Proof.
  intros [[Hlo Hhi] _]. unfold time_to_wall_x.
  repeat case_decide; intros [= <-].
  - apply Rmult_le_pos; [lra|]. left. by apply Rinv_0_lt_compat.
  - replace ((p_rad p - vec_x (p_r p)) / vec_x (p_v p))
      with ((vec_x (p_r p) - p_rad p) * / (- vec_x (p_v p))) by (field; lra).
    apply Rmult_le_pos; [lra|]. left. apply Rinv_0_lt_compat. lra.
Qed.

Lemma time_to_wall_y_nonneg (cfg : SimConfig) (p : Particle) (d : R) :
  contained cfg p -> time_to_wall_y cfg p = Finite d -> 0 <= d.
Proof.
  intros [_ [Hlo Hhi]]. unfold time_to_wall_y.
  repeat case_decide; intros [= <-].
  - apply Rmult_le_pos; [lra|]. left. by apply Rinv_0_lt_compat.
  - replace ((p_rad p - vec_y (p_r p)) / vec_y (p_v p))
      with ((vec_y (p_r p) - p_rad p) * / (- vec_y (p_v p))) by (field; lra).
    apply Rmult_le_pos; [lra|]. left. apply Rinv_0_lt_compat. lra.
Qed.

Lemma contact_tolerance_pos : 0 < contact_tolerance.
Proof. unfold contact_tolerance. lra. Qed.

(** A finite pair time lies beyond the contact tolerance. *)
Lemma time_to_pp_positive (A B : Particle) (d : R) :
  time_to_pp A B = Finite d -> contact_tolerance < d.
Proof.
  unfold time_to_pp. repeat case_decide; intros [= <-]. lra.
Qed.

(** The time to a wall shrinks by the time drifted. *)
Lemma time_to_wall_x_drift (cfg : SimConfig) (p : Particle) (dt d : R) :
  time_to_wall_x cfg (drift_body dt p) = Finite d ->
  time_to_wall_x cfg p = Finite (d + dt).
Proof.
  unfold time_to_wall_x, drift_body. destruct p as [[x y] [vx vy] rad m c]. simpl.
  repeat case_decide; intros [= <-]; f_equal; field; lra.
Qed.

Lemma time_to_wall_y_drift (cfg : SimConfig) (p : Particle) (dt d : R) :
  time_to_wall_y cfg (drift_body dt p) = Finite d ->
  time_to_wall_y cfg p = Finite (d + dt).
Proof.
  unfold time_to_wall_y, drift_body. destruct p as [[x y] [vx vy] rad m c]. simpl.
  repeat case_decide; intros [= <-]; f_equal; field; lra.
Qed.

(** A body stays inside the box while it drifts no longer than its wall
    times allow. *)
Lemma drift_body_contained (cfg : SimConfig) (p : Particle) (dt : R) :
  contained cfg p -> 0 <= dt ->
  (forall d, time_to_wall_x cfg p = Finite d -> dt <= d) ->
  (forall d, time_to_wall_y cfg p = Finite d -> dt <= d) ->
  contained cfg (drift_body dt p).
Proof.
  intros [[Hxl Hxh] [Hyl Hyh]] Hdt Hx Hy.
  unfold time_to_wall_x, time_to_wall_y in *.
  destruct p as [[x y] [vx vy] rad m c]. unfold contained, drift_body in *. simpl in *.
  split.
  - destruct (decide (0 < vx)) as [Hpos|Hnpos].
    + specialize (Hx _ eq_refl). split; [nra|].
      apply (Rmult_le_compat_r vx) in Hx; [|lra].
      replace ((cfg_W cfg - rad - x) / vx * vx) with (cfg_W cfg - rad - x) in Hx
        by (field; lra). lra.
    + destruct (decide (vx < 0)) as [Hneg|Hnneg].
      * specialize (Hx _ eq_refl). split; [|nra].
        apply (Rmult_le_compat_r (- vx)) in Hx; [|lra].
        replace ((rad - x) / vx * - vx) with (x - rad) in Hx by (field; lra). lra.
      * replace vx with 0 by lra. lra.
  - destruct (decide (0 < vy)) as [Hpos|Hnpos].
    + specialize (Hy _ eq_refl). split; [nra|].
      apply (Rmult_le_compat_r vy) in Hy; [|lra].
      replace ((cfg_H cfg - rad - y) / vy * vy) with (cfg_H cfg - rad - y) in Hy
        by (field; lra). lra.
    + destruct (decide (vy < 0)) as [Hneg|Hnneg].
      * specialize (Hy _ eq_refl). split; [|nra].
        apply (Rmult_le_compat_r (- vy)) in Hy; [|lra].
        replace ((rad - y) / vy * - vy) with (y - rad) in Hy by (field; lra). lra.
      * replace vy with 0 by lra. lra.
Qed.

(** ** The wall events are pushed *)

Lemma pushes_elem Φ k (s s' : Simulator) (e : Event) :
  pushes Φ k s s' -> e ∈ pq_ s -> e ∈ pq_ s'.
Proof.
  intros (_ & _ & _ & _ & new & -> & _) He. apply elem_of_app. by right.
Qed.

Lemma pushes_new_or_old Φ k (s s' : Simulator) (e : Event) :
  pushes Φ k s s' -> e ∈ pq_ s' -> Φ e \/ e ∈ pq_ s.
Proof.
  intros (_ & _ & _ & _ & new & -> & HF & _) He.
  apply elem_of_app in He as [He|He]; [left|by right].
  rewrite Forall_forall in HF. apply HF. by apply list_elem_of_In.
Qed.

Lemma push_if_due_elem (d : R) (mk : R -> Event) (s : Simulator) (e : Event) :
  t_ s + d <= cfg_T_end (cfg_ s) -> e = mk (t_ s + d) ->
  e ∈ pq_ (push_if_due (Finite d) mk s).
Proof.
  intros Hle ->. unfold push_if_due. rewrite decide_True by done. cbn. left.
Qed.

Lemma push_if_due_keeps (dt : duration) (mk : R -> Event) (s : Simulator) (e : Event) :
  e ∈ pq_ s -> e ∈ pq_ (push_if_due dt mk s).
Proof. eapply pushes_elem, push_if_due_pushes. Qed.

Lemma schedule_wall_events_elem (i : Z) (s : Simulator) (e : Event) :
  wall_x_event s i e \/ wall_y_event s i e -> e ∈ pq_ (schedule_wall_events i s).
Proof.
  unfold schedule_wall_events. cbv zeta.
  remember (push_if_due (time_to_wall_x (cfg_ s) (body (P_ s) i))
              (fun t => mkEvent t i (-1) P_WALL_X (p_coll_count (body (P_ s) i)) (-1)) s)
    as s1 eqn:Hs1.
  assert (Hin : same_inputs s s1).
  { subst s1. eapply pushes_same_inputs, push_if_due_pushes. }
  destruct Hin as (Hc & HP & Ht).
  intros [(d & Hd & Hle & ->)|(d & Hd & Hle & ->)].
  - apply push_if_due_keeps. subst s1. rewrite Hd. by apply push_if_due_elem.
  - rewrite Hd. apply push_if_due_elem; [by rewrite Hc, Ht|]. by rewrite Ht, HP.
Qed.

Lemma fold_left_elem {A} (f : Simulator -> A -> Simulator) (G : A -> Event -> Prop)
    (l : list A) (s : Simulator) :
  (forall s' x, same_inputs s s' ->
     same_inputs s' (f s' x)
     /\ (forall e, e ∈ pq_ s' -> e ∈ pq_ (f s' x))
     /\ (forall e, G x e -> e ∈ pq_ (f s' x))) ->
  forall x e, x ∈ l -> G x e -> e ∈ pq_ (fold_left f l s).
Proof.
  intros Hf.
  assert (Hkeep : forall l s' e, same_inputs s s' -> e ∈ pq_ s' ->
            e ∈ pq_ (fold_left f l s')).
  { clear l. induction l as [|y l IH]; intros s' e Hs' He; simpl; [done|].
    destruct (Hf s' y Hs') as (Hin & Hk & _).
    apply IH; [by eapply same_inputs_trans|by apply Hk]. }
  assert (Hgen : forall s', same_inputs s s' ->
            forall x e, x ∈ l -> G x e -> e ∈ pq_ (fold_left f l s')).
  { induction l as [|y l IH]; intros s' Hs' x e Hx HG.
    - by apply elem_of_nil in Hx.
    - simpl. destruct (Hf s' y Hs') as (Hin & Hk & Hy).
      apply elem_of_cons in Hx as [->|Hx].
      + apply Hkeep; [by eapply same_inputs_trans|by apply Hy].
      + eapply IH; [by eapply same_inputs_trans|exact Hx|exact HG]. }
  by apply Hgen.
Qed.

Lemma fold_left_keeps {A} (f : Simulator -> A -> Simulator) (l : list A)
    (s : Simulator) (e : Event) :
  (forall s' x e', e' ∈ pq_ s' -> e' ∈ pq_ (f s' x)) ->
  e ∈ pq_ s -> e ∈ pq_ (fold_left f l s).
Proof.
  intros Hf. revert s. induction l as [|x l IH]; intros s He; simpl; [done|].
  apply IH. by apply Hf.
Qed.

Lemma same_inputs_sym (s s' : Simulator) : same_inputs s s' -> same_inputs s' s.
Proof. intros (? & ? & ?). repeat split; congruence. Qed.

Lemma schedule_all_unfold (s : Simulator) :
  schedule_all s
  = fold_left (fun s' i => schedule_pp_events_for i s') (seqZ 0 (size (P_ s)))
      (fold_left (fun s' i => schedule_wall_events i s') (seqZ 0 (size (P_ s))) s).
Proof.
  unfold schedule_all. cbv zeta.
  pose proof (fold_left_pushes (fun _ => True) 2
    (fun s' i => schedule_wall_events i s') (seqZ 0 (size (P_ s))) s) as Hp.
  destruct Hp as (_ & -> & _); [|done].
  intros s' i _ _. eapply pushes_weaken; [| |apply schedule_wall_events_pushes]; done.
Qed.

(** Seeding leaves the due wall events of every body in the queue. *)
Lemma schedule_all_walls_scheduled (s : Simulator) : walls_scheduled (schedule_all s).
Proof.
  intros i e Hi He.
  pose proof (schedule_all_pushes s) as Hall.
  pose proof (pushes_same_inputs _ _ _ _ Hall) as Hin.
  assert (HP : P_ (schedule_all s) = P_ s) by apply Hin. rewrite HP in Hi.
  assert (He' : wall_x_event s i e \/ wall_y_event s i e).
  { destruct He as [He|He]; [left|right].
    - by eapply wall_x_event_inputs.
    - by eapply wall_y_event_inputs. }
  rewrite schedule_all_unfold.
  apply fold_left_keeps.
  { intros s' j e'. eapply pushes_elem, schedule_pp_events_for_pushes. }
  apply (fold_left_elem (fun s' j => schedule_wall_events j s')
           (fun j e' => wall_x_event s j e' \/ wall_y_event s j e') _ s) with (x := i).
  - intros s' j Hs'. split; [|split].
    + eapply pushes_same_inputs, schedule_wall_events_pushes.
    + intros e'. eapply pushes_elem, schedule_wall_events_pushes.
    + intros e' He''. apply schedule_wall_events_elem.
      apply same_inputs_sym in Hs'.
      destruct He'' as [He''|He'']; [left|right].
      * by eapply wall_x_event_inputs.
      * by eapply wall_y_event_inputs.
  - apply elem_of_seqZ. lia.
  - done.
Qed.

(** Under containment every event the scheduler builds lies at or after the
    current time. *)
Lemma contained_body (s : Simulator) (i : Z) :
  all_contained s -> (0 <= i < size (P_ s))%Z -> contained (cfg_ s) (body (P_ s) i).
Proof.
  unfold all_contained. rewrite Forall_lookup. intros Hall Hi.
  eapply Hall. by apply lookup_body.
Qed.

Lemma wall_x_event_not_past (s : Simulator) i e :
  all_contained s -> (0 <= i < size (P_ s))%Z -> wall_x_event s i e -> t_ s <= e_t e.
Proof.
  intros Hall Hi (d & Hd & _ & ->). simpl.
  pose proof (time_to_wall_x_nonneg _ _ _ (contained_body s i Hall Hi) Hd). lra.
Qed.

Lemma wall_y_event_not_past (s : Simulator) i e :
  all_contained s -> (0 <= i < size (P_ s))%Z -> wall_y_event s i e -> t_ s <= e_t e.
Proof.
  intros Hall Hi (d & Hd & _ & ->). simpl.
  pose proof (time_to_wall_y_nonneg _ _ _ (contained_body s i Hall Hi) Hd). lra.
Qed.

Lemma pair_event_not_past (s : Simulator) i j e : pair_event s i j e -> t_ s <= e_t e.
Proof.
  intros (d & Hd & _ & ->). simpl.
  pose proof (time_to_pp_positive _ _ _ Hd). pose proof contact_tolerance_pos. lra.
Qed.

Lemma seed_event_not_past (s : Simulator) e :
  all_contained s -> seed_event s e -> t_ s <= e_t e.
Proof.
  intros Hall (i & Hi & [He|[He|(j & _ & He)]]);
    eauto using wall_x_event_not_past, wall_y_event_not_past, pair_event_not_past.
Qed.

Lemma rescheduled_not_past (e0 : Event) (s : Simulator) e :
  all_contained s -> event_in_range (size (P_ s)) e0 -> rescheduled e0 s e ->
  t_ s <= e_t e.
Proof.
  intros Hall [Ha Hb]. unfold rescheduled, wall_reschedule, pair_reschedule.
  destruct (e_type e0).
  - intros [He|[He|(j & _ & He)]];
      eauto using wall_x_event_not_past, wall_y_event_not_past, pair_event_not_past.
  - intros [He|[He|(j & _ & He)]];
      eauto using wall_x_event_not_past, wall_y_event_not_past, pair_event_not_past.
  - specialize (Hb eq_refl).
    intros [He|[He|[He|[He|(k & _ & _ & _ & [He|He])]]]];
      eauto using wall_x_event_not_past, wall_y_event_not_past, pair_event_not_past.
Qed.

Lemma schedule_all_time_consistent (s : Simulator) :
  all_contained s -> pending_not_past s -> time_consistent (schedule_all s).
Proof.
  intros Hall Hpend.
  pose proof (schedule_all_pushes s) as (Hc & HP & Ht & _ & new & Hq & HF & _).
  split; [|split].
  - unfold all_contained. by rewrite Hc, HP.
  - unfold pending_not_past. rewrite Hq, Ht. apply Forall_app. split; [|done].
    eapply Forall_impl; [|exact HF]. intros e. by apply seed_event_not_past.
  - apply schedule_all_walls_scheduled.
Qed.

(** ** Containment and the wall events through a commit *)

Lemma update_body_contained (cfg : SimConfig) (P : list Particle) (i : Z) f :
  (forall p, contained cfg p -> contained cfg (f p)) ->
  Forall (contained cfg) P -> Forall (contained cfg) (update_body P i f).
Proof.
  intros Hf HP. unfold update_body. case_decide; [|done].
  apply Forall_alter; [done|]. intros p _. apply Hf.
Qed.

(** The bounces write velocities and counters only, so they keep every body
    where it is. *)
Lemma bounced_contained (e : Event) (s : Simulator) :
  all_contained s -> all_contained (bounced e s).
Proof.
  unfold all_contained.
  pose proof (bounced_frame e s) as (-> & _).
  unfold bounced, bounce_wall_x, bounce_wall_y, bounce_pp.
  destruct (e_type e); [| |case_decide; [done|]]; cbn [P_ set_P]; intros Hall;
    repeat apply update_body_contained; done.
Qed.

Lemma body_bounced_other (e : Event) (s : Simulator) (i : Z) :
  i <> e_a e -> (e_type e = P_P -> i <> e_b e) ->
  body (P_ (bounced e s)) i = body (P_ s) i.
Proof.
  intros Ha Hb. unfold bounced, bounce_wall_x, bounce_wall_y, bounce_pp.
  destruct (e_type e); [| |case_decide; [done|]]; cbn [P_ set_P].
  - by rewrite body_update_ne.
  - by rewrite body_update_ne.
  - specialize (Hb eq_refl). by rewrite !body_update_ne.
Qed.

Lemma body_fmap (f : Particle -> Particle) (P : list Particle) (i : Z) :
  (0 <= i < size P)%Z -> body (f <$> P) i = f (body P i).
Proof.
  intros Hi. apply body_lookup; [lia|].
  by rewrite list_lookup_fmap, (lookup_body P i Hi).
Qed.

(** A wall event predicted after a drift is the one predicted before it. *)
Lemma wall_x_event_drift (s s' : Simulator) (dt : R) (i : Z) (e : Event) :
  cfg_ s' = cfg_ s -> t_ s' = t_ s + dt ->
  body (P_ s') i = drift_body dt (body (P_ s) i) ->
  wall_x_event s' i e -> wall_x_event s i e.
Proof.
  intros Hc Ht Hb (d & Hd & Hle & ->). rewrite Hc, Hb in Hd.
  apply time_to_wall_x_drift in Hd. exists (d + dt).
  split; [done|]. rewrite Hc, Ht in Hle. split; [lra|].
  rewrite Ht, Hb. f_equal. lra.
Qed.

Lemma wall_y_event_drift (s s' : Simulator) (dt : R) (i : Z) (e : Event) :
  cfg_ s' = cfg_ s -> t_ s' = t_ s + dt ->
  body (P_ s') i = drift_body dt (body (P_ s) i) ->
  wall_y_event s' i e -> wall_y_event s i e.
Proof.
  intros Hc Ht Hb (d & Hd & Hle & ->). rewrite Hc, Hb in Hd.
  apply time_to_wall_y_drift in Hd. exists (d + dt).
  split; [done|]. rewrite Hc, Ht in Hle. split; [lra|].
  rewrite Ht, Hb. f_equal. lra.
Qed.

(** Drifting to a time that no pending event precedes keeps the bodies in the
    box: the wall events that are due bound the drift. *)
Lemma drift_contained (s : Simulator) (T : R) :
  all_contained s -> walls_scheduled s ->
  t_ s <= T -> T <= cfg_T_end (cfg_ s) ->
  (forall ev, ev ∈ pq_ s -> T <= e_t ev) ->
  Forall (contained (cfg_ s)) (drift_body (T - t_ s) <$> P_ s).
Proof.
  intros Hall Hwalls Hle Hend Hmin.
  apply Forall_fmap, Forall_lookup. intros n p Hp. cbv [compose].
  assert (Hi : (0 <= Z.of_nat n < size (P_ s))%Z).
  { apply lookup_lt_Some in Hp. unfold size. lia. }
  assert (Hbody : body (P_ s) (Z.of_nat n) = p).
  { apply body_lookup; [lia|]. by rewrite Nat2Z.id. }
  pose proof (contained_body s _ Hall Hi) as Hcont. rewrite Hbody in Hcont.
  apply drift_body_contained; [done|lra| |].
  - intros d Hd. destruct (decide (t_ s + d <= cfg_T_end (cfg_ s))) as [Hdue|Hlate].
    + assert (Hin : mkEvent (t_ s + d) (Z.of_nat n) (-1) P_WALL_X
                      (p_coll_count (body (P_ s) (Z.of_nat n))) (-1) ∈ pq_ s).
      { apply (Hwalls (Z.of_nat n)); [done|]. left. exists d. by rewrite Hbody. }
      apply Hmin in Hin. simpl in Hin. lra.
    + lra.
  - intros d Hd. destruct (decide (t_ s + d <= cfg_T_end (cfg_ s))) as [Hdue|Hlate].
    + assert (Hin : mkEvent (t_ s + d) (Z.of_nat n) (-1) P_WALL_Y
                      (p_coll_count (body (P_ s) (Z.of_nat n))) (-1) ∈ pq_ s).
      { apply (Hwalls (Z.of_nat n)); [done|]. right. exists d. by rewrite Hbody. }
      apply Hmin in Hin. simpl in Hin. lra.
    + lra.
Qed.

(** The rescheduling pushes the wall events of the bodies it touches. *)
Lemma resolve_walls_elem (e : Event) (s : Simulator) (i : Z) (ev : Event) :
  i = e_a e \/ (e_type e = P_P /\ i = e_b e) ->
  wall_x_event (bounced e s) i ev \/ wall_y_event (bounced e s) i ev ->
  ev ∈ pq_ (resolve e s).
Proof.
  intros Hi Hev. unfold resolve, bounced in *.
  destruct (e_type e) eqn:Hty.
  - destruct Hi as [->|[? _]]; [|done].
    eapply pushes_elem; [apply schedule_pp_events_for_pushes|].
    by apply schedule_wall_events_elem.
  - destruct Hi as [->|[? _]]; [|done].
    eapply pushes_elem; [apply schedule_pp_events_for_pushes|].
    by apply schedule_wall_events_elem.
  - eapply pushes_elem; [apply reschedule_partners_pushes|].
    set (sb := bounce_pp (e_a e) (e_b e) s) in *.
    pose proof (pushes_same_inputs _ _ _ _ (schedule_wall_events_pushes (e_a e) sb)) as Hin.
    destruct (decide (i = e_b e)) as [->|Hne].
    + apply schedule_wall_events_elem. apply same_inputs_sym in Hin.
      destruct Hev as [Hev|Hev]; [left|right].
      * by eapply wall_x_event_inputs.
      * by eapply wall_y_event_inputs.
    + destruct Hi as [->|[_ ?]]; [|done].
      eapply pushes_elem; [apply schedule_wall_events_pushes|].
      by apply schedule_wall_events_elem.
Qed.

Section TimeConsistency.
Context `{PriorityQueue}.

Lemma pq_take_earliest_elem (q q' : list Event) (e ev : Event) :
  pq_take q = Some (e, q') -> ev ∈ q -> e_t e <= e_t ev.
Proof.
  intros Hq Hev. pose proof (pq_take_earliest _ _ _ Hq) as Hmin.
  apply pq_take_perm in Hq. rewrite Hq in Hev.
  apply elem_of_cons in Hev as [->|Hev]; [lra|].
  rewrite Forall_forall in Hmin. apply Hmin. by apply list_elem_of_In.
Qed.

(** A due wall event with the live counter passes [valid]. *)
Lemma wall_event_valid (s : Simulator) (i : Z) (ev : Event) :
  wall_x_event s i ev \/ wall_y_event s i ev ->
  valid s ev = true /\ e_t ev <= cfg_T_end (cfg_ s) /\ e_a ev = i /\ e_type ev <> P_P.
Proof.
  intros [(d & _ & Hle & ->)|(d & _ & Hle & ->)]; unfold valid; cbn [e_a e_collA e_type e_t];
    repeat case_decide; try done; try tauto; destruct_and?; done.
Qed.

(** Dropping a stale event, or one beyond the horizon, keeps the invariant. *)
Lemma pop_time_consistent (s : Simulator) (e : Event) (q' : list Event) :
  time_consistent s -> pq_take (pq_ s) = Some (e, q') ->
  valid (set_pq s q') e = false \/ cfg_T_end (cfg_ s) < e_t e ->
  time_consistent (set_pq s q').
Proof.
  intros (Hall & Hpend & Hwalls) Hq Hdrop.
  pose proof (pq_take_perm _ _ _ Hq) as Hperm.
  split; [done|split].
  - unfold pending_not_past in *. cbn [set_pq pq_ t_]. rewrite Hperm in Hpend.
    by apply Forall_cons_iff in Hpend as [_ Hpend].
  - intros i ev Hi Hev. cbn [set_pq pq_ P_] in *.
    assert (Hev' : wall_x_event s i ev \/ wall_y_event s i ev) by exact Hev.
    pose proof (Hwalls i ev Hi Hev') as Hin. rewrite Hperm in Hin.
    apply elem_of_cons in Hin as [->|Hin]; [|done].
    destruct (wall_event_valid s i e Hev') as (Hv & Hle & _).
    destruct Hdrop as [Hst|Hlate]; [|lra].
    change (valid (set_pq s q') e) with (valid s e) in Hst. congruence.
Qed.

Lemma commit_time_consistent (s : Simulator) (e : Event) (q' : list Event) :
  time_consistent s -> indices_in_range s ->
  pq_take (pq_ s) = Some (e, q') ->
  e_t e <= cfg_T_end (cfg_ s) ->
  time_consistent (committed e (set_pq s q')).
Proof.
  intros (Hall & Hpend & Hwalls) Hin Hq Hend.
  pose proof (pq_take_perm _ _ _ Hq) as Hperm.
  destruct (pop_in_range s e q' Hin Hq) as [Hr _].
  assert (He : e ∈ pq_ s) by (rewrite Hperm; left).
  assert (Hte : t_ s <= e_t e).
  { unfold pending_not_past in Hpend. rewrite Forall_forall in Hpend.
    apply Hpend. by apply list_elem_of_In. }
  set (s0 := set_pq s q').
  set (s1 := drift_to (e_t e) (snapshot_taken s0)).
  (* the state after the drift *)
  assert (Hs1 : cfg_ s1 = cfg_ s /\ pq_ s1 = q' /\ t_ s1 = e_t e
                /\ P_ s1 = drift_body (e_t e - t_ s) <$> P_ s).
  { subst s1. pose proof (snapshot_frame s0) as (Hc & HP & Ht & Hq0).
    pose proof (drift_to_frame (e_t e) (snapshot_taken s0)) as (Hc1 & Hq1 & _).
    rewrite Hc1, Hq1, Hc, Hq0.
    rewrite drift_to_time by (rewrite Ht; exact Hte).
    rewrite drift_to_bodies by (rewrite Ht; exact Hte).
    by rewrite HP, Ht. }
  destruct Hs1 as (Hc1 & Hq1 & Ht1 & HP1).
  assert (Hall1 : all_contained s1).
  { unfold all_contained. rewrite Hc1, HP1.
    apply drift_contained; try done.
    intros ev Hev. by eapply pq_take_earliest_elem. }
  (* the state after the bounce *)
  pose proof (bounced_frame e s1) as (Hcb & Htb & Hqb & _ & Hlenb).
  pose proof (bounced_contained e s1 Hall1) as Hallb.
  assert (Hszb : size (P_ (bounced e s1)) = size (P_ s)).
  { unfold size. by rewrite Hlenb, HP1, length_fmap. }
  (* the pushes of the rescheduling *)
  pose proof (commit_pushes e s0) as Hpush.
  change (before_reschedule e s0) with (bounced e s1) in Hpush.
  pose proof (pushes_same_inputs _ _ _ _ Hpush) as Hinp.
  destruct Hpush as (Hc & HP & Ht & _ & new & Hqn & HF & _).
  split; [|split].
  - unfold all_contained. by rewrite Hc, HP.
  - unfold pending_not_past. rewrite Hqn, Ht, Htb, Ht1, Hqb, Hq1.
    apply Forall_app. split.
    + eapply Forall_impl; [|exact HF]. intros ev Hev.
      rewrite <- Ht1, <- Htb.
      eapply rescheduled_not_past; [exact Hallb| |exact Hev]. by rewrite Hszb.
    + apply (pq_take_earliest _ _ _ Hq).
  - intros i ev Hi Hev.
    assert (Hi' : (0 <= i < size (P_ s))%Z) by (by rewrite HP, Hszb in Hi).
    assert (Hevb : wall_x_event (bounced e s1) i ev \/ wall_y_event (bounced e s1) i ev).
    { destruct Hev as [Hev|Hev]; [left|right].
      - by eapply wall_x_event_inputs.
      - by eapply wall_y_event_inputs. }
    destruct (decide (i = e_a e \/ (e_type e = P_P /\ i = e_b e))) as [Htouch|Hfree].
    + unfold committed. fold s1. by apply (resolve_walls_elem e s1 i ev).
    + assert (Hbody : body (P_ (bounced e s1)) i
                      = drift_body (e_t e - t_ s) (body (P_ s) i)).
      { rewrite body_bounced_other by tauto. rewrite HP1. by apply body_fmap. }
      assert (Hold : wall_x_event s i ev \/ wall_y_event s i ev).
      { destruct Hevb as [Hevb|Hevb]; [left|right].
        - eapply (wall_x_event_drift s (bounced e s1) (e_t e - t_ s));
            [congruence|rewrite Htb, Ht1; lra|done|done].
        - eapply (wall_y_event_drift s (bounced e s1) (e_t e - t_ s));
            [congruence|rewrite Htb, Ht1; lra|done|done]. }
      pose proof (Hwalls i ev Hi' Hold) as Hpending. rewrite Hperm in Hpending.
      destruct (wall_event_valid s i ev Hold) as (_ & _ & Ha & Hty).
      apply elem_of_cons in Hpending as [->|Hpending].
      * exfalso. apply Hfree. by left.
      * rewrite Hqn, Hqb, Hq1. apply elem_of_app. by right.
Qed.

Lemma loop_step_time_consistent (l : loop_state) :
  loop_time_consistent l -> loop_time_consistent (loop_step l).
Proof.
  apply loop_step_invariant_strong.
  - intros s e q' [Htc Hin] Hq Hdrop. split.
    + by eapply pop_time_consistent.
    + by destruct (pop_in_range s e q').
  - intros s e q' [Htc Hin] Hq _ Hend. split.
    + by apply commit_time_consistent.
    + destruct (pop_in_range s e q') as [He Hq']; [done..|]. by apply commit_in_range.
  - intros s e q' [(Hall & Hpend & _) Hin] Hq _. split; [done|]. split.
    + unfold pending_not_past in *. rewrite (pq_take_perm _ _ _ Hq) in Hpend.
      by apply Forall_cons_iff in Hpend as [_ Hpend].
    + by destruct (pop_in_range s e q').
Qed.

Lemma loop_after_time_consistent (s : Simulator) (n : nat) :
  all_contained s -> pending_not_past s -> indices_in_range s ->
  loop_time_consistent (loop_after n s).
Proof.
  intros Hall Hpend Hin. unfold loop_after. induction n as [|n IH].
  - split; [by apply schedule_all_time_consistent|by apply schedule_all_in_range].
  - simpl. by apply loop_step_time_consistent.
Qed.

(** What holds of every state of the loop, the one an exception leaves behind
    included. *)
Lemma loop_after_not_past (s : Simulator) (n : nat) :
  all_contained s -> pending_not_past s -> indices_in_range s ->
  all_contained (sim_of (loop_after n s))
  /\ pending_not_past (sim_of (loop_after n s))
  /\ indices_in_range (sim_of (loop_after n s)).
Proof.
  intros Hall Hpend Hin.
  apply (loop_invariant_weaken (fun s => time_consistent s /\ indices_in_range s)
           (fun s => all_contained s /\ pending_not_past s /\ indices_in_range s)).
  - by intros s' [(? & ? & _) ?].
  - by apply loop_after_time_consistent.
Qed.

(** While the loop runs, the full invariant holds. *)
Lemma running_time_consistent (s : Simulator) (n : nat) (p : Z) (s1 : Simulator) :
  all_contained s -> pending_not_past s -> indices_in_range s ->
  loop_after n s = Running p s1 ->
  time_consistent s1 /\ indices_in_range s1.
Proof.
  intros Hall Hpend Hin Hl.
  pose proof (loop_after_time_consistent s n Hall Hpend Hin) as Htc.
  by rewrite Hl in Htc.
Qed.

Lemma popped_not_past (s : Simulator) (e : Event) (q' : list Event) :
  pending_not_past s -> pq_take (pq_ s) = Some (e, q') ->
  pending_not_past (set_pq s q') /\ t_ s <= e_t e.
Proof.
  unfold pending_not_past. intros Hpend Hq.
  rewrite (pq_take_perm _ _ _ Hq) in Hpend.
  apply Forall_cons_iff in Hpend as [He Hpend]. done.
Qed.

Lemma drifted_not_past (s : Simulator) (e : Event) (q' : list Event) :
  pending_not_past s -> pq_take (pq_ s) = Some (e, q') ->
  pending_not_past (drift_to (e_t e) (snapshot_taken (set_pq s q'))).
Proof.
  intros Hpend Hq. destruct (popped_not_past s e q' Hpend Hq) as [_ Hte].
  pose proof (snapshot_frame (set_pq s q')) as (_ & _ & Ht & Hq0).
  pose proof (drift_to_frame (e_t e) (snapshot_taken (set_pq s q'))) as (_ & Hq1 & _).
  unfold pending_not_past. rewrite Hq1, Hq0.
  rewrite drift_to_time by (rewrite Ht; exact Hte).
  apply (pq_take_earliest _ _ _ Hq).
Qed.

(** The state [run] returns when the loop was left with the event budget not
    used up: no pending event lies before it. *)
Lemma final_not_past (s0 : Simulator) (n : nat) (p : Z) (s s' s_end : Simulator) :
  all_contained s0 -> pending_not_past s0 -> indices_in_range s0 ->
  loop_after n s0 = Running p s -> (p < cfg_max_events (cfg_ s))%Z ->
  loop_step (Running p s) = Exited s' -> run s0 = Returned s_end ->
  pending_not_past s_end.
Proof.
  intros Hall Hpend Hin Hl Hlt Hstep Hrun.
  pose proof (running_time_consistent s0 n p s Hall Hpend Hin Hl) as [(_ & Hp & _) _].
  assert (HSn : loop_after (S n) s0 = Exited s').
  { unfold loop_after in *. simpl. by rewrite Hl. }
  assert (Hend : s_end = drift_to (cfg_T_end (cfg_ s')) s').
  { pose proof (loop_after_exited (S n) (Nat.max (S n) (loop_bound s0)) s0 s' HSn
                  ltac:(lia)) as Hmax.
    destruct (loop_exits s0 (loop_bound s0) Hin ltac:(lia)) as (s2 & [Hb|Hb]);
      unfold run in Hrun; rewrite Hb in Hrun; [|done].
    injection Hrun as <-.
    pose proof (loop_after_exited (loop_bound s0) (Nat.max (S n) (loop_bound s0)) s0 s2 Hb
                  ltac:(lia)) as Hmax2.
    rewrite Hmax in Hmax2. by injection Hmax2 as ->. }
  subst s_end.
  pose proof (loop_step_kind p s) as Hk. rewrite Hstep in Hk.
  inversion Hk as [Hq|Hb|e q' Hq _ Hlate| | |]; subst.
  - unfold pending_not_past.
    pose proof (drift_to_frame (cfg_T_end (cfg_ s')) s') as (_ & -> & _).
    rewrite Hq. apply Forall_nil_2.
  - lia.
  - destruct (popped_not_past s e q' Hp Hq) as [Hp' Hte].
    unfold drift_to. case_decide; [done|].
    unfold pending_not_past. cbn [t_ pq_ set_t set_P set_pq cfg_].
    eapply Forall_impl; [|apply (pq_take_earliest _ _ _ Hq)].
    intros e' He'. simpl in He'. lra.
Qed.

(** C8 (amended).  In exact arithmetic, when every body starts inside the box,
    no event that is already pending lies in the past and the pending events
    refer to bodies of the array, every pending event has a time at or after
    the current time at each instant of [run]: after the seeding, after each
    pop, after the snapshot, the drift and the bounce of a committed event,
    after each loop step with its rescheduling, also when an exception of the
    snapshot ends the loop, and in the state [run] returns, after the final
    drift to [T_end], when the loop was left on an empty queue or on an event
    beyond the horizon.  When the event budget ends the loop, the events it
    has left pending may lie before [T_end], the time of the returned state. *)
Theorem pending_events_not_in_past (s0 s : Simulator) :
  all_contained s0 -> pending_not_past s0 -> indices_in_range s0 ->
  run_instant s0 s ->
  Forall (fun e => t_ s <= e_t e) (pq_ s).
Proof.
  intros Hall Hpend Hin Hinst.
  destruct Hinst as [n|n p s e q' Hl Hq _|n p s e q' s1 Hl Hq _ _ _ Hs
                     |n p s e q' s1 Hl Hq _ _ _ Hs|n p s e q' s1 Hl Hq _ _ _ Hs
                     |n p s s' s_end Hl Hlt Hstep Hrun].
  - apply (loop_after_not_past s0 n Hall Hpend Hin).
  - pose proof (running_time_consistent s0 n p s Hall Hpend Hin Hl) as [(_ & Hp & _) _].
    by destruct (popped_not_past s e q' Hp Hq).
  - pose proof (running_time_consistent s0 n p s Hall Hpend Hin Hl) as [(_ & Hp & _) _].
    apply snapshot_returned in Hs as [_ ->].
    destruct (popped_not_past s e q' Hp Hq) as [Hp' _].
    pose proof (snapshot_frame (set_pq s q')) as (_ & _ & Ht & Hq0).
    unfold pending_not_past in Hp'. by rewrite Ht, Hq0.
  - pose proof (running_time_consistent s0 n p s Hall Hpend Hin Hl) as [(_ & Hp & _) _].
    apply snapshot_returned in Hs as [_ ->]. by apply drifted_not_past.
  - pose proof (running_time_consistent s0 n p s Hall Hpend Hin Hl) as [(_ & Hp & _) _].
    apply snapshot_returned in Hs as [_ ->].
    pose proof (drifted_not_past s e q' Hp Hq) as Hd.
    unfold pending_not_past in *.
    by pose proof (bounced_frame e (drift_to (e_t e) (snapshot_taken (set_pq s q'))))
      as (_ & -> & -> & _).
  - by apply (final_not_past s0 n p s s' s_end).
Qed.

End TimeConsistency.

(** C8 (refuted as stated).  A body that starts beyond the right wall and moves
    away from the box gets, at the seeding, a wall event dated before the
    current time 0: the predicted wall time is negative and only its upper
    bound is tested. *)
Lemma pending_event_in_past :
  run_instant stray (sim_of (loop_after 0 stray))
  /\ (exists e, e ∈ pq_ (sim_of (loop_after 0 stray))
        /\ e_t e < t_ (sim_of (loop_after 0 stray)))
  /\ ~ Forall (fun e => t_ (sim_of (loop_after 0 stray)) <= e_t e)
        (pq_ (sim_of (loop_after 0 stray))).
Proof.
  assert (Hpast : exists e, e ∈ pq_ (sim_of (loop_after 0 stray))
                    /\ e_t e < t_ (sim_of (loop_after 0 stray))).
  { change (sim_of (loop_after 0 stray)) with (schedule_all stray).
    pose proof (schedule_all_pushes stray) as (Hc & HP & Ht & _).
    exists (mkEvent (t_ stray + (10 - 1 / 2 - 20) / 1) 0 (-1) P_WALL_X 0 (-1)). split.
    - apply (schedule_all_walls_scheduled stray 0%Z).
      + rewrite HP. unfold size. simpl. lia.
      + left. exists ((10 - 1 / 2 - 20) / 1). rewrite Hc, HP, Ht.
        split; [|split; [|done]].
        * unfold time_to_wall_x, body. simpl. by rewrite decide_True by lra.
        * simpl. lra.
    - rewrite Ht. simpl. lra. }
  split; [apply instant_loop|]. split; [exact Hpast|].
  destruct Hpast as (e & He & Hlt). rewrite Forall_forall. intros Hall.
  apply list_elem_of_In in He. specialize (Hall e He). lra.
Qed.

(** With an event budget of zero the loop commits nothing, and the wall event
    of body 1, dated 3/2, is still pending in the state [run] returns, whose
    time is the horizon 12. *)
Lemma pending_event_in_past_at_end :
  all_contained capped /\ pending_not_past capped /\ indices_in_range capped
  /\ exists s_end e, run capped = Returned s_end
       /\ t_ s_end = 12 /\ e ∈ pq_ s_end /\ e_t e = 3 / 2 /\ e_t e < t_ s_end.
Proof.
  split; [|split; [apply Forall_nil_2|split; [apply Forall_nil_2|]]].
  { unfold all_contained, contained, capped, resting, mover. simpl.
    repeat apply Forall_cons_2; try apply Forall_nil_2; simpl; lra. }
  pose proof (schedule_all_pushes capped) as (Hc & HP & Ht & _).
  assert (Hloop : loop_after (loop_bound capped) capped = Exited (schedule_all capped)).
  { apply loop_after_no_event; [left; simpl; lia|apply loop_bound_pos]. }
  exists (drift_to 12 (schedule_all capped)),
         (mkEvent (t_ capped + (10 - 1 / 2 - 8) / 1) 1 (-1) P_WALL_X 0 (-1)).
  assert (Htime : t_ (drift_to 12 (schedule_all capped)) = 12).
  { apply drift_to_time. rewrite Ht. simpl. lra. }
  split; [|split; [done|split; [|split]]].
  - unfold run. rewrite Hloop. by rewrite Hc.
  - pose proof (drift_to_frame 12 (schedule_all capped)) as (_ & -> & _).
    apply (schedule_all_walls_scheduled capped 1%Z).
    + rewrite HP. unfold size. simpl. lia.
    + left. exists ((10 - 1 / 2 - 8) / 1). rewrite Hc, HP, Ht.
      split; [|split; [|done]].
      * unfold time_to_wall_x, body. simpl. by rewrite decide_True by lra.
      * simpl. lra.
  - simpl. lra.
  - rewrite Htime. simpl. lra.
Qed.

(** ** The snapshot stack during a run *)

Lemma commit_history (e : Event) (s : Simulator) : undo_ (committed e s) = undo_ (snapshot_taken s).
Proof. by pose proof (commit_frame e s) as (_ & -> & _). Qed.

Section History.
Context `{PriorityQueue}.

(** With a depth of at least one the stack never exceeds the depth during the
    loop of [run]. *)
Lemma history_bounded_during_run (s : Simulator) (n : nat) :
  (1 <= cfg_rollback_depth (cfg_ s))%Z ->
  (Z.of_nat (length (undo_ s)) <= cfg_rollback_depth (cfg_ s))%Z ->
  (Z.of_nat (length (undo_ (sim_of (loop_after n s))))
   <= cfg_rollback_depth (cfg_ s))%Z.
Proof.
  intros Hd Hlen.
  pose proof (loop_after_static s n) as [Hc _]. rewrite <- Hc.
  apply (loop_after_invariant
    (fun s' => (1 <= cfg_rollback_depth (cfg_ s'))%Z
               /\ (Z.of_nat (length (undo_ s')) <= cfg_rollback_depth (cfg_ s'))%Z)).
  - by pose proof (schedule_all_pushes s) as (-> & _ & _ & -> & _).
  - done.
  - intros s' e q' [Hd' Hlen'] _ _ _.
    pose proof (commit_frame e (set_pq s' q')) as (-> & -> & _).
    split; [done|]. by apply (snapshot_bounded (set_pq s' q')).
Qed.

End History.

(** The first loop step on [depth0_sim] commits the earlier wall event. *)
Lemma depth0_first_step :
  loop_step (Running 0 depth0_sim)
  = Running 1 (committed first_hit (set_pq depth0_sim [later_hit])).
Proof.
  unfold loop_step. cbn [pq_ depth0_sim pq_take earliest_queue take_earliest].
  rewrite (decide_True (P := e_t first_hit <= e_t later_hit)) by (simpl; lra).
  rewrite decide_True by (simpl; lia).
  rewrite decide_False by (simpl; lra).
  replace (valid (set_pq _ [later_hit]) first_hit) with true by reflexivity.
  reflexivity.
Qed.

(** C5 (code defect).  With rollback enabled and [rollback_depth = 0] a
    snapshot leaves one entry on the history stack, more than the configured
    depth: the trim removes an entry only from a non-empty stack and the push
    that follows is unconditional.  So after the first committed event of the
    loop the stack holds one snapshot. *)
Theorem snapshot_exceeds_depth_zero :
  cfg_rollback_depth (cfg_ depth0_sim) = 0%Z
  /\ undo_ depth0_sim = []
  /\ (exists s1, snapshot depth0_sim = Returned s1 /\ length (undo_ s1) = 1%nat
        /\ exists s2, snapshot s1 = Returned s2 /\ length (undo_ s2) = 1%nat)
  /\ (exists s3, loop_step (Running 0 depth0_sim) = Running 1 s3
        /\ length (undo_ s3) = 1%nat).
Proof.
  split; [done|]. split; [done|]. split.
  - eexists. split; [reflexivity|]. split; [done|].
    eexists. split; [reflexivity|]. done.
  - eexists. split; [apply depth0_first_step|]. by rewrite commit_history.
Qed.

(** ** What a commit reschedules, exactly *)

Lemma schedule_pair_elem (i j : Z) (s : Simulator) (e : Event) :
  pair_event s i j e -> e ∈ pq_ (schedule_pair i j s).
Proof.
  intros (d & Hd & Hle & ->). unfold schedule_pair. rewrite Hd.
  by apply push_if_due_elem.
Qed.

Lemma schedule_pp_events_for_elem (i j : Z) (s : Simulator) (e : Event) :
  (i < j < size (P_ s))%Z -> pair_event s i j e ->
  e ∈ pq_ (schedule_pp_events_for i s).
Proof.
  intros Hj He. unfold schedule_pp_events_for.
  apply (fold_left_elem (fun s' k => schedule_pair i k s')
           (fun k e' => pair_event s i k e') _ s) with (x := j); [| |done].
  - intros s' k Hs'. split; [|split].
    + eapply pushes_same_inputs, schedule_pair_pushes.
    + intros e'. eapply pushes_elem, schedule_pair_pushes.
    + intros e' He'. apply schedule_pair_elem.
      eapply pair_event_inputs; [apply same_inputs_sym; exact Hs'|done].
  - apply elem_of_seqZ. lia.
Qed.

Lemma reschedule_partners_elem (a b k : Z) (s : Simulator) (e : Event) :
  (0 <= k < size (P_ s))%Z -> k <> a -> k <> b ->
  pair_event s (Z.min k a) (Z.max k a) e \/ pair_event s (Z.min k b) (Z.max k b) e ->
  e ∈ pq_ (reschedule_partners a b s).
Proof.
  intros Hk Ha Hb He. unfold reschedule_partners.
  apply (fold_left_elem
           (fun s' k' =>
              if decide (k' = a \/ k' = b) then s'
              else schedule_pair (Z.min k' b) (Z.max k' b)
                     (schedule_pair (Z.min k' a) (Z.max k' a) s'))
           (fun k' e' => k' <> a /\ k' <> b
              /\ (pair_event s (Z.min k' a) (Z.max k' a) e'
                  \/ pair_event s (Z.min k' b) (Z.max k' b) e')) _ s) with (x := k);
    [| |done].
  - intros s' k' Hs'.
    pose proof (schedule_pair_pushes (Z.min k' a) (Z.max k' a) s') as H1.
    pose proof (schedule_pair_pushes (Z.min k' b) (Z.max k' b)
                  (schedule_pair (Z.min k' a) (Z.max k' a) s')) as H2.
    pose proof (pushes_same_inputs _ _ _ _ H1) as Hin1.
    pose proof (pushes_same_inputs _ _ _ _ H2) as Hin2.
    case_decide as Hab.
    + split; [done|]. split; [done|]. intros e' (? & ? & _). tauto.
    + split; [by eapply same_inputs_trans|]. split.
      * intros e' He'. eapply pushes_elem; [exact H2|]. by eapply pushes_elem.
      * intros e' (_ & _ & [He'|He']).
        -- eapply pushes_elem; [exact H2|]. apply schedule_pair_elem.
           eapply pair_event_inputs; [apply same_inputs_sym; exact Hs'|done].
        -- apply schedule_pair_elem.
           eapply pair_event_inputs; [|exact He'].
           apply same_inputs_sym. by eapply same_inputs_trans.
  - apply elem_of_seqZ. lia.
Qed.

(** Every event described by [rescheduled] is pushed by [resolve]: together
    with [resolve_pushes], the events a commit adds are exactly these. *)
Lemma resolve_reschedules (e : Event) (s : Simulator) (e' : Event) :
  rescheduled e (bounced e s) e' -> e' ∈ pq_ (resolve e s).
Proof.
  unfold rescheduled, resolve, bounced.
  destruct (e_type e) eqn:Hty.
  - set (sb := bounce_wall_x (e_a e) s).
    pose proof (pushes_same_inputs _ _ _ _ (schedule_wall_events_pushes (e_a e) sb)) as Hin.
    intros [He'|[He'|(j & Hj & He')]].
    + eapply pushes_elem; [apply schedule_pp_events_for_pushes|].
      apply schedule_wall_events_elem. by left.
    + eapply pushes_elem; [apply schedule_pp_events_for_pushes|].
      apply schedule_wall_events_elem. by right.
    + apply (schedule_pp_events_for_elem _ j).
      * by rewrite (proj1 (proj2 Hin)).
      * eapply pair_event_inputs; [apply same_inputs_sym; exact Hin|done].
  - set (sb := bounce_wall_y (e_a e) s).
    pose proof (pushes_same_inputs _ _ _ _ (schedule_wall_events_pushes (e_a e) sb)) as Hin.
    intros [He'|[He'|(j & Hj & He')]].
    + eapply pushes_elem; [apply schedule_pp_events_for_pushes|].
      apply schedule_wall_events_elem. by left.
    + eapply pushes_elem; [apply schedule_pp_events_for_pushes|].
      apply schedule_wall_events_elem. by right.
    + apply (schedule_pp_events_for_elem _ j).
      * by rewrite (proj1 (proj2 Hin)).
      * eapply pair_event_inputs; [apply same_inputs_sym; exact Hin|done].
  - set (sb := bounce_pp (e_a e) (e_b e) s).
    pose proof (pushes_same_inputs _ _ _ _ (schedule_wall_events_pushes (e_a e) sb)) as Hin1.
    pose proof (pushes_same_inputs _ _ _ _
      (schedule_wall_events_pushes (e_b e) (schedule_wall_events (e_a e) sb))) as Hin2.
    pose proof (same_inputs_trans _ _ _ Hin1 Hin2) as Hin.
    intros [He'|[He'|[He'|[He'|(k & Hk & Hka & Hkb & He')]]]].
    + eapply pushes_elem; [apply reschedule_partners_pushes|].
      eapply pushes_elem; [apply schedule_wall_events_pushes|].
      apply schedule_wall_events_elem. by left.
    + eapply pushes_elem; [apply reschedule_partners_pushes|].
      eapply pushes_elem; [apply schedule_wall_events_pushes|].
      apply schedule_wall_events_elem. by right.
    + eapply pushes_elem; [apply reschedule_partners_pushes|].
      apply schedule_wall_events_elem. left.
      eapply wall_x_event_inputs; [apply same_inputs_sym; exact Hin1|done].
    + eapply pushes_elem; [apply reschedule_partners_pushes|].
      apply schedule_wall_events_elem. right.
      eapply wall_y_event_inputs; [apply same_inputs_sym; exact Hin1|done].
    + apply (reschedule_partners_elem _ _ k); [by rewrite (proj1 (proj2 Hin))|done|done|].
      destruct He' as [He'|He']; [left|right];
        (eapply pair_event_inputs; [apply same_inputs_sym; exact Hin|done]).
Qed.

Lemma commit_reschedules (e : Event) (s : Simulator) (e' : Event) :
  rescheduled e (before_reschedule e s) e' -> e' ∈ pq_ (committed e s).
Proof. apply resolve_reschedules. Qed.

(** ** A run in which a collision is missed *)

Lemma push_if_due_infinity mk s : push_if_due Infinity mk s = s.
Proof. reflexivity. Qed.

Lemma push_if_due_due d mk s :
  t_ s + d <= cfg_T_end (cfg_ s) -> push_if_due (Finite d) mk s = push (mk (t_ s + d)) s.
Proof. intros Hle. unfold push_if_due. by rewrite decide_True. Qed.

Lemma push_if_due_late d mk s :
  cfg_T_end (cfg_ s) < t_ s + d -> push_if_due (Finite d) mk s = s.
Proof. intros Hle. unfold push_if_due. by rewrite decide_False by lra. Qed.

Lemma time_to_wall_x_right cfg p :
  0 < vec_x (p_v p) ->
  time_to_wall_x cfg p = Finite ((cfg_W cfg - p_rad p - vec_x (p_r p)) / vec_x (p_v p)).
Proof. intros Hv. unfold time_to_wall_x. by rewrite decide_True. Qed.

Lemma time_to_wall_x_left cfg p :
  vec_x (p_v p) < 0 ->
  time_to_wall_x cfg p = Finite ((p_rad p - vec_x (p_r p)) / vec_x (p_v p)).
Proof. intros Hv. unfold time_to_wall_x. rewrite decide_False by lra. by rewrite decide_True. Qed.

Lemma time_to_wall_x_still cfg p : vec_x (p_v p) = 0 -> time_to_wall_x cfg p = Infinity.
Proof. intros Hv. unfold time_to_wall_x. rewrite Hv. by rewrite !decide_False by lra. Qed.

Lemma time_to_wall_y_still cfg p : vec_y (p_v p) = 0 -> time_to_wall_y cfg p = Infinity.
Proof. intros Hv. unfold time_to_wall_y. rewrite Hv. by rewrite !decide_False by lra. Qed.

Lemma time_to_pp_separating A B :
  0 <= dot (vec_sub (p_v B) (p_v A)) (vec_sub (p_r B) (p_r A)) -> time_to_pp A B = Infinity.
Proof. intros Hs. unfold time_to_pp. by rewrite decide_True. Qed.


Lemma schedule_wall_events_x_only (i : Z) (s : Simulator) (d : R) :
  time_to_wall_x (cfg_ s) (body (P_ s) i) = Finite d ->
  time_to_wall_y (cfg_ s) (body (P_ s) i) = Infinity ->
  t_ s + d <= cfg_T_end (cfg_ s) ->
  schedule_wall_events i s
  = push (mkEvent (t_ s + d) i (-1) P_WALL_X (p_coll_count (body (P_ s) i)) (-1)) s.
Proof.
  intros Hx Hy Hle. unfold schedule_wall_events. rewrite Hx, Hy.
  by rewrite push_if_due_infinity, push_if_due_due.
Qed.

Lemma schedule_wall_events_x_late (i : Z) (s : Simulator) (d : R) :
  time_to_wall_x (cfg_ s) (body (P_ s) i) = Finite d ->
  time_to_wall_y (cfg_ s) (body (P_ s) i) = Infinity ->
  cfg_T_end (cfg_ s) < t_ s + d ->
  schedule_wall_events i s = s.
Proof.
  intros Hx Hy Hle. unfold schedule_wall_events. rewrite Hx, Hy.
  by rewrite push_if_due_infinity, push_if_due_late.
Qed.

Lemma schedule_wall_events_still (i : Z) (s : Simulator) :
  time_to_wall_x (cfg_ s) (body (P_ s) i) = Infinity ->
  time_to_wall_y (cfg_ s) (body (P_ s) i) = Infinity ->
  schedule_wall_events i s = s.
Proof. intros Hx Hy. unfold schedule_wall_events. by rewrite Hx, Hy. Qed.

Lemma schedule_pp_events_for_last (i : Z) (s : Simulator) :
  (size (P_ s) <= i + 1)%Z -> schedule_pp_events_for i s = s.
Proof.
  intros Hi. unfold schedule_pp_events_for.
  replace (seqZ (i + 1) (size (P_ s) - (i + 1))) with (@nil Z); [done|].
  symmetry. apply length_zero_iff_nil. rewrite length_seqZ. lia.
Qed.

Lemma crossing_seeded : schedule_all crossing = set_pq crossing [first_wall].
Proof.
  rewrite schedule_all_unfold.
  change (seqZ 0 (size (P_ crossing))) with [0%Z; 1%Z].
  cbn [fold_left].
  rewrite (schedule_wall_events_still 0 crossing);
    [|by apply time_to_wall_x_still|by apply time_to_wall_y_still].
  rewrite (schedule_wall_events_x_only 1 crossing ((10 - 1/2 - 8) / 1));
    [|by apply time_to_wall_x_right; crossing_reals
     |by apply time_to_wall_y_still
     |crossing_reals].
  replace (mkEvent _ 1 (-1) P_WALL_X _ (-1)) with first_wall
    by (unfold first_wall; simpl; f_equal; lra).
  unfold schedule_pp_events_for at 2. sim_proj.
  change (seqZ (0 + 1) (size (P_ crossing) - (0 + 1))) with [1%Z].
  cbn [fold_left]. unfold schedule_pair. sim_proj.
  rewrite time_to_pp_separating
    by (unfold dot, vec_sub, body, crossing, mover, resting; simpl; lra).
  rewrite push_if_due_infinity.
  by rewrite schedule_pp_events_for_last.
Qed.

Lemma crossing_commit_1 : committed first_wall (set_pq crossing []) = crossing1.
Proof.
  unfold committed.
  rewrite snapshot_enabled by (reflexivity || (simpl; lia)). sim_proj.
  rewrite decide_False by crossing_reals.
  unfold drift_to. sim_proj. rewrite decide_False by crossing_reals.
  unfold resolve. cbn [e_type first_wall e_a]. unfold bounce_wall_x. sim_proj.
  replace (update_body _ 1 _) with [resting; back].
  2:{ unfold update_body, drift_body, bump, set_v, set_r, vec_add, vec_scale, back.
      simpl. do 3 f_equal; f_equal; lra. }
  rewrite (schedule_wall_events_x_only 1 _ ((1/2 - 19/2) / -1));
    [|by apply time_to_wall_x_left; crossing_reals
     |by apply time_to_wall_y_still
     |crossing_reals].
  rewrite schedule_pp_events_for_last by (unfold size; simpl; lia).
  unfold push, crossing1, second_wall. sim_proj. simpl.
  cbv [set_pq set_P set_t set_undo crossing cfg_ P_ t_ pq_ undo_]. do 3 f_equal. lra.
Qed.

Lemma crossing_commit_2 : committed second_wall (set_pq crossing1 []) = crossing2.
Proof.
  unfold committed.
  rewrite snapshot_enabled by (reflexivity || (simpl; lia)). sim_proj.
  rewrite decide_False by crossing_reals.
  unfold drift_to. sim_proj. rewrite decide_False by crossing_reals.
  unfold resolve. cbn [e_type second_wall e_a]. unfold bounce_wall_x. sim_proj.
  replace (update_body _ 1 _) with [resting; at_left].
  2:{ unfold update_body, drift_body, bump, set_v, set_r, vec_add, vec_scale, at_left.
      simpl. do 3 f_equal; f_equal; lra. }
  rewrite (schedule_wall_events_x_late 1 _ ((10 - 1/2 - 1/2) / 1));
    [|by apply time_to_wall_x_right; crossing_reals
     |by apply time_to_wall_y_still
     |crossing_reals].
  by rewrite schedule_pp_events_for_last by (unfold size; simpl; lia).
Qed.

Lemma crossing_step_1 :
  loop_step (Running 0 (set_pq crossing [first_wall])) = Running 1 crossing1.
Proof.
  unfold loop_step. sim_proj. cbn [pq_take earliest_queue take_earliest].
  rewrite decide_True by crossing_reals. rewrite decide_False by crossing_reals.
  replace (valid _ first_wall) with true by reflexivity.
  rewrite (proj2 (commit_outcome _ _)) by (unfold snapshot_throws; simpl; lia).
  by rewrite <- crossing_commit_1.
Qed.

Lemma crossing_step_2 : loop_step (Running 1 crossing1) = Running 2 crossing2.
Proof.
  unfold loop_step. cbn [pq_ crossing1 pq_take earliest_queue take_earliest].
  rewrite decide_True by crossing_reals. rewrite decide_False by crossing_reals.
  replace (valid _ second_wall) with true by reflexivity.
  rewrite (proj2 (commit_outcome _ _)) by (unfold snapshot_throws; simpl; lia).
  by rewrite <- crossing_commit_2.
Qed.

Lemma crossing_loop : loop_after 3 crossing = Exited crossing2.
Proof.
  unfold loop_after.
  change (Nat.iter 3 loop_step (Running 0 (schedule_all crossing)))
    with (loop_step (loop_step (loop_step (Running 0 (schedule_all crossing))))).
  by rewrite crossing_seeded, crossing_step_1, crossing_step_2.
Qed.


(** C2 (code defect).  In the run of [crossing] body 1 bounces off the right
    wall at time 3/2 and heads for body 0, which it would touch 13/2 later,
    within the horizon; committing the wall event pushes no pair event, since
    [schedule_pp_events_for] only looks at partners of higher index.  The run
    ends with body 1 centered on body 0, whose counter is still 0. *)
Theorem wall_event_skips_lower_partner :
  let s1 := sim_of (loop_after 1 crossing) in
  t_ s1 = 3 / 2
  /\ time_to_pp (body (P_ s1) 0) (body (P_ s1) 1) = Finite (13 / 2)
  /\ t_ s1 + 13 / 2 <= cfg_T_end (cfg_ s1)
  /\ pq_ s1 = [second_wall]
  /\ exists s_end, run crossing = Returned s_end
       /\ t_ s_end = 12
       /\ P_ s_end = [resting; through].
Proof.
  assert (H1 : loop_after 1 crossing = Running 1 crossing1).
  { unfold loop_after.
    change (Nat.iter 1 loop_step (Running 0 (schedule_all crossing)))
      with (loop_step (Running 0 (schedule_all crossing))).
    rewrite crossing_seeded. apply crossing_step_1. }
  intros s1. subst s1. rewrite H1. cbn [sim_of].
  split; [done|]. split; [|split; [crossing_reals|split; [done|]]].
  - change (body (P_ crossing1) 0) with resting.
    change (body (P_ crossing1) 1) with back.
    rewrite (time_to_pp_finite _ _ 1).
    + f_equal. unfold dot, norm2, vec_sub, resting, back. simpl. field.
    + unfold dot, vec_sub, resting, back. simpl. lra.
    + lra.
    + unfold dot, norm2, vec_sub, resting, back. simpl. lra.
    + unfold contact_tolerance, dot, norm2, vec_sub, resting, back. simpl.
      replace (- ((-1 - 0) * (19 / 2 - 2) + (0 - 0) * (5 - 5) + 1)
               / ((-1 - 0) * (-1 - 0) + (0 - 0) * (0 - 0))) with (13 / 2) by field.
      lra.
  - assert (Hloop : loop_after (loop_bound crossing) crossing = Exited crossing2).
    { apply (loop_after_exited 3); [apply crossing_loop|].
      unfold loop_bound. rewrite crossing_seeded. simpl. lia. }
    unfold run. rewrite Hloop. eexists. split; [reflexivity|].
    unfold drift_to. sim_proj. cbn [crossing2 cfg_ t_ P_ demo_cfg cfg_T_end].
    rewrite decide_False by lra. sim_proj. split; [done|].
    unfold drift_body, set_r, vec_add, vec_scale, through, at_left, resting. simpl.
    repeat (f_equal; try lra).
Qed.

Lemma pending_events_not_in_past_witness :
  loop_after 1 crossing = Running 1 crossing1
  /\ pq_ crossing1 = [second_wall]
  /\ Forall (fun e => t_ crossing1 <= e_t e) (pq_ crossing1).
Proof.
  assert (H1 : loop_after 1 crossing = Running 1 crossing1).
  { unfold loop_after.
    change (Nat.iter 1 loop_step (Running 0 (schedule_all crossing)))
      with (loop_step (Running 0 (schedule_all crossing))).
    rewrite crossing_seeded. apply crossing_step_1. }
  split; [exact H1|]. split; [reflexivity|].
  change crossing1 with (sim_of (Running 1 crossing1)). rewrite <- H1.
  apply (pending_events_not_in_past crossing).
  - unfold all_contained, contained, crossing, resting, mover, demo_cfg. simpl.
    repeat apply Forall_cons_2; try apply Forall_nil_2; simpl; lra.
  - apply Forall_nil_2.
  - apply Forall_nil_2.
  - apply instant_loop.
Defined.

(** ** A run in which a pair collision gains energy *)

Lemma colliding_seeded : schedule_all colliding = set_pq colliding [contact; bullet_wall].
Proof.
  rewrite schedule_all_unfold.
  change (seqZ 0 (size (P_ colliding))) with [0%Z; 1%Z].
  cbn [fold_left].
  rewrite (schedule_wall_events_still 0 colliding);
    [|by apply time_to_wall_x_still|by apply time_to_wall_y_still].
  rewrite (schedule_wall_events_x_only 1 colliding ((1/2 - 6) / -1));
    [|by apply time_to_wall_x_left; colliding_reals
     |by apply time_to_wall_y_still
     |colliding_reals].
  replace (mkEvent _ 1 (-1) P_WALL_X _ (-1)) with bullet_wall
    by (unfold bullet_wall; simpl; f_equal; lra).
  unfold schedule_pp_events_for at 2. sim_proj.
  change (seqZ (0 + 1) (size (P_ colliding) - (0 + 1))) with [1%Z].
  cbn [fold_left]. unfold schedule_pair. sim_proj.
  change (body (P_ colliding) 0) with target.
  change (body (P_ colliding) 1) with bullet.
  assert (Hroot : - (dot (vec_sub (p_v bullet) (p_v target))
                         (vec_sub (p_r bullet) (p_r target)) + 1)
                  / norm2 (vec_sub (p_v bullet) (p_v target)) = 1).
  { unfold dot, norm2, vec_sub, target, bullet. simpl. field. }
  rewrite (time_to_pp_finite target bullet 1);
    [|colliding_reals|lra|colliding_reals|rewrite Hroot; unfold contact_tolerance; lra].
  rewrite Hroot.
  rewrite push_if_due_due by colliding_reals.
  rewrite schedule_pp_events_for_last by (unfold size; simpl; lia).
  unfold push, set_pq, contact. sim_proj. simpl. do 3 f_equal. lra.
Qed.

Lemma colliding_step_bodies :
  exists s1, loop_after 1 colliding = Running 1 s1
    /\ P_ s1 = [ mkParticle (mkVec2 4 5) (mkVec2 1 0) (1/2) 1 1;
                 mkParticle (mkVec2 5 5) (mkVec2 (-2) 0) (1/2) 1 1 ].
Proof.
  exists (committed contact (set_pq colliding [bullet_wall])). split.
  - unfold loop_after.
    change (Nat.iter 1 loop_step (Running 0 (schedule_all colliding)))
      with (loop_step (Running 0 (schedule_all colliding))).
    rewrite colliding_seeded.
    unfold loop_step. sim_proj. cbn [pq_take earliest_queue take_earliest].
    rewrite (decide_True (P := e_t contact <= e_t bullet_wall)) by colliding_reals.
    rewrite decide_True by colliding_reals. rewrite decide_False by colliding_reals.
    replace (valid _ contact) with true by reflexivity.
    by rewrite (proj2 (commit_outcome _ _)) by (unfold snapshot_throws; simpl; lia).
  - pose proof (commit_pushes contact (set_pq colliding [bullet_wall])) as (_ & -> & _).
    unfold before_reschedule, bounced. cbn [e_type contact e_a e_b e_t].
    assert (Hd : P_ (drift_to 1 (snapshot_taken (set_pq colliding [bullet_wall])))
                 = head_on_pair).
    { rewrite drift_to_snapshot_bodies. unfold drift_to. sim_proj.
      rewrite decide_False by colliding_reals. sim_proj.
      unfold head_on_pair, drift_body, set_r, vec_add, vec_scale, colliding, target, bullet.
      simpl. repeat (f_equal; try lra). }
    unfold bounce_pp. rewrite Hd.
    change (body head_on_pair 0) with (mkParticle (mkVec2 4 5) (mkVec2 0 0) (1/2) 1 0).
    change (body head_on_pair 1) with (mkParticle (mkVec2 5 5) (mkVec2 (-1) 0) (1/2) 1 0).
    rewrite decide_False by (unfold norm2, vec_sub; simpl; lra).
    sim_proj. unfold update_body, pp_impulse, bump, set_v, vec_add, vec_scale, vec_sub,
      dot, norm2, head_on_pair. simpl.
    repeat (f_equal; try (field; lra)).
Qed.

(** C10 (refuted as stated).  Two runs of the same bodies that differ in the
    rollback depth only: with depth 8 [run] returns at the horizon 12; with
    depth -1 the first commit throws in [snapshot], and [run] does not return:
    the contact event has been popped, the time is still 0 and no body has
    moved. *)
Lemma negative_depth_changes_run :
  (exists s_end, run (with_rollback true 8 [] colliding) = Returned s_end
     /\ t_ s_end = 12)
  /\ (exists s', run (with_rollback true (-1) [] colliding) = Thrown s'
        /\ t_ s' = 0 /\ P_ s' = P_ colliding /\ pq_ s' = [bullet_wall]).
Proof.
  split.
  - change (with_rollback true 8 [] colliding) with colliding.
    destruct (loop_exits_alive colliding (loop_bound colliding)) as [s_loop Hloop].
    + apply Forall_nil_2.
    + unfold snapshot_throws. simpl. lia.
    + done.
    + pose proof (loop_after_static colliding (loop_bound colliding)) as [Hc _].
      pose proof (loop_time_within_horizon colliding (loop_bound colliding)
                    ltac:(simpl; lra)) as Ht.
      rewrite Hloop in Hc, Ht. cbn [sim_of] in Hc, Ht.
      unfold run. rewrite Hloop. eexists. split; [reflexivity|].
      rewrite drift_to_time by done. by rewrite Hc.
  - set (s := with_rollback true (-1) [] colliding).
    assert (Hseed : schedule_all s = set_pq s [contact; bullet_wall]).
    { unfold s. by rewrite ignores_schedule_all, colliding_seeded. }
    assert (H1 : loop_after 1 s = Aborted (set_pq s [bullet_wall])).
    { unfold loop_after.
      change (Nat.iter 1 loop_step (Running 0 (schedule_all s)))
        with (loop_step (Running 0 (schedule_all s))).
      rewrite Hseed.
      change (set_pq s [bullet_wall]) with (set_pq (set_pq s [contact; bullet_wall]) [bullet_wall]).
      apply (loop_step_throws 0 (set_pq s [contact; bullet_wall]) contact [bullet_wall]).
      - split; [reflexivity|simpl; lia].
      - simpl. rewrite decide_True by lra. reflexivity.
      - simpl. lia.
      - simpl. lra.
      - reflexivity. }
    exists (set_pq s [bullet_wall]). split; [|done].
    unfold run. by rewrite (loop_after_aborted 1 _ s _ H1 (loop_bound_pos s)).
Qed.

(** C1 (code defect).  [bounce_pp] does not conserve kinetic energy.  On the
    head-on pair of unit masses with distinct centers the total kinetic energy
    is 1/2 before the call and 5/2 after it; and the run of [colliding]
    reaches that call: its first loop step commits the contact of the two
    bodies and takes their kinetic energy from 1/2 to 5/2. *)
Theorem bounce_pp_energy_not_conserved :
  (kinetic_energy (body (P_ head_on) 0) + kinetic_energy (body (P_ head_on) 1) = 1 / 2
   /\ kinetic_energy (body (P_ (bounce_pp 0 1 head_on)) 0)
      + kinetic_energy (body (P_ (bounce_pp 0 1 head_on)) 1) = 5 / 2
   /\ 0 < p_m (body (P_ head_on) 0) /\ 0 < p_m (body (P_ head_on) 1)
   /\ p_r (body (P_ head_on) 0) <> p_r (body (P_ head_on) 1))
  /\ (kinetic_energy (body (P_ colliding) 0)
      + kinetic_energy (body (P_ colliding) 1) = 1 / 2
      /\ kinetic_energy (body (P_ (sim_of (loop_after 1 colliding))) 0)
         + kinetic_energy (body (P_ (sim_of (loop_after 1 colliding))) 1) = 5 / 2).
Proof.
  split.
  - assert (Hr : p_r (body (P_ head_on) 0) <> p_r (body (P_ head_on) 1)).
    { unfold body. simpl. intros [= H]. lra. }
    assert (Hm0 : 0 < p_m (body (P_ head_on) 0)) by (unfold body; simpl; lra).
    assert (Hm1 : 0 < p_m (body (P_ head_on) 1)) by (unfold body; simpl; lra).
    split; [|split; [|done]].
    + unfold kinetic_energy, norm2, body. simpl. lra.
    + rewrite (bounce_pp_energy 0 1 head_on) by (done || (unfold size; simpl; lia)).
      unfold kinetic_energy, dot, norm2, vec_sub, body. simpl. lra.
  - split.
    + unfold kinetic_energy, norm2, body. simpl. lra.
    + destruct colliding_step_bodies as (s1 & -> & HP). cbn [sim_of]. rewrite HP.
      unfold kinetic_energy, norm2, body. simpl. lra.
Qed.

(** ** Committed pair events are collisions *)

(** At the predicted pair time the centers are at the distance of the radii. *)
Lemma time_to_pp_contact (A B : Particle) (d : R) :
  time_to_pp A B = Finite d -> separation A B d = (p_rad A + p_rad B) ^ 2.
Proof.
  unfold time_to_pp, separation.
  set (dr := vec_sub (p_r B) (p_r A)). set (dv := vec_sub (p_v B) (p_v A)).
  set (R_ := p_rad A + p_rad B).
  destruct (decide (0 <= dot dv dr)) as [|Happroach]; [done|].
  set (disc := dot dv dr * dot dv dr - norm2 dv * (norm2 dr - R_ * R_)).
  destruct (decide (disc < 0)) as [|Hdisc]; [done|].
  case_decide; [done|]. intros [= <-].
  assert (Hroot : sqrt disc * sqrt disc = disc) by (apply sqrt_sqrt; lra).
  assert (Hdv : 0 < norm2 dv).
  { apply norm2_pos. intros Hz. apply Happroach. rewrite Hz.
    unfold dot, vec_zero. simpl. lra. }
  assert (Hexp : forall t, norm2 (vec_add dr (vec_scale dv t))
                           = norm2 dr + 2 * dot dv dr * t + norm2 dv * t * t).
  { intros t. unfold norm2, dot, vec_add, vec_scale. simpl. ring. }
  rewrite Hexp. unfold disc in Hroot.
  set (r := sqrt _) in *. clearbody r.
  apply (Rmult_eq_reg_l (norm2 dv)); [|lra].
  replace (norm2 dv * (norm2 dr + 2 * dot dv dr * (- (dot dv dr + r) / norm2 dv)
                       + norm2 dv * (- (dot dv dr + r) / norm2 dv)
                         * (- (dot dv dr + r) / norm2 dv)))
    with (norm2 dv * norm2 dr - dot dv dr * dot dv dr + r * r) by (field; lra).
  rewrite Hroot. ring.
Qed.

Lemma separation_drift (A B : Particle) (dt tau : R) :
  separation (drift_body dt A) (drift_body dt B) (tau - dt) = separation A B tau.
Proof.
  unfold separation, drift_body, norm2, vec_add, vec_sub, vec_scale. simpl. ring.
Qed.

Lemma separation_now (A B : Particle) :
  separation A B 0 = norm2 (vec_sub (p_r B) (p_r A)).
Proof. unfold separation, norm2, vec_add, vec_sub, vec_scale. simpl. ring. Qed.

Lemma pair_event_accurate (s : Simulator) (i j : Z) (e : Event) :
  pair_event s i j e -> pair_accurate s e.
Proof.
  intros (d & Hd & _ & ->) _ _. simpl.
  replace (t_ s + d - t_ s) with d by lra. by apply time_to_pp_contact.
Qed.

Lemma wall_event_accurate (s : Simulator) (i : Z) (e : Event) :
  wall_x_event s i e \/ wall_y_event s i e -> pair_accurate s e.
Proof. intros [(d & _ & _ & ->)|(d & _ & _ & ->)] Hty; done. Qed.

Lemma seed_event_accurate (s : Simulator) (e : Event) : seed_event s e -> pair_accurate s e.
Proof.
  intros (i & _ & [He|[He|(j & _ & He)]]);
    eauto using wall_event_accurate, pair_event_accurate.
Qed.

Lemma rescheduled_accurate (e0 : Event) (s : Simulator) (e : Event) :
  rescheduled e0 s e -> pair_accurate s e.
Proof.
  unfold rescheduled, wall_reschedule, pair_reschedule.
  destruct (e_type e0).
  - intros [He|[He|(j & _ & He)]];
      eauto using wall_event_accurate, pair_event_accurate.
  - intros [He|[He|(j & _ & He)]];
      eauto using wall_event_accurate, pair_event_accurate.
  - intros [He|[He|[He|[He|(k & _ & _ & _ & [He|He])]]]];
      eauto using wall_event_accurate, pair_event_accurate.
Qed.

(** Accuracy only reads bodies and time. *)
Lemma pair_accurate_inputs (s s' : Simulator) (e : Event) :
  same_inputs s s' -> pair_accurate s e -> pair_accurate s' e.
Proof.
  intros (_ & HP & Ht). unfold pair_accurate, valid. by rewrite HP, Ht.
Qed.

Lemma pushes_pairs_accurate Φ k (s s' : Simulator) :
  pushes Φ k s s' -> (forall e, Φ e -> pair_accurate s e) ->
  pairs_accurate s -> pairs_accurate s'.
Proof.
  intros Hp HΦ Hold. pose proof (pushes_same_inputs _ _ _ _ Hp) as Hin.
  destruct Hp as (_ & _ & _ & _ & new & Hq & HF & _).
  unfold pairs_accurate in *. rewrite Hq. apply Forall_app. split.
  - eapply Forall_impl; [|exact HF]. intros e He.
    eapply pair_accurate_inputs; [exact Hin|]. by apply HΦ.
  - eapply Forall_impl; [|exact Hold]. intros e. by apply pair_accurate_inputs.
Qed.

Lemma body_update_untouched (P : list Particle) (i x : Z) f :
  ~ (i = x /\ (0 <= i < size P)%Z) -> body (update_body P i f) x = body P x.
Proof.
  intros Hno. destruct (decide (i = x)) as [->|Hne].
  - rewrite update_body_out_of_range; [done|tauto].
  - by apply body_update_ne.
Qed.

(** A bounce that leaves the counter of a body as it is leaves the body as it
    is. *)
Lemma bounced_body_unchanged (e : Event) (s : Simulator) (x : Z) :
  coll_count_of (bounced e s) x = coll_count_of s x ->
  body (P_ (bounced e s)) x = body (P_ s) x.
Proof.
  unfold bounced. destruct (e_type e).
  - rewrite coll_count_bounce_wall_x. case_decide as Hx; [lia|]. intros _.
    unfold bounce_wall_x. cbn [P_ set_P]. by apply body_update_untouched.
  - rewrite coll_count_bounce_wall_y. case_decide as Hx; [lia|]. intros _.
    unfold bounce_wall_y. cbn [P_ set_P]. by apply body_update_untouched.
  - unfold coll_count_of, bounce_pp. case_decide; [done|]. cbn [P_ set_P].
    rewrite (coll_count_update _ (e_b e) x bump 1) by done.
    rewrite (coll_count_update _ (e_a e) x bump 1) by done.
    rewrite (coll_count_update _ (e_b e) x _ 0) by (intros p; simpl; lia).
    rewrite (coll_count_update _ (e_a e) x _ 0) by (intros p; simpl; lia).
    rewrite !size_update_body.
    destruct (decide (e_b e = x /\ (0 <= e_b e < size (P_ s))%Z)) as [|Hb];
      [repeat case_decide; lia|].
    destruct (decide (e_a e = x /\ (0 <= e_a e < size (P_ s))%Z)) as [|Ha];
      [repeat case_decide; lia|].
    intros _.
    rewrite body_update_untouched by (by rewrite !size_update_body).
    rewrite body_update_untouched by (by rewrite !size_update_body).
    rewrite body_update_untouched by (by rewrite !size_update_body).
    by rewrite body_update_untouched.
Qed.

Lemma bounced_counters_le (e : Event) (s : Simulator) (x : Z) :
  (coll_count_of s x <= coll_count_of (bounced e s) x)%Z.
Proof.
  unfold bounced. destruct (e_type e).
  - rewrite coll_count_bounce_wall_x. case_decide; lia.
  - rewrite coll_count_bounce_wall_y. case_decide; lia.
  - apply coll_count_bounce_pp_le.
Qed.

(** An event that is valid after a bounce was valid before it, and its bodies
    are the same. *)
Lemma bounced_pair_accurate (e0 : Event) (s : Simulator) (e : Event) :
  event_in_range (size (P_ s)) e ->
  (e_collA e <= coll_count_of s (e_a e))%Z ->
  (e_type e = P_P -> (e_collB e <= coll_count_of s (e_b e))%Z) ->
  pair_accurate s e -> pair_accurate (bounced e0 s) e.
Proof.
  intros [Ha Hb] HcA HcB Hacc Hty Hv.
  specialize (Hb Hty). specialize (HcB Hty).
  pose proof (bounced_frame e0 s) as (_ & Ht & _).
  destruct (valid_true_counters _ _ Hv) as [HvA HvB].
  specialize (HvA ltac:(lia)). specialize (HvB Hty ltac:(lia)).
  pose proof (bounced_counters_le e0 s (e_a e)) as HleA.
  pose proof (bounced_counters_le e0 s (e_b e)) as HleB.
  assert (HA : body (P_ (bounced e0 s)) (e_a e) = body (P_ s) (e_a e)).
  { apply bounced_body_unchanged. lia. }
  assert (HB : body (P_ (bounced e0 s)) (e_b e) = body (P_ s) (e_b e)).
  { apply bounced_body_unchanged. lia. }
  rewrite HA, HB, Ht. apply Hacc; [done|].
  unfold valid. unfold coll_count_of in *. rewrite HA in HvA. rewrite HB in HvB.
  rewrite decide_False by tauto. by rewrite decide_False by tauto.
Qed.

Lemma drifted_pair_accurate (s : Simulator) (T : R) (e : Event) :
  t_ s <= T -> event_in_range (size (P_ s)) e ->
  pair_accurate s e -> pair_accurate (drift_to T s) e.
Proof.
  intros Hle [Ha Hb] Hacc Hty Hv. specialize (Hb Hty).
  rewrite drift_to_time by done.
  assert (Hbody : forall i, (0 <= i < size (P_ s))%Z ->
            body (P_ (drift_to T s)) i = drift_body (T - t_ s) (body (P_ s) i)).
  { intros i Hi. rewrite drift_to_bodies by done. by apply body_fmap. }
  rewrite !Hbody by done.
  replace (e_t e - T) with (e_t e - t_ s - (T - t_ s)) by lra.
  rewrite separation_drift.
  replace (p_rad (drift_body (T - t_ s) (body (P_ s) (e_a e))))
    with (p_rad (body (P_ s) (e_a e))) by done.
  replace (p_rad (drift_body (T - t_ s) (body (P_ s) (e_b e))))
    with (p_rad (body (P_ s) (e_b e))) by done.
  apply Hacc; [done|].
  unfold valid in *.
  replace (p_coll_count (body (P_ s) (e_a e)))
    with (coll_count_of (drift_to T s) (e_a e)) by apply coll_count_drift_to.
  replace (p_coll_count (body (P_ s) (e_b e)))
    with (coll_count_of (drift_to T s) (e_b e)) by apply coll_count_drift_to.
  exact Hv.
Qed.

Lemma update_body_Forall (Q : Particle -> Prop) (P : list Particle) (i : Z) f :
  (forall p, Q p -> Q (f p)) -> Forall Q P -> Forall Q (update_body P i f).
Proof.
  intros Hf HP. unfold update_body. case_decide; [|done].
  apply Forall_alter; [done|]. intros p _. apply Hf.
Qed.

(** No function of the simulator writes a radius. *)
Lemma bounced_radii_positive (e : Event) (s : Simulator) :
  radii_positive s -> radii_positive (bounced e s).
Proof.
  unfold radii_positive, bounced, bounce_wall_x, bounce_wall_y, bounce_pp.
  destruct (e_type e); [| |case_decide; [done|]]; cbn [P_ set_P]; intros Hall;
    repeat apply update_body_Forall; done.
Qed.

Lemma drift_to_radii_positive (T : R) (s : Simulator) :
  radii_positive s -> radii_positive (drift_to T s).
Proof.
  unfold radii_positive, drift_to. case_decide; [done|]. cbn [P_ set_P set_t].
  intros Hall. apply Forall_fmap. eapply Forall_impl; [|exact Hall]. done.
Qed.

Lemma commit_radii_positive (e : Event) (s : Simulator) :
  radii_positive s -> radii_positive (committed e s).
Proof.
  intros Hs. unfold radii_positive.
  pose proof (commit_pushes e s) as (_ & -> & _).
  apply bounced_radii_positive, drift_to_radii_positive.
  unfold radii_positive. by pose proof (snapshot_frame s) as (_ & -> & _).
Qed.

(** The pending pair events stay accurate through the snapshot, the drift and
    the bounce of a commit. *)
Lemma before_reschedule_pairs_accurate (e : Event) (s : Simulator) :
  t_ s <= e_t e -> indices_in_range s -> captured_le_live s ->
  pairs_accurate s -> pairs_accurate (before_reschedule e s).
Proof.
  intros Hte Hin Hcap Hacc.
  pose proof (snapshot_frame s) as (Hc & HP & Ht & Hq).
  pose proof (before_reschedule_frame e s) as (_ & Hqb & _).
  unfold pairs_accurate, indices_in_range, captured_le_live in *.
  rewrite Hqb. rewrite Forall_forall in *. intros e' He'.
  specialize (Hin e' He'). specialize (Hacc e' He').
  destruct (Hcap e' He') as [HcA HcB].
  unfold before_reschedule.
  assert (Hcc : forall i, coll_count_of (drift_to (e_t e) (snapshot_taken s)) i
                          = coll_count_of s i).
  { intros i. by rewrite coll_count_drift_to, coll_count_snapshot. }
  assert (Hsz : size (P_ (drift_to (e_t e) (snapshot_taken s))) = size (P_ s)).
  { unfold size. pose proof (drift_to_frame (e_t e) (snapshot_taken s)) as (_ & _ & _ & ->).
    by rewrite HP. }
  apply bounced_pair_accurate.
  - by rewrite Hsz.
  - by rewrite Hcc.
  - by rewrite Hcc.
  - apply drifted_pair_accurate.
    + by rewrite Ht.
    + by rewrite HP.
    + eapply pair_accurate_inputs; [|exact Hacc]. by repeat split.
Qed.

Lemma commit_pairs_accurate (e : Event) (s : Simulator) :
  t_ s <= e_t e -> indices_in_range s -> captured_le_live s ->
  pairs_accurate s -> pairs_accurate (committed e s).
Proof.
  intros Hte Hin Hcap Hacc.
  eapply pushes_pairs_accurate; [apply commit_pushes| |].
  - intros e'. apply rescheduled_accurate.
  - by apply before_reschedule_pairs_accurate.
Qed.

Lemma schedule_all_pairs_accurate (s : Simulator) :
  pairs_accurate s -> pairs_accurate (schedule_all s).
Proof.
  intros Hs. eapply pushes_pairs_accurate; [apply schedule_all_pushes| |done].
  apply seed_event_accurate.
Qed.

(** A valid pair event is committed with the centers of its two bodies at the
    distance of their radii, which is positive: the pair bounce is not
    skipped. *)
Lemma committed_pair_apart (s : Simulator) (e : Event) :
  t_ s <= e_t e -> event_in_range (size (P_ s)) e -> radii_positive s ->
  pair_accurate s e -> e_type e = P_P -> valid s e = true ->
  p_r (body (P_ (drift_to (e_t e) s)) (e_a e))
  <> p_r (body (P_ (drift_to (e_t e) s)) (e_b e)).
Proof.
  intros Hte Hr Hrad Hacc Hty Hv.
  pose proof (drifted_pair_accurate s (e_t e) e Hte Hr Hacc Hty) as Hd.
  rewrite drift_to_time in Hd by done.
  replace (e_t e - e_t e) with 0 in Hd by lra. rewrite separation_now in Hd.
  assert (Hv' : valid (drift_to (e_t e) s) e = true).
  { unfold valid in *.
    change (p_coll_count (body (P_ (drift_to (e_t e) s)) (e_a e)))
      with (coll_count_of (drift_to (e_t e) s) (e_a e)).
    change (p_coll_count (body (P_ (drift_to (e_t e) s)) (e_b e)))
      with (coll_count_of (drift_to (e_t e) s) (e_b e)).
    by rewrite !coll_count_drift_to. }
  specialize (Hd Hv').
  destruct Hr as [Ha Hb]. specialize (Hb Hty).
  pose proof (drift_to_radii_positive (e_t e) s Hrad) as Hrad'.
  unfold radii_positive in Hrad'. rewrite Forall_lookup in Hrad'.
  assert (Hsz : size (P_ (drift_to (e_t e) s)) = size (P_ s)).
  { unfold size. by pose proof (drift_to_frame (e_t e) s) as (_ & _ & _ & ->). }
  pose proof (Hrad' _ _ (lookup_body _ (e_a e) ltac:(by rewrite Hsz))) as HrA.
  pose proof (Hrad' _ _ (lookup_body _ (e_b e) ltac:(by rewrite Hsz))) as HrB.
  intros Heq. rewrite Heq in Hd.
  unfold norm2, vec_sub in Hd. simpl in Hd. nra.
Qed.

Section Collisions.
Context `{PriorityQueue}.

Lemma pop_pairs_accurate (s : Simulator) (e : Event) (q' : list Event) :
  pairs_accurate s -> pq_take (pq_ s) = Some (e, q') ->
  pair_accurate s e /\ pairs_accurate (set_pq s q').
Proof.
  unfold pairs_accurate. intros Hs Hq. apply pq_take_perm in Hq.
  rewrite Hq in Hs. apply Forall_cons_iff in Hs as [He Hs]. done.
Qed.

Lemma schedule_all_well_formed (s : Simulator) :
  all_contained s -> pending_not_past s -> indices_in_range s ->
  captured_le_live s -> pairs_accurate s -> radii_positive s ->
  well_formed (schedule_all s).
Proof.
  intros Hall Hpend Hin Hcap Hacc Hrad. repeat split.
  - by apply schedule_all_time_consistent.
  - by apply schedule_all_time_consistent.
  - by apply schedule_all_time_consistent.
  - by apply schedule_all_in_range.
  - by apply schedule_all_captured_le_live.
  - by apply schedule_all_pairs_accurate.
  - unfold radii_positive. by pose proof (schedule_all_pushes s) as (_ & -> & _).
Qed.

Lemma loop_step_well_formed (l : loop_state) :
  loop_invariant well_formed (fun _ => True) l ->
  loop_invariant well_formed (fun _ => True) (loop_step l).
Proof.
  apply loop_step_invariant_strong; [| |done].
  - intros s e q' (Htc & Hin & Hcap & Hacc & Hrad) Hq Hdrop. split; [|split; [|split; [|split]]].
    + by eapply pop_time_consistent.
    + by destruct (pop_in_range s e q').
    + by eapply pop_captured_le_live.
    + by destruct (pop_pairs_accurate s e q').
    + done.
  - intros s e q' (Htc & Hin & Hcap & Hacc & Hrad) Hq _ Hend.
    destruct (pop_in_range s e q') as [He Hq']; [done..|].
    destruct Htc as (Hall & Hpend & Hwalls).
    destruct (popped_not_past s e q' Hpend Hq) as [_ Hte].
    split; [|split; [|split; [|split]]].
    + by apply commit_time_consistent.
    + by apply commit_in_range.
    + apply commit_captured_le_live. by eapply pop_captured_le_live.
    + apply commit_pairs_accurate; [done|done| |].
      * by eapply pop_captured_le_live.
      * by destruct (pop_pairs_accurate s e q').
    + by apply commit_radii_positive.
Qed.

Lemma loop_after_well_formed (s : Simulator) (n : nat) :
  all_contained s -> pending_not_past s -> indices_in_range s ->
  captured_le_live s -> pairs_accurate s -> radii_positive s ->
  loop_invariant well_formed (fun _ => True) (loop_after n s).
Proof.
  intros Hall Hpend Hin Hcap Hacc Hrad. unfold loop_after. induction n as [|n IH].
  - by apply schedule_all_well_formed.
  - simpl. by apply loop_step_well_formed.
Qed.

(** In a run that starts from bodies of positive radius inside the box, the
    pair bounce of a committed event is never the skipped one: both bodies of
    every committed event take part in the collision it resolves. *)
Lemma committed_event_collides (s : Simulator) (n : nat) (p : Z) (s1 : Simulator)
    (e : Event) (q' : list Event) (x : Z) :
  all_contained s -> pending_not_past s -> indices_in_range s ->
  captured_le_live s -> pairs_accurate s -> radii_positive s ->
  loop_after n s = Running p s1 ->
  pq_take (pq_ s1) = Some (e, q') -> valid (set_pq s1 q') e = true ->
  refers_to e x ->
  collides e (drift_to (e_t e) s1) x.
Proof.
  intros Hall Hpend Hin Hcap Hacc Hrad Hl Hq Hv Hx.
  pose proof (loop_after_well_formed s n Hall Hpend Hin Hcap Hacc Hrad) as Hwf.
  rewrite Hl in Hwf. cbn [loop_invariant] in Hwf.
  destruct Hwf as ((_ & Hpend1 & _) & Hin1 & _ & Hacc1 & Hrad1).
  destruct (pop_in_range s1 e q' Hin1 Hq) as [He _].
  destruct (popped_not_past s1 e q' Hpend1 Hq) as [_ Hte].
  destruct (pop_pairs_accurate s1 e q' Hacc1 Hq) as [Hae _].
  unfold collides. destruct (e_type e) eqn:Hty.
  - destruct Hx as [Hx|[Hx _]]; [done|by rewrite Hty in Hx].
  - destruct Hx as [Hx|[Hx _]]; [done|by rewrite Hty in Hx].
  - split; [destruct Hx as [Hx|[_ Hx]]; [by left|by right]|].
    apply committed_pair_apart; try done.
Qed.

End Collisions.

Section FreshRun.
Context `{PriorityQueue}.

(** The same for the run of a newly constructed simulator: nothing is pending
    after construction, so that only the bodies have to be inside the box and
    of positive radius. *)
Lemma fresh_run_event_collides (cfg : SimConfig) (init : list Particle) (n : nat)
    (p : Z) (s1 : Simulator) (e : Event) (q' : list Event) (x : Z) :
  Forall (contained cfg) init -> Forall (fun b => 0 < p_rad b) init ->
  loop_after n (mkSimulator cfg init 0 [] []) = Running p s1 ->
  pq_take (pq_ s1) = Some (e, q') -> valid (set_pq s1 q') e = true ->
  refers_to e x ->
  collides e (drift_to (e_t e) s1) x.
Proof.
  intros Hall Hrad. apply committed_event_collides; try done; apply Forall_nil_2.
Qed.

End FreshRun.

(** * Further properties of the code *)

(** ** The collision-time helpers *)

Lemma separation_expand (A B : Particle) (t : R) :
  separation A B t
  = norm2 (vec_sub (p_r B) (p_r A))
    + 2 * dot (vec_sub (p_v B) (p_v A)) (vec_sub (p_r B) (p_r A)) * t
    + norm2 (vec_sub (p_v B) (p_v A)) * t * t.
Proof. unfold separation, norm2, dot, vec_add, vec_sub, vec_scale. simpl. ring. Qed.




(** X2.  In exact real arithmetic, [time_to_pp] misses no contact beyond its
    tolerance: when it predicts none for two bodies that are apart, they stay
    apart at all later times, unless they touch within the tolerance [1e-12]
    from now.  (The discriminant and the root are computed without rounding
    here; in [double] arithmetic a rounded discriminant can hide a grazing
    contact.) *)
Theorem time_to_pp_infinity_complete (A B : Particle) :
  time_to_pp A B = Infinity ->
  (p_rad A + p_rad B) ^ 2 < separation A B 0 ->
  (forall t, 0 <= t -> (p_rad A + p_rad B) ^ 2 < separation A B t)
  \/ (exists t0, 0 < t0 <= contact_tolerance
        /\ separation A B t0 = (p_rad A + p_rad B) ^ 2).
Proof.
  unfold time_to_pp. intros Hinf Hnow.
  rewrite separation_expand in Hnow.
  set (dr := vec_sub (p_r B) (p_r A)) in *. set (dv := vec_sub (p_v B) (p_v A)) in *.
  set (R_ := p_rad A + p_rad B) in *.
  assert (Hdv0 : 0 <= norm2 dv) by (unfold norm2; nra).
  destruct (decide (0 <= dot dv dr)) as [Hsep|Happroach].
  { left. intros t Ht. rewrite separation_expand. fold dr dv. nra. }
  assert (Hdv : 0 < norm2 dv).
  { apply norm2_pos. intros Hz. apply Happroach. rewrite Hz.
    unfold dot, vec_zero. simpl. lra. }
  set (disc := dot dv dr * dot dv dr - norm2 dv * (norm2 dr - R_ * R_)) in *.
  destruct (decide (disc < 0)) as [Hdisc|Hdisc].
  { left. intros t _. rewrite separation_expand. fold dr dv.
    set (a := norm2 dv) in *. set (b := dot dv dr) in *. set (c := norm2 dr) in *.
    assert (0 < a * (c + 2 * b * t + a * t * t - R_ ^ 2)).
    { replace (a * (c + 2 * b * t + a * t * t - R_ ^ 2))
        with ((a * t + b) * (a * t + b) - disc) by (unfold disc; ring).
      pose proof (Rle_0_sqr (a * t + b)) as Hsq. unfold Rsqr in Hsq. lra. }
    assert (0 < c + 2 * b * t + a * t * t - R_ ^ 2); [|lra].
    apply (Rmult_lt_reg_l a); [done|]. lra. }
  case_decide as Htol; [|done].
  right. set (t0 := - (dot dv dr + sqrt disc) / norm2 dv) in *.
  assert (Hroot : sqrt disc * sqrt disc = disc) by (apply sqrt_sqrt; lra).
  pose proof (sqrt_pos disc) as Hr.
  set (r := sqrt disc) in *.
  assert (Ht0 : norm2 dv * t0 = - (dot dv dr + r)) by (unfold t0; field; lra).
  exists t0. split; [split; [|done]|].
  - assert (r < - dot dv dr).
    { assert (r * r < dot dv dr * dot dv dr) by (rewrite Hroot; unfold disc; nra). nra. }
    apply (Rmult_lt_reg_l (norm2 dv)); [done|]. lra.
  - rewrite separation_expand. fold dr dv.
    set (a := norm2 dv) in *. set (b := dot dv dr) in *. set (c := norm2 dr) in *.
    apply (Rmult_eq_reg_l a); [|lra].
    replace (a * (c + 2 * b * t0 + a * t0 * t0))
      with ((a * t0) * (a * t0) + 2 * b * (a * t0) + a * c) by ring.
    rewrite Ht0. unfold disc in Hroot. nra.
Qed.

Lemma time_to_pp_infinity_complete_witness :
  (forall t, 0 <= t -> (p_rad resting + p_rad mover) ^ 2 < separation resting mover t)
  \/ (exists t0, 0 < t0 <= contact_tolerance
        /\ separation resting mover t0 = (p_rad resting + p_rad mover) ^ 2).
Proof.
  apply (time_to_pp_infinity_complete resting mover).
  - apply time_to_pp_separating. unfold dot, vec_sub, resting, mover. simpl. lra.
  - unfold separation, norm2, vec_add, vec_sub, vec_scale, resting, mover. simpl. lra.
Defined.

(** X3.  The prediction of [time_to_pp] does not depend on the order in which
    the two bodies are given. *)
Theorem time_to_pp_symmetric (A B : Particle) : time_to_pp A B = time_to_pp B A.
Proof.
  unfold time_to_pp.
  replace (dot (vec_sub (p_v A) (p_v B)) (vec_sub (p_r A) (p_r B)))
    with (dot (vec_sub (p_v B) (p_v A)) (vec_sub (p_r B) (p_r A)))
    by (unfold dot, vec_sub; simpl; ring).
  replace (norm2 (vec_sub (p_v A) (p_v B))) with (norm2 (vec_sub (p_v B) (p_v A)))
    by (unfold norm2, vec_sub; simpl; ring).
  replace (norm2 (vec_sub (p_r A) (p_r B))) with (norm2 (vec_sub (p_r B) (p_r A)))
    by (unfold norm2, vec_sub; simpl; ring).
  replace (p_rad B + p_rad A) with (p_rad A + p_rad B) by ring.
  done.
Qed.

(** X4.  For a body inside the box, a finite [time_to_wall_x] is the time at
    which the body touches the vertical wall it moves towards: the time is not
    negative, at that time the body touches the right wall when it moves right
    and the left wall when it moves left, it stays between the two walls up to
    that time and is beyond the wall at every later time. *)
Theorem time_to_wall_x_first_contact (cfg : SimConfig) (p : Particle) (d : R) :
  contained cfg p -> time_to_wall_x cfg p = Finite d ->
  0 <= d
  /\ (0 < vec_x (p_v p) /\ vec_x (p_r (drift_body d p)) = cfg_W cfg - p_rad p
      \/ vec_x (p_v p) < 0 /\ vec_x (p_r (drift_body d p)) = p_rad p)
  /\ (forall t, 0 <= t <= d ->
        p_rad p <= vec_x (p_r (drift_body t p)) <= cfg_W cfg - p_rad p)
  /\ (forall t, d < t ->
        ~ (p_rad p <= vec_x (p_r (drift_body t p)) <= cfg_W cfg - p_rad p)).
Proof.
  intros [[Hlo Hhi] _]. unfold time_to_wall_x, drift_body, set_r, vec_add, vec_scale.
  cbn [p_r p_v vec_x].
  set (x := vec_x (p_r p)) in *. set (v := vec_x (p_v p)) in *.
  set (W := cfg_W cfg) in *. set (r := p_rad p) in *.
  destruct (decide (0 < v)) as [Hv|Hv]; [|destruct (decide (v < 0)) as [Hv'|Hv']].
  - intros [= <-].
    assert (Hd : v * ((W - r - x) / v) = W - r - x) by (field; lra).
    set (d := (W - r - x) / v) in *.
    assert (0 <= d) by nra.
    split; [done|]. split; [left; split; [done|lra]|]. split.
    + intros t Ht. split; nra.
    + intros t Ht [_ Hc]. nra.
  - intros [= <-].
    assert (Hd : v * ((r - x) / v) = r - x) by (field; lra).
    set (d := (r - x) / v) in *.
    assert (0 <= d) by nra.
    split; [done|]. split; [right; split; [done|lra]|]. split.
    + intros t Ht. split; nra.
    + intros t Ht [Hc _]. nra.
  - done.
Qed.

Lemma time_to_wall_x_first_contact_witness :
  let p := main_body0 in
  let d := (10 - 0.3 - 2) / 1.2 in
  0 <= d
  /\ (0 < vec_x (p_v p) /\ vec_x (p_r (drift_body d p)) = cfg_W main_cfg - p_rad p
      \/ vec_x (p_v p) < 0 /\ vec_x (p_r (drift_body d p)) = p_rad p)
  /\ (forall t, 0 <= t <= d ->
        p_rad p <= vec_x (p_r (drift_body t p)) <= cfg_W main_cfg - p_rad p)
  /\ (forall t, d < t ->
        ~ (p_rad p <= vec_x (p_r (drift_body t p)) <= cfg_W main_cfg - p_rad p)).
Proof.
  apply (time_to_wall_x_first_contact main_cfg main_body0 ((10 - 0.3 - 2) / 1.2)).
  - unfold contained, main_cfg, main_body0. simpl. lra.
  - apply (time_to_wall_x_right main_cfg main_body0). simpl. lra.
Defined.

(** X5.  The same for [time_to_wall_y] and the horizontal walls: a finite
    prediction for a body inside the box is not negative, at that time the
    body touches the top wall when it moves up and the bottom wall when it
    moves down, it stays between the two walls up to that time and is beyond
    the wall at every later time. *)
Theorem time_to_wall_y_first_contact (cfg : SimConfig) (p : Particle) (d : R) :
  contained cfg p -> time_to_wall_y cfg p = Finite d ->
  0 <= d
  /\ (0 < vec_y (p_v p) /\ vec_y (p_r (drift_body d p)) = cfg_H cfg - p_rad p
      \/ vec_y (p_v p) < 0 /\ vec_y (p_r (drift_body d p)) = p_rad p)
  /\ (forall t, 0 <= t <= d ->
        p_rad p <= vec_y (p_r (drift_body t p)) <= cfg_H cfg - p_rad p)
  /\ (forall t, d < t ->
        ~ (p_rad p <= vec_y (p_r (drift_body t p)) <= cfg_H cfg - p_rad p)).
Proof.
  intros [_ [Hlo Hhi]]. unfold time_to_wall_y, drift_body, set_r, vec_add, vec_scale.
  cbn [p_r p_v vec_y].
  set (y := vec_y (p_r p)) in *. set (v := vec_y (p_v p)) in *.
  set (H := cfg_H cfg) in *. set (r := p_rad p) in *.
  destruct (decide (0 < v)) as [Hv|Hv]; [|destruct (decide (v < 0)) as [Hv'|Hv']].
  - intros [= <-].
    assert (Hd : v * ((H - r - y) / v) = H - r - y) by (field; lra).
    set (d := (H - r - y) / v) in *.
    assert (0 <= d) by nra.
    split; [done|]. split; [left; split; [done|lra]|]. split.
    + intros t Ht. split; nra.
    + intros t Ht [_ Hc]. nra.
  - intros [= <-].
    assert (Hd : v * ((r - y) / v) = r - y) by (field; lra).
    set (d := (r - y) / v) in *.
    assert (0 <= d) by nra.
    split; [done|]. split; [right; split; [done|lra]|]. split.
    + intros t Ht. split; nra.
    + intros t Ht [Hc _]. nra.
  - done.
Qed.

Lemma time_to_wall_y_first_contact_witness :
  let p := main_body1 in
  let d := (0.4 - 6.5) / -0.6 in
  0 <= d
  /\ (0 < vec_y (p_v p) /\ vec_y (p_r (drift_body d p)) = cfg_H main_cfg - p_rad p
      \/ vec_y (p_v p) < 0 /\ vec_y (p_r (drift_body d p)) = p_rad p)
  /\ (forall t, 0 <= t <= d ->
        p_rad p <= vec_y (p_r (drift_body t p)) <= cfg_H main_cfg - p_rad p)
  /\ (forall t, d < t ->
        ~ (p_rad p <= vec_y (p_r (drift_body t p)) <= cfg_H main_cfg - p_rad p)).
Proof.
  apply (time_to_wall_y_first_contact main_cfg main_body1 ((0.4 - 6.5) / -0.6)).
  - unfold contained, main_cfg, main_body1. simpl. lra.
  - unfold time_to_wall_y, main_body1. simpl.
    rewrite decide_False by lra. rewrite decide_True by lra. reflexivity.
Defined.

(** ** Wall bounces and drifts *)

(** X6.  A wall bounce is elastic and touches one body only: for a body [i]
    of the array, [bounce_wall_x] reverses the x component of its velocity and
    [bounce_wall_y] the y component, each keeps the other component and counts
    one collision for the body; the kinetic energy, the position, the radius
    and the mass of every body are left as they are, and so is every body
    other than [i] as a whole. *)
Theorem wall_bounce_elastic (i : Z) (s : Simulator) :
  (0 <= i < size (P_ s))%Z ->
  p_v (body (P_ (bounce_wall_x i s)) i)
  = mkVec2 (- vec_x (p_v (body (P_ s) i))) (vec_y (p_v (body (P_ s) i)))
  /\ p_v (body (P_ (bounce_wall_y i s)) i)
     = mkVec2 (vec_x (p_v (body (P_ s) i))) (- vec_y (p_v (body (P_ s) i)))
  /\ coll_count_of (bounce_wall_x i s) i = (coll_count_of s i + 1)%Z
  /\ coll_count_of (bounce_wall_y i s) i = (coll_count_of s i + 1)%Z
  /\ (forall j, j <> i ->
        body (P_ (bounce_wall_x i s)) j = body (P_ s) j
        /\ body (P_ (bounce_wall_y i s)) j = body (P_ s) j)
  /\ (forall j,
        kinetic_energy (body (P_ (bounce_wall_x i s)) j) = kinetic_energy (body (P_ s) j)
        /\ p_r (body (P_ (bounce_wall_x i s)) j) = p_r (body (P_ s) j)
        /\ p_rad (body (P_ (bounce_wall_x i s)) j) = p_rad (body (P_ s) j)
        /\ p_m (body (P_ (bounce_wall_x i s)) j) = p_m (body (P_ s) j)
        /\ kinetic_energy (body (P_ (bounce_wall_y i s)) j) = kinetic_energy (body (P_ s) j)
        /\ p_r (body (P_ (bounce_wall_y i s)) j) = p_r (body (P_ s) j)
        /\ p_rad (body (P_ (bounce_wall_y i s)) j) = p_rad (body (P_ s) j)
        /\ p_m (body (P_ (bounce_wall_y i s)) j) = p_m (body (P_ s) j)).
Proof.
  intros Hi.
  assert (Hcases : forall f j,
            body (update_body (P_ s) i f) j = body (P_ s) j
            \/ body (update_body (P_ s) i f) j = f (body (P_ s) j)).
  { intros f j. destruct (decide (j = i)) as [->|Hne].
    - right. by apply body_update_eq.
    - left. by apply body_update_ne. }
  unfold coll_count_of, bounce_wall_x, bounce_wall_y. cbn [P_ set_P].
  rewrite !body_update_eq by done.
  split; [done|]. split; [done|]. split; [done|]. split; [done|]. split.
  - intros j Hne. split; by apply body_update_ne.
  - intros j.
    repeat split;
      match goal with
      | |- context [update_body _ _ ?f] => destruct (Hcases f j) as [->| ->]; try done
      end; unfold kinetic_energy, norm2; simpl; ring.
Qed.

Lemma wall_bounce_elastic_witness :
  p_v (body (P_ (bounce_wall_x 1 crossing)) 1)
  = mkVec2 (- vec_x (p_v (body (P_ crossing) 1))) (vec_y (p_v (body (P_ crossing) 1)))
  /\ p_v (body (P_ (bounce_wall_y 1 crossing)) 1)
     = mkVec2 (vec_x (p_v (body (P_ crossing) 1))) (- vec_y (p_v (body (P_ crossing) 1)))
  /\ coll_count_of (bounce_wall_x 1 crossing) 1 = (coll_count_of crossing 1 + 1)%Z
  /\ coll_count_of (bounce_wall_y 1 crossing) 1 = (coll_count_of crossing 1 + 1)%Z
  /\ (forall j, j <> 1%Z ->
        body (P_ (bounce_wall_x 1 crossing)) j = body (P_ crossing) j
        /\ body (P_ (bounce_wall_y 1 crossing)) j = body (P_ crossing) j)
  /\ (forall j,
        kinetic_energy (body (P_ (bounce_wall_x 1 crossing)) j)
        = kinetic_energy (body (P_ crossing) j)
        /\ p_r (body (P_ (bounce_wall_x 1 crossing)) j) = p_r (body (P_ crossing) j)
        /\ p_rad (body (P_ (bounce_wall_x 1 crossing)) j) = p_rad (body (P_ crossing) j)
        /\ p_m (body (P_ (bounce_wall_x 1 crossing)) j) = p_m (body (P_ crossing) j)
        /\ kinetic_energy (body (P_ (bounce_wall_y 1 crossing)) j)
           = kinetic_energy (body (P_ crossing) j)
        /\ p_r (body (P_ (bounce_wall_y 1 crossing)) j) = p_r (body (P_ crossing) j)
        /\ p_rad (body (P_ (bounce_wall_y 1 crossing)) j) = p_rad (body (P_ crossing) j)
        /\ p_m (body (P_ (bounce_wall_y 1 crossing)) j) = p_m (body (P_ crossing) j)).
Proof. apply (wall_bounce_elastic 1 crossing). unfold size. simpl. lia. Defined.

(** X7.  Drifts compose: drifting to [T1] and then on to a later [T2] leaves
    the simulator in the very state a single drift to [T2] leaves it in. *)
Theorem drift_to_compose (T1 T2 : R) (s : Simulator) :
  T1 <= T2 -> drift_to T2 (drift_to T1 s) = drift_to T2 s.
Proof.
  intros Hle. unfold drift_to at 2.
  destruct (decide (T1 - t_ s <= 0)) as [H1|H1]; [done|].
  unfold drift_to. cbn [t_ set_t set_P P_].
  destruct (decide (T2 - T1 <= 0)) as [H2|H2].
  - assert (T2 = T1) as -> by lra. by rewrite decide_False by done.
  - rewrite decide_False by lra. unfold set_t, set_P. cbn [cfg_ P_ t_ pq_ undo_].
    f_equal. rewrite <- list_fmap_compose. apply list_fmap_ext.
    intros _ p _. unfold drift_body, set_r, vec_add, vec_scale. simpl.
    f_equal. f_equal; ring.
Qed.

Lemma drift_to_compose_witness :
  drift_to 2 (drift_to 1 colliding) = drift_to 2 colliding.
Proof. apply (drift_to_compose 1 2 colliding). lra. Defined.

(** ** What the seeding schedules, and the horizon *)

(** [schedule_all] leaves no seed event of the state out. *)
Lemma schedule_all_seeds (s : Simulator) (e : Event) :
  seed_event s e -> e ∈ pq_ (schedule_all s).
Proof.
  pose proof (schedule_all_pushes s) as Hall.
  pose proof (pushes_same_inputs _ _ _ _ Hall) as Hin.
  intros (i & Hi & [He|[He|(j & Hj & He)]]).
  - apply (schedule_all_walls_scheduled s i).
    + destruct Hin as (_ & -> & _). done.
    + left. eapply wall_x_event_inputs; [by apply same_inputs_sym|done].
  - apply (schedule_all_walls_scheduled s i).
    + destruct Hin as (_ & -> & _). done.
    + right. eapply wall_y_event_inputs; [by apply same_inputs_sym|done].
  - rewrite schedule_all_unfold.
    set (s1 := fold_left (fun s' i => schedule_wall_events i s') _ s).
    assert (H1 : same_inputs s s1).
    { eapply pushes_same_inputs.
      apply (fold_left_pushes (fun _ => True) 2).
      intros s' x _ _. eapply pushes_weaken; [| |apply schedule_wall_events_pushes]; done. }
    apply (fold_left_elem (fun s' i => schedule_pp_events_for i s')
             (fun i e' => exists j, (i < j < size (P_ s))%Z /\ pair_event s i j e') _ s1)
      with (x := i).
    + intros s' x Hs'. split; [|split].
      * eapply pushes_same_inputs, schedule_pp_events_for_pushes.
      * intros e'. eapply pushes_elem, schedule_pp_events_for_pushes.
      * intros e' (j' & Hj' & He').
        assert (Hs : same_inputs s s') by (by eapply same_inputs_trans).
        apply schedule_pp_events_for_elem with (j := j').
        -- destruct Hs as (_ & -> & _). done.
        -- eapply pair_event_inputs; [by apply same_inputs_sym|done].
    + apply elem_of_seqZ. lia.
    + by exists j.
Qed.

(** On an empty queue [schedule_all] leaves the seed events of the state
    pending, and nothing else. *)
Lemma schedule_all_fresh (s : Simulator) (e : Event) :
  pq_ s = [] -> e ∈ pq_ (schedule_all s) <-> seed_event s e.
Proof.
  intros Hq. split; [|apply schedule_all_seeds].
  intros He. eapply pushes_new_or_old in He as [He|He]; [done| |apply schedule_all_pushes].
  rewrite Hq in He. by apply elem_of_nil in He.
Qed.

(** X8.  After [schedule_all] the pending events are the ones that were
    pending before and the seed events of the state: for every body its due
    wall events, and for every pair of bodies, lower index first, its due pair
    event; no other event is pushed and none of these is left out. *)
Theorem schedule_all_seeds_exactly (s : Simulator) (e : Event) :
  e ∈ pq_ (schedule_all s) <-> seed_event s e \/ e ∈ pq_ s.
Proof.
  pose proof (schedule_all_pushes s) as Hall.
  split.
  - by eapply pushes_new_or_old.
  - intros [He|He].
    + by apply schedule_all_seeds.
    + by eapply pushes_elem.
Qed.

(** ** What [undo] restores *)

(** C6.  [undo] fails without changing anything when rollback is disabled or
    no snapshot exists; otherwise it succeeds, restores the time and the whole
    body array from the top snapshot, removes that snapshot, and its pending
    events are exactly the seed events of the restored state: the due wall
    events of every body and the due pair event of every pair of bodies, and
    none of the events that were pending before. *)
Theorem undo_spec (s : Simulator) :
  (cfg_enable_rollback (cfg_ s) = false \/ undo_ s = [] -> undo s = (false, s))
  /\ (forall top rest,
        cfg_enable_rollback (cfg_ s) = true -> undo_ s = top :: rest ->
        fst (undo s) = true
        /\ cfg_ (snd (undo s)) = cfg_ s
        /\ t_ (snd (undo s)) = st_t top
        /\ P_ (snd (undo s)) = st_P top
        /\ undo_ (snd (undo s)) = rest
        /\ pq_ (snd (undo s))
           = pq_ (schedule_all (mkSimulator (cfg_ s) (st_P top) (st_t top) [] []))
        /\ (forall e, e ∈ pq_ (snd (undo s))
                      <-> seed_event (snd (undo s)) e)
        /\ (forall e, seed_event (snd (undo s)) e
                      <-> seed_event (mkSimulator (cfg_ s) (st_P top) (st_t top) [] []) e)).
Proof.
  split.
  - intros [Hen|Hu]; unfold undo.
    + by rewrite Hen.
    + rewrite Hu. by destruct (negb _).
  - intros top rest Hen Hu. unfold undo. rewrite Hen, Hu. cbn [negb fst snd].
    set (s0 := mkSimulator (cfg_ s) (st_P top) (st_t top) [] rest).
    pose proof (schedule_all_pushes s0) as Hall.
    pose proof (pushes_same_inputs _ _ _ _ Hall) as Hin.
    destruct Hall as (Hc & HP & Ht & Hun & _).
    rewrite Hc, HP, Ht, Hun. cbn.
    assert (Hseed : forall e, seed_event (schedule_all s0) e <-> seed_event s0 e).
    { intros e. split; apply seed_event_inputs; [done|by apply same_inputs_sym]. }
    repeat split.
    + rewrite schedule_all_queue. cbn. by rewrite app_nil_r.
    + intros He. apply Hseed. by apply schedule_all_fresh in He.
    + intros He. apply schedule_all_fresh; [done|]. by apply Hseed.
    + intros He. apply Hseed in He. revert He. by apply seed_event_inputs.
    + intros He. apply Hseed. revert He. by apply seed_event_inputs.
Qed.

Lemma undo_spec_witness :
  let s := mkSimulator demo_cfg [] 5 [contact] [mkSimState 1 head_on_pair] in
  fst (undo s) = true
  /\ cfg_ (snd (undo s)) = demo_cfg
  /\ t_ (snd (undo s)) = 1
  /\ P_ (snd (undo s)) = head_on_pair
  /\ undo_ (snd (undo s)) = []
  /\ pq_ (snd (undo s))
     = pq_ (schedule_all (mkSimulator demo_cfg head_on_pair 1 [] []))
  /\ (forall e, e ∈ pq_ (snd (undo s)) <-> seed_event (snd (undo s)) e)
  /\ (forall e, seed_event (snd (undo s)) e
                <-> seed_event (mkSimulator demo_cfg head_on_pair 1 [] []) e).
Proof.
  intros s.
  exact (proj2 (undo_spec s) (mkSimState 1 head_on_pair) [] eq_refl eq_refl).
Defined.

Lemma wall_x_event_within_horizon (s : Simulator) i e :
  wall_x_event s i e -> e_t e <= cfg_T_end (cfg_ s).
Proof. by intros (d & _ & Hle & ->). Qed.

Lemma wall_y_event_within_horizon (s : Simulator) i e :
  wall_y_event s i e -> e_t e <= cfg_T_end (cfg_ s).
Proof. by intros (d & _ & Hle & ->). Qed.

Lemma pair_event_within_horizon (s : Simulator) i j e :
  pair_event s i j e -> e_t e <= cfg_T_end (cfg_ s).
Proof. by intros (d & _ & Hle & ->). Qed.

Lemma seed_event_within_horizon (s : Simulator) e :
  seed_event s e -> e_t e <= cfg_T_end (cfg_ s).
Proof.
  intros (i & _ & [He|[He|(j & _ & He)]]);
    eauto using wall_x_event_within_horizon, wall_y_event_within_horizon,
      pair_event_within_horizon.
Qed.

Lemma rescheduled_within_horizon (e0 : Event) (s : Simulator) e :
  rescheduled e0 s e -> e_t e <= cfg_T_end (cfg_ s).
Proof.
  unfold rescheduled, wall_reschedule, pair_reschedule.
  destruct (e_type e0); intros He; destruct_or?; destruct_and?;
    repeat match goal with
           | H : exists _, _ |- _ => destruct H
           end; destruct_and?; destruct_or?;
    eauto using wall_x_event_within_horizon, wall_y_event_within_horizon,
      pair_event_within_horizon.
Qed.

Lemma pushes_within_horizon Φ k (s0 s s' : Simulator) :
  pushes Φ k s s' ->
  (forall e, Φ e -> e_t e <= cfg_T_end (cfg_ s)) ->
  cfg_ s = cfg_ s0 -> pq_ s = pq_ s0 ->
  pending_within_horizon s0 -> pending_within_horizon s'.
Proof.
  intros (Hc & _ & _ & _ & new & Hq & HF & _) HΦ Hc0 Hq0 Hs.
  unfold pending_within_horizon in *. rewrite Hq, Hc, Hq0, Hc0.
  apply Forall_app. split; [|done].
  eapply Forall_impl; [|exact HF]. intros e He. rewrite <- Hc0. by apply HΦ.
Qed.

Lemma commit_within_horizon (e : Event) (s : Simulator) :
  pending_within_horizon s -> pending_within_horizon (committed e s).
Proof.
  intros Hs. pose proof (before_reschedule_frame e s) as (Hc & Hq & _).
  eapply (pushes_within_horizon _ _ s); [apply commit_pushes| | | |done]; try done.
  intros e'. apply rescheduled_within_horizon.
Qed.

Section Horizon.
Context `{PriorityQueue}.

Lemma loop_after_within_horizon (s : Simulator) (n : nat) :
  pending_within_horizon s -> pending_within_horizon (sim_of (loop_after n s)).
Proof.
  intros Hs. apply (loop_after_invariant pending_within_horizon).
  - eapply (pushes_within_horizon _ _ s s); [apply schedule_all_pushes| | | |done]; try done.
    intros e. apply seed_event_within_horizon.
  - intros s' e q' Hs' Hq. unfold pending_within_horizon in *.
    rewrite (pq_take_perm _ _ _ Hq) in Hs'. cbn [set_pq pq_ cfg_].
    by apply Forall_cons_iff in Hs' as [_ Hs'].
  - intros s' e q' Hs' Hq _ _. apply commit_within_horizon.
    unfold pending_within_horizon in *.
    rewrite (pq_take_perm _ _ _ Hq) in Hs'. cbn [set_pq pq_ cfg_].
    by apply Forall_cons_iff in Hs' as [_ Hs'].
Qed.

(** X9.  In a run whose initially pending events lie within the horizon, as
    after construction, the test [e.t > cfg_.T_end] of the loop never
    succeeds: every pending event, the popped one included, lies within the
    horizon at every iteration, so that the loop is left only on an empty
    queue or an exhausted event budget, without removing an event, or else by
    the exception of [snapshot], with rollback enabled and a negative depth. *)
Theorem run_never_breaks (s : Simulator) (n : nat) (p : Z) (s1 : Simulator) :
  pending_within_horizon s ->
  loop_after n s = Running p s1 ->
  pending_within_horizon s1
  /\ (forall e q', pq_take (pq_ s1) = Some (e, q') -> e_t e <= cfg_T_end (cfg_ s1))
  /\ (forall s2, loop_step (Running p s1) = Exited s2 ->
        s2 = s1 /\ (pq_ s1 = [] \/ (cfg_max_events (cfg_ s1) <= p)%Z))
  /\ (forall s2, loop_step (Running p s1) = Aborted s2 -> snapshot_throws s1).
Proof.
  intros Hs Hl.
  pose proof (loop_after_within_horizon s n Hs) as Hn. rewrite Hl in Hn. cbn [sim_of] in Hn.
  assert (Hpop : forall e q', pq_take (pq_ s1) = Some (e, q') ->
                              e_t e <= cfg_T_end (cfg_ s1)).
  { intros e q' Hq. unfold pending_within_horizon in Hn.
    rewrite (pq_take_perm _ _ _ Hq) in Hn. by apply Forall_cons_iff in Hn as [He _]. }
  split; [done|]. split; [done|]. split.
  - intros s2. destruct (loop_step_kind p s1) as [Hq|Hb|e q' Hq _ Hlate| | |]; try done.
    + intros [= <-]. split; [done|by left].
    + intros [= <-]. split; [done|by right].
    + specialize (Hpop e q' Hq). lra.
  - intros s2. by destruct (loop_step_kind p s1).
Qed.

End Horizon.

Lemma run_never_breaks_witness :
  pending_within_horizon (set_pq colliding [contact; bullet_wall])
  /\ (forall e q', pq_take (pq_ (set_pq colliding [contact; bullet_wall])) = Some (e, q') ->
        e_t e <= cfg_T_end (cfg_ (set_pq colliding [contact; bullet_wall])))
  /\ (forall s2, loop_step (Running 0 (set_pq colliding [contact; bullet_wall])) = Exited s2 ->
        s2 = set_pq colliding [contact; bullet_wall]
        /\ (pq_ (set_pq colliding [contact; bullet_wall]) = []
            \/ (cfg_max_events (cfg_ (set_pq colliding [contact; bullet_wall])) <= 0)%Z))
  /\ (forall s2, loop_step (Running 0 (set_pq colliding [contact; bullet_wall])) = Aborted s2 ->
        snapshot_throws (set_pq colliding [contact; bullet_wall])).
Proof.
  apply (run_never_breaks colliding 0).
  - apply Forall_nil_2.
  - unfold loop_after. simpl. by rewrite colliding_seeded.
Defined.

(** ** Undo after a commit, and the comparator of the queue *)

(** X10.  With rollback enabled and a depth that is not negative, committing
    an event returns, and [undo] right after it succeeds and takes the
    simulator back to the state in which the event was committed: the time and
    the bodies are those from before the drift and the bounce, the snapshot
    taken for the event is removed again, and the pending events are exactly
    the seed events of the restored state.  Of the older snapshots the oldest
    is lost when the stack was full.  (With a negative depth the commit throws
    in [snapshot] and there is nothing to undo.) *)
Theorem undo_reverts_commit (e : Event) (s : Simulator) :
  cfg_enable_rollback (cfg_ s) = true -> (0 <= cfg_rollback_depth (cfg_ s))%Z ->
  let older := if decide (cfg_rollback_depth (cfg_ s) <= Z.of_nat (length (undo_ s)))%Z
               then removelast (undo_ s) else undo_ s in
  exists s2, commit e s = Returned s2
  /\ undo s2 = (true, schedule_all (mkSimulator (cfg_ s) (P_ s) (t_ s) [] older))
  /\ cfg_ (snd (undo s2)) = cfg_ s
  /\ t_ (snd (undo s2)) = t_ s
  /\ P_ (snd (undo s2)) = P_ s
  /\ undo_ (snd (undo s2)) = older
  /\ (forall e', e' ∈ pq_ (snd (undo s2))
                 <-> seed_event (mkSimulator (cfg_ s) (P_ s) (t_ s) [] older) e').
Proof.
  intros Hen Hd older. exists (committed e s).
  split; [apply commit_outcome; unfold snapshot_throws; lia|].
  assert (Hundo : undo (committed e s)
                  = (true, schedule_all (mkSimulator (cfg_ s) (P_ s) (t_ s) [] older))).
  { pose proof (commit_frame e s) as (Hc & Hu & _).
    unfold undo. rewrite Hc, Hen, Hu. cbn [negb].
    rewrite snapshot_enabled by done. cbn [undo_ set_undo st_P st_t]. done. }
  split; [done|]. rewrite Hundo. cbn [snd].
  pose proof (schedule_all_pushes (mkSimulator (cfg_ s) (P_ s) (t_ s) [] older))
    as (-> & -> & -> & -> & _).
  repeat split; try done.
  - intros He'. by apply schedule_all_fresh in He'.
  - intros He'. by apply schedule_all_fresh.
Qed.

Lemma undo_reverts_commit_witness :
  let older := if decide (cfg_rollback_depth (cfg_ two_pending)
                          <= Z.of_nat (length (undo_ two_pending)))%Z
               then removelast (undo_ two_pending) else undo_ two_pending in
  exists s2, commit first_hit two_pending = Returned s2
  /\ undo s2
     = (true, schedule_all (mkSimulator (cfg_ two_pending) (P_ two_pending) (t_ two_pending)
                              [] older))
  /\ cfg_ (snd (undo s2)) = cfg_ two_pending
  /\ t_ (snd (undo s2)) = t_ two_pending
  /\ P_ (snd (undo s2)) = P_ two_pending
  /\ undo_ (snd (undo s2)) = older
  /\ (forall e', e' ∈ pq_ (snd (undo s2))
                 <-> seed_event (mkSimulator (cfg_ two_pending) (P_ two_pending)
                                   (t_ two_pending) [] older) e').
Proof.
  apply (undo_reverts_commit first_hit two_pending); [reflexivity|simpl; lia].
Defined.

(** X11.  [EventEarlier] is a strict weak ordering, as [std::priority_queue]
    requires of its comparator: it is irreflexive and transitive, and being
    unordered both ways (having the same time) is transitive.  The event the
    queue hands out is a top element for it: it is ordered before no pending
    event, that is, no pending event is earlier. *)
Theorem EventEarlier_strict_weak_order `{PriorityQueue} :
  (forall a, EventEarlier a a = false)
  /\ (forall a b c, EventEarlier a b = true -> EventEarlier b c = true ->
        EventEarlier a c = true)
  /\ (forall a b c,
        EventEarlier a b = false -> EventEarlier b a = false ->
        EventEarlier b c = false -> EventEarlier c b = false ->
        EventEarlier a c = false /\ EventEarlier c a = false)
  /\ (forall q e q' e',
        pq_take q = Some (e, q') -> e' ∈ q ->
        EventEarlier e e' = false /\ e_t e <= e_t e').
Proof.
  unfold EventEarlier. split; [|split; [|split]].
  - intros a. apply bool_decide_eq_false. lra.
  - intros a b c. rewrite !bool_decide_eq_true. lra.
  - intros a b c. rewrite !bool_decide_eq_false. lra.
  - intros q e q' e' Hq He'.
    pose proof (pq_take_earliest_elem _ _ _ _ Hq He') as Hle.
    split; [|done]. apply bool_decide_eq_false. lra.
Qed.

Lemma EventEarlier_strict_weak_order_witness :
  EventEarlier first_hit later_hit = false /\ e_t first_hit <= e_t later_hit.
Proof.
  apply (proj2 (proj2 (proj2 EventEarlier_strict_weak_order))
           [first_hit; later_hit] first_hit [later_hit] later_hit).
  - simpl. rewrite decide_True by lra. reflexivity.
  - apply list_elem_of_In. right. left. reflexivity.
Defined.

(** ** Bodies stay inside the box *)

Section Containment.
Context `{PriorityQueue}.

(** X12.  In exact real arithmetic, bodies that start inside the box stay
    inside it.  Take a simulator in which every body lies inside the box, no
    pending event lies in the past and the pending events name bodies that
    exist, as after construction, where nothing is pending.  Then every body
    lies inside the box after each iteration of the loop of [run], whatever
    the horizon and the event budget are, also in the state an exception of
    [snapshot] leaves behind.  When the run starts at or before the horizon
    and the loop has emptied the queue, the bodies lie inside the box in the
    state [run] returns as well, after the last drift to [T_end]. *)
Theorem run_ends_inside_box (s : Simulator) :
  all_contained s -> pending_not_past s -> indices_in_range s ->
  (forall n, all_contained (sim_of (loop_after n s)))
  /\ (forall s_end, run s = Thrown s_end -> all_contained s_end)
  /\ (t_ s <= cfg_T_end (cfg_ s) ->
      pq_ (sim_of (loop_after (loop_bound s) s)) = [] ->
      forall s_end, run s = Returned s_end -> all_contained s_end).
Proof.
  intros Hall Hpend Hin. split; [|split].
  - intros n. by apply loop_after_not_past.
  - intros s_end Hrun. unfold run in Hrun.
    pose proof (loop_after_not_past s (loop_bound s) Hall Hpend Hin) as [Ha _].
    destruct (loop_after (loop_bound s) s) as [p s'|s'|s']; try done.
    by injection Hrun as <-.
  - intros Ht Hempty s_end Hrun.
    pose proof (loop_after_time_consistent s (loop_bound s) Hall Hpend Hin) as Htc.
    pose proof (loop_time_within_horizon s (loop_bound s) Ht) as Ht'.
    unfold run in Hrun.
    destruct (loop_after (loop_bound s) s) as [p s'|s'|s']; [| |done];
      cbn [sim_of loop_time_consistent loop_invariant] in *;
      injection Hrun as <-; destruct Htc as [(Hall' & _ & Hwalls') _];
      unfold all_contained, drift_to; (case_decide; [done|]);
      cbn [cfg_ P_ set_t set_P];
      (apply drift_contained; try done);
      intros ev; rewrite Hempty; by intros ?%elem_of_nil.
Qed.

End Containment.

Lemma run_ends_inside_box_witness :
  (forall n, all_contained (sim_of (loop_after n crossing)))
  /\ (exists s_end, run crossing = Returned s_end /\ all_contained s_end).
Proof.
  assert (Hl : loop_after (loop_bound crossing) crossing = Exited crossing2).
  { apply (loop_after_exited 3); [apply crossing_loop|].
    unfold loop_bound. rewrite crossing_seeded. simpl. lia. }
  destruct (run_ends_inside_box crossing) as (Hloop & _ & Hend).
  - unfold all_contained, contained, crossing, resting, mover, demo_cfg. simpl.
    repeat apply Forall_cons_2; try apply Forall_nil_2; simpl; lra.
  - apply Forall_nil_2.
  - apply Forall_nil_2.
  - split; [exact Hloop|].
    exists (drift_to (cfg_T_end (cfg_ crossing2)) crossing2).
    assert (Hrun : run crossing = Returned (drift_to (cfg_T_end (cfg_ crossing2)) crossing2)).
    { unfold run. by rewrite Hl. }
    split; [exact Hrun|]. apply Hend; [simpl; lra|by rewrite Hl|exact Hrun].
Defined.

(** ** A system at rest *)

(** A body at rest is left where it is by a drift. *)
Lemma drift_body_at_rest (dt : R) (p : Particle) : p_v p = vec_zero -> drift_body dt p = p.
Proof.
  destruct p as [[x y] v rad m c]. simpl. intros ->.
  unfold drift_body, set_r, vec_add, vec_scale. simpl. f_equal. f_equal; ring.
Qed.

Lemma body_at_rest (P : list Particle) (i : Z) :
  Forall (fun p => p_v p = vec_zero) P -> p_v (body P i) = vec_zero.
Proof.
  intros HP. destruct (decide (0 <= i < size P)%Z) as [Hi|Hi].
  - rewrite Forall_lookup in HP. by apply (HP _ _ (lookup_body P i Hi)).
  - unfold body. case_decide; [|done].
    rewrite list_lookup_total_alt, lookup_ge_None_2; [done|]. unfold size in Hi. lia.
Qed.

Lemma seed_event_at_rest (s : Simulator) (e : Event) :
  Forall (fun p => p_v p = vec_zero) (P_ s) -> ~ seed_event s e.
Proof.
  intros Hrest (i & _ & He).
  pose proof (body_at_rest (P_ s) i Hrest) as Hi.
  destruct He as [(d & Hd & _)|[(d & Hd & _)|(j & _ & d & Hd & _)]].
  - rewrite time_to_wall_x_still in Hd; [done|by rewrite Hi].
  - rewrite time_to_wall_y_still in Hd; [done|by rewrite Hi].
  - pose proof (body_at_rest (P_ s) j Hrest) as Hj.
    rewrite time_to_pp_separating in Hd; [done|].
    rewrite Hi, Hj. unfold dot, vec_sub, vec_zero. simpl. lra.
Qed.

Section AtRest.
Context `{PriorityQueue}.

(** X13.  A system at rest stays at rest: when no event is pending and no
    body moves, [run] schedules and commits nothing, takes no snapshot, and
    returns with every body exactly as it was. *)
Theorem run_at_rest (s : Simulator) :
  pq_ s = [] -> Forall (fun p => p_v p = vec_zero) (P_ s) ->
  schedule_all s = s
  /\ exists s_end, run s = Returned s_end
       /\ P_ s_end = P_ s /\ pq_ s_end = [] /\ undo_ s_end = undo_ s.
Proof.
  intros Hq Hrest.
  assert (Hseed : schedule_all s = s).
  { pose proof (schedule_all_pushes s) as (Hc & HP & Ht & Hu & new & Hnew & HF & _).
    destruct new as [|e new].
    - destruct (schedule_all s), s. simpl in *. congruence.
    - apply Forall_cons_iff in HF as [He _]. by apply seed_event_at_rest in He. }
  split; [done|].
  assert (Hloop : loop_after (loop_bound s) s = Exited s).
  { rewrite <- Hseed at 3. apply loop_after_no_event; [|apply loop_bound_pos].
    right. by rewrite Hseed. }
  unfold run. rewrite Hloop. eexists. split; [reflexivity|].
  unfold drift_to. case_decide; [done|]. cbn [P_ pq_ undo_ set_t set_P].
  split; [|done].
  rewrite <- (list_fmap_id (P_ s)) at 2. apply list_fmap_ext.
  intros k p Hp. simpl. apply drift_body_at_rest.
  rewrite Forall_lookup in Hrest. by apply (Hrest k).
Qed.

End AtRest.

Lemma run_at_rest_witness :
  schedule_all (mkSimulator demo_cfg [resting; target] 0 [] [])
  = mkSimulator demo_cfg [resting; target] 0 [] []
  /\ exists s_end, run (mkSimulator demo_cfg [resting; target] 0 [] []) = Returned s_end
       /\ P_ s_end = [resting; target] /\ pq_ s_end = [] /\ undo_ s_end = [].
Proof.
  apply (run_at_rest (mkSimulator demo_cfg [resting; target] 0 [] [])).
  - reflexivity.
  - repeat apply Forall_cons_2; try apply Forall_nil_2; reflexivity.
Defined.

(** ** What a run never changes *)

Section Static.
Context {A : Type} (g : Particle -> A).
Hypothesis g_set_r : forall p r, g (set_r p r) = g p.
Hypothesis g_set_v : forall p v, g (set_v p v) = g p.
Hypothesis g_bump : forall p, g (bump p) = g p.

Lemma update_body_static (P : list Particle) (i : Z) f :
  (forall p, g (f p) = g p) -> g <$> update_body P i f = g <$> P.
Proof.
  intros Hf. unfold update_body. case_decide; [|done].
  apply list_eq. intros k. rewrite !list_lookup_fmap, list_lookup_alter.
  case_decide as Hk; [subst k|done]. destruct (P !! Z.to_nat i) as [p|]; [|done].
  simpl. by rewrite Hf.
Qed.

Lemma bounced_static (e : Event) (s : Simulator) :
  g <$> P_ (bounced e s) = g <$> P_ s.
Proof.
  unfold bounced, bounce_wall_x, bounce_wall_y, bounce_pp.
  destruct (e_type e); [| |case_decide; [done|]]; cbn [P_ set_P];
    rewrite ?update_body_static; try done; intros p; by rewrite ?g_bump, ?g_set_v.
Qed.

Lemma drift_to_static (T : R) (s : Simulator) : g <$> P_ (drift_to T s) = g <$> P_ s.
Proof.
  unfold drift_to. case_decide; [done|]. cbn [P_ set_t set_P].
  rewrite <- list_fmap_compose. apply list_fmap_ext. intros _ p _. simpl.
  unfold drift_body. apply g_set_r.
Qed.

Lemma commit_static (e : Event) (s : Simulator) : g <$> P_ (committed e s) = g <$> P_ s.
Proof.
  pose proof (commit_pushes e s) as (_ & -> & _).
  unfold before_reschedule. rewrite bounced_static, drift_to_static.
  by pose proof (snapshot_frame s) as (_ & -> & _).
Qed.

Lemma run_static `{PriorityQueue} (s : Simulator) :
  g <$> P_ (state_of (run s)) = g <$> P_ s.
Proof.
  assert (Hl : g <$> P_ (sim_of (loop_after (loop_bound s) s)) = g <$> P_ s).
  { apply (loop_after_invariant (fun s' => g <$> P_ s' = g <$> P_ s)).
    - by pose proof (schedule_all_pushes s) as (_ & -> & _).
    - done.
    - intros s' e q' Hs' _ _ _. by rewrite commit_static. }
  unfold run. destruct (loop_after (loop_bound s) s) as [p s'|s'|s'];
    cbn [state_of sim_of] in *; by rewrite ?drift_to_static.
Qed.

End Static.

(** X14.  [run] never changes what the bodies are: the configuration, the
    number of bodies, and the radius and the mass of every body are the same
    after the run as before it, whether [run] returns or an exception of
    [snapshot] ends it. *)
Theorem run_preserves_static `{PriorityQueue} (s : Simulator) :
  cfg_ (state_of (run s)) = cfg_ s
  /\ length (P_ (state_of (run s))) = length (P_ s)
  /\ p_rad <$> P_ (state_of (run s)) = p_rad <$> P_ s
  /\ p_m <$> P_ (state_of (run s)) = p_m <$> P_ s.
Proof.
  assert (Hrad : p_rad <$> P_ (state_of (run s)) = p_rad <$> P_ s) by by apply run_static.
  split; [|split; [|split]].
  - pose proof (loop_after_static s (loop_bound s)) as [Hc _].
    unfold run. destruct (loop_after (loop_bound s) s) as [p s'|s'|s'];
      cbn [state_of sim_of] in *; try done;
      by pose proof (drift_to_frame (cfg_T_end (cfg_ s')) s') as (-> & _).
  - by rewrite <- (length_fmap p_rad), Hrad, length_fmap.
  - done.
  - by apply run_static.
Qed.

(** ** Collisions are resolved at contact *)

Lemma valid_drift_to (T : R) (s : Simulator) (e : Event) :
  valid (drift_to T s) e = valid s e.
Proof.
  unfold valid.
  change (p_coll_count (body (P_ (drift_to T s)) (e_a e)))
    with (coll_count_of (drift_to T s) (e_a e)).
  change (p_coll_count (body (P_ (drift_to T s)) (e_b e)))
    with (coll_count_of (drift_to T s) (e_b e)).
  by rewrite !coll_count_drift_to.
Qed.


Section Contact.
Context `{PriorityQueue}.


End Contact.


Lemma touches_wall_drift cfg ty (b : Particle) (dt tau : R) :
  touches_wall cfg ty b tau -> touches_wall cfg ty (drift_body dt b) (tau - dt).
Proof.
  unfold touches_wall, drift_body, set_r, vec_add, vec_scale.
  destruct ty; simpl; [| |done]; intros [[Hv Hx]|[Hv Hx]]; [left|right|left|right];
    (split; [done|lra]).
Qed.

Lemma wall_x_event_touches (s : Simulator) (i : Z) (e : Event) :
  wall_x_event s i e -> wall_accurate s e.
Proof.
  intros (d & Hd & _ & ->) _. simpl.
  replace (t_ s + d - t_ s) with d by lra.
  unfold time_to_wall_x in Hd. set (b := body (P_ s) i) in *.
  destruct (decide (0 < vec_x (p_v b))) as [Hv|Hv];
    [|destruct (decide (vec_x (p_v b) < 0)) as [Hv'|Hv']; [|done]];
    injection Hd as <-; [left|right]; (split; [done|field; lra]).
Qed.

Lemma wall_y_event_touches (s : Simulator) (i : Z) (e : Event) :
  wall_y_event s i e -> wall_accurate s e.
Proof.
  intros (d & Hd & _ & ->) _. simpl.
  replace (t_ s + d - t_ s) with d by lra.
  unfold time_to_wall_y in Hd. set (b := body (P_ s) i) in *.
  destruct (decide (0 < vec_y (p_v b))) as [Hv|Hv];
    [|destruct (decide (vec_y (p_v b) < 0)) as [Hv'|Hv']; [|done]];
    injection Hd as <-; [left|right]; (split; [done|field; lra]).
Qed.

Lemma pair_event_touches (s : Simulator) (i j : Z) (e : Event) :
  pair_event s i j e -> wall_accurate s e.
Proof. by intros (d & _ & _ & ->) _. Qed.

Lemma seed_event_touches (s : Simulator) (e : Event) : seed_event s e -> wall_accurate s e.
Proof.
  intros (i & _ & [He|[He|(j & _ & He)]]);
    eauto using wall_x_event_touches, wall_y_event_touches, pair_event_touches.
Qed.

Lemma rescheduled_touches (e0 : Event) (s : Simulator) (e : Event) :
  rescheduled e0 s e -> wall_accurate s e.
Proof.
  unfold rescheduled, wall_reschedule, pair_reschedule.
  destruct (e_type e0).
  - intros [He|[He|(j & _ & He)]];
      eauto using wall_x_event_touches, wall_y_event_touches, pair_event_touches.
  - intros [He|[He|(j & _ & He)]];
      eauto using wall_x_event_touches, wall_y_event_touches, pair_event_touches.
  - intros [He|[He|[He|[He|(k & _ & _ & _ & [He|He])]]]];
      eauto using wall_x_event_touches, wall_y_event_touches, pair_event_touches.
Qed.

Lemma wall_accurate_inputs (s s' : Simulator) (e : Event) :
  same_inputs s s' -> wall_accurate s e -> wall_accurate s' e.
Proof.
  intros (Hc & HP & Ht). unfold wall_accurate, valid. by rewrite Hc, HP, Ht.
Qed.

Lemma pushes_walls_accurate Φ k (s s' : Simulator) :
  pushes Φ k s s' -> (forall e, Φ e -> wall_accurate s e) ->
  walls_accurate s -> walls_accurate s'.
Proof.
  intros Hp HΦ Hold. pose proof (pushes_same_inputs _ _ _ _ Hp) as Hin.
  destruct Hp as (_ & _ & _ & _ & new & Hq & HF & _).
  unfold walls_accurate in *. rewrite Hq. apply Forall_app. split.
  - eapply Forall_impl; [|exact HF]. intros e He.
    eapply wall_accurate_inputs; [exact Hin|]. by apply HΦ.
  - eapply Forall_impl; [|exact Hold]. intros e. by apply wall_accurate_inputs.
Qed.

Lemma bounced_wall_accurate (e0 : Event) (s : Simulator) (e : Event) :
  event_in_range (size (P_ s)) e ->
  (e_collA e <= coll_count_of s (e_a e))%Z ->
  (e_type e = P_P -> (e_collB e <= coll_count_of s (e_b e))%Z) ->
  wall_accurate s e -> wall_accurate (bounced e0 s) e.
Proof.
  intros [Ha Hb] HcA HcB Hacc Hv.
  pose proof (bounced_frame e0 s) as (Hc & Ht & _).
  destruct (valid_true_counters _ _ Hv) as [HvA HvB].
  specialize (HvA ltac:(lia)).
  pose proof (bounced_counters_le e0 s (e_a e)) as HleA.
  assert (HA : body (P_ (bounced e0 s)) (e_a e) = body (P_ s) (e_a e)).
  { apply bounced_body_unchanged. lia. }
  rewrite HA, Ht, Hc. apply Hacc.
  destruct (decide (e_type e = P_P)) as [Hty|Hty].
  - specialize (Hb Hty). specialize (HcB Hty). specialize (HvB Hty ltac:(lia)).
    pose proof (bounced_counters_le e0 s (e_b e)) as HleB.
    assert (HB : body (P_ (bounced e0 s)) (e_b e) = body (P_ s) (e_b e)).
    { apply bounced_body_unchanged. lia. }
    unfold valid. unfold coll_count_of in *. rewrite HA in HvA. rewrite HB in HvB.
    rewrite decide_False by tauto. by rewrite decide_False by tauto.
  - unfold valid. unfold coll_count_of in *. rewrite HA in HvA.
    rewrite decide_False by tauto. by rewrite decide_False by tauto.
Qed.

Lemma drifted_wall_accurate (s : Simulator) (T : R) (e : Event) :
  t_ s <= T -> event_in_range (size (P_ s)) e ->
  wall_accurate s e -> wall_accurate (drift_to T s) e.
Proof.
  intros Hle [Ha _] Hacc Hv.
  rewrite drift_to_time by done.
  pose proof (drift_to_frame T s) as (-> & _).
  rewrite drift_to_bodies by done. rewrite body_fmap by done.
  replace (e_t e - T) with (e_t e - t_ s - (T - t_ s)) by lra.
  apply touches_wall_drift. apply Hacc.
  unfold valid in *.
  replace (p_coll_count (body (P_ s) (e_a e)))
    with (coll_count_of (drift_to T s) (e_a e)) by apply coll_count_drift_to.
  replace (p_coll_count (body (P_ s) (e_b e)))
    with (coll_count_of (drift_to T s) (e_b e)) by apply coll_count_drift_to.
  exact Hv.
Qed.

Lemma before_reschedule_walls_accurate (e : Event) (s : Simulator) :
  t_ s <= e_t e -> indices_in_range s -> captured_le_live s ->
  walls_accurate s -> walls_accurate (before_reschedule e s).
Proof.
  intros Hte Hin Hcap Hacc.
  pose proof (snapshot_frame s) as (Hc & HP & Ht & Hq).
  pose proof (before_reschedule_frame e s) as (_ & Hqb & _).
  unfold walls_accurate, indices_in_range, captured_le_live in *.
  rewrite Hqb. rewrite Forall_forall in *. intros e' He'.
  specialize (Hin e' He'). specialize (Hacc e' He').
  destruct (Hcap e' He') as [HcA HcB].
  unfold before_reschedule.
  assert (Hcc : forall i, coll_count_of (drift_to (e_t e) (snapshot_taken s)) i
                          = coll_count_of s i).
  { intros i. by rewrite coll_count_drift_to, coll_count_snapshot. }
  assert (Hsz : size (P_ (drift_to (e_t e) (snapshot_taken s))) = size (P_ s)).
  { unfold size. pose proof (drift_to_frame (e_t e) (snapshot_taken s)) as (_ & _ & _ & ->).
    by rewrite HP. }
  apply bounced_wall_accurate.
  - by rewrite Hsz.
  - by rewrite Hcc.
  - by rewrite Hcc.
  - apply drifted_wall_accurate.
    + by rewrite Ht.
    + by rewrite HP.
    + eapply wall_accurate_inputs; [|exact Hacc]. by repeat split.
Qed.

Lemma commit_walls_accurate (e : Event) (s : Simulator) :
  t_ s <= e_t e -> indices_in_range s -> captured_le_live s ->
  walls_accurate s -> walls_accurate (committed e s).
Proof.
  intros Hte Hin Hcap Hacc.
  eapply pushes_walls_accurate; [apply commit_pushes| |].
  - intros e'. apply rescheduled_touches.
  - by apply before_reschedule_walls_accurate.
Qed.

Section WallContact.
Context `{PriorityQueue}.

Lemma loop_after_walls_accurate (s : Simulator) (n : nat) :
  all_contained s -> pending_not_past s -> indices_in_range s ->
  captured_le_live s -> walls_accurate s ->
  loop_invariant (fun s' => (time_consistent s' /\ indices_in_range s')
                            /\ captured_le_live s' /\ walls_accurate s')
    (fun _ => True) (loop_after n s).
Proof.
  intros Hall Hpend Hin Hcap Hacc.
  unfold loop_after. induction n as [|n IH].
  - split; [|split].
    + split; [by apply schedule_all_time_consistent|by apply schedule_all_in_range].
    + by apply schedule_all_captured_le_live.
    + eapply pushes_walls_accurate; [apply schedule_all_pushes| |done].
      apply seed_event_touches.
  - simpl. revert IH. apply loop_step_invariant_strong; [| |done].
    + intros s' e q' ((Htc & Hin') & Hcap' & Hacc') Hq Hdrop. split; [split|split].
      * by eapply pop_time_consistent.
      * by destruct (pop_in_range s' e q').
      * by eapply pop_captured_le_live.
      * unfold walls_accurate in *. rewrite (pq_take_perm _ _ _ Hq) in Hacc'.
        by apply Forall_cons_iff in Hacc' as [_ Hacc'].
    + intros s' e q' ((Htc & Hin') & Hcap' & Hacc') Hq _ Hend.
      pose proof Htc as (_ & Hpend' & _).
      destruct (popped_not_past s' e q' Hpend' Hq) as [_ Hte].
      destruct (pop_in_range s' e q' Hin' Hq) as [He Hin''].
      split; [split|split].
      * by apply commit_time_consistent.
      * by apply commit_in_range.
      * apply commit_captured_le_live. by eapply pop_captured_le_live.
      * apply commit_walls_accurate; try done.
        -- by eapply pop_captured_le_live.
        -- unfold walls_accurate in *. rewrite (pq_take_perm _ _ _ Hq) in Hacc'.
           by apply Forall_cons_iff in Hacc' as [_ Hacc'].
Qed.

(** X16.  In exact real arithmetic, wall collisions are resolved at the
    instant of contact: in the run of a newly constructed simulator whose
    bodies lie inside the box, whenever the loop commits a wall event, the
    drift has taken the simulator to the time of the event, the body touches
    the wall named by the event and moves towards it; the commit turns that
    velocity component back into the box and counts one collision for the
    body. *)
Theorem committed_wall_at_contact (cfg : SimConfig) (init : list Particle) (n : nat)
    (p : Z) (s1 : Simulator) (e : Event) (q' : list Event) (s3 : Simulator) :
  Forall (contained cfg) init ->
  loop_after n (mkSimulator cfg init 0 [] []) = Running p s1 ->
  pq_take (pq_ s1) = Some (e, q') -> valid (set_pq s1 q') e = true ->
  e_type e <> P_P ->
  commit e (set_pq s1 q') = Returned s3 ->
  exists s1', snapshot (set_pq s1 q') = Returned s1' /\
  let s2 := drift_to (e_t e) s1' in
  let b := body (P_ s2) (e_a e) in
  let b' := body (P_ s3) (e_a e) in
  t_ s2 = e_t e
  /\ (e_type e = P_WALL_X ->
      (0 < vec_x (p_v b) /\ vec_x (p_r b) = cfg_W cfg - p_rad b /\ vec_x (p_v b') < 0)
      \/ (vec_x (p_v b) < 0 /\ vec_x (p_r b) = p_rad b /\ 0 < vec_x (p_v b')))
  /\ (e_type e = P_WALL_Y ->
      (0 < vec_y (p_v b) /\ vec_y (p_r b) = cfg_H cfg - p_rad b /\ vec_y (p_v b') < 0)
      \/ (vec_y (p_v b) < 0 /\ vec_y (p_r b) = p_rad b /\ 0 < vec_y (p_v b')))
  /\ p_r b' = p_r b
  /\ p_coll_count b' = (coll_count_of s1 (e_a e) + 1)%Z.
Proof.
  intros Hall Hl Hq Hv Hty Hcommit.
  apply commit_returned in Hcommit as [Hno ->].
  exists (snapshot_taken (set_pq s1 q')).
  split; [by apply snapshot_outcome|]. intros s2 b b'.
  set (s0 := mkSimulator cfg init 0 [] []) in *.
  pose proof (loop_after_walls_accurate s0 n Hall (Forall_nil_2 _) (Forall_nil_2 _)
                (Forall_nil_2 _) (Forall_nil_2 _)) as HI.
  pose proof (loop_after_static s0 n) as [Hcfg _].
  rewrite Hl in HI, Hcfg. cbn [sim_of loop_invariant] in *.
  destruct HI as (((_ & Hpend1 & _) & Hin1) & _ & Hacc1).
  destruct (pop_in_range s1 e q' Hin1 Hq) as [He _].
  destruct (popped_not_past s1 e q' Hpend1 Hq) as [_ Hte].
  assert (Hae : wall_accurate (set_pq s1 q') e).
  { unfold walls_accurate in Hacc1. rewrite (pq_take_perm _ _ _ Hq) in Hacc1.
    apply Forall_cons_iff in Hacc1 as [Hae _]. exact Hae. }
  assert (Ht2 : t_ s2 = e_t e).
  { subst s2. apply drift_to_time.
    by pose proof (snapshot_frame (set_pq s1 q')) as (_ & _ & -> & _). }
  assert (Htouch : touches_wall cfg (e_type e) b 0).
  { pose proof (drifted_wall_accurate (set_pq s1 q') (e_t e) e Hte He Hae) as Hd.
    unfold wall_accurate in Hd. rewrite valid_drift_to in Hd. specialize (Hd Hv).
    rewrite drift_to_time in Hd by done.
    replace (e_t e - e_t e) with 0 in Hd by lra.
    pose proof (drift_to_frame (e_t e) (set_pq s1 q')) as (Hc2 & _).
    rewrite Hc2 in Hd. cbn [cfg_ set_pq] in Hd. rewrite Hcfg in Hd.
    subst b s2. by rewrite drift_to_snapshot_bodies. }
  assert (Hsz : (0 <= e_a e < size (P_ s2))%Z).
  { destruct He as [Ha _]. unfold size in *. subst s2.
    pose proof (drift_to_frame (e_t e) (snapshot_taken (set_pq s1 q'))) as (_ & _ & _ & ->).
    by pose proof (snapshot_frame (set_pq s1 q')) as (_ & -> & _). }
  assert (Hb' : b' = body (P_ (bounced e s2)) (e_a e)).
  { subst b'. by pose proof (commit_pushes e (set_pq s1 q')) as (_ & -> & _). }
  assert (Hcount : coll_count_of s2 (e_a e) = coll_count_of s1 (e_a e)).
  { subst s2. by rewrite coll_count_drift_to, coll_count_snapshot. }
  split; [done|].
  unfold touches_wall in Htouch. unfold bounced in Hb'.
  destruct (e_type e) eqn:Hety; [| |done].
  - unfold bounce_wall_x in Hb'. cbn [P_ set_P] in Hb'.
    rewrite body_update_eq in Hb' by done. fold b in Hb'. rewrite Hb'. simpl.
    split; [|split; [done|split; [done|]]].
    + intros _. destruct Htouch as [[Hvx Hx]|[Hvx Hx]]; [left|right];
        (split; [done|split; lra]).
    + unfold coll_count_of in Hcount. fold b in Hcount. by rewrite Hcount.
  - unfold bounce_wall_y in Hb'. cbn [P_ set_P] in Hb'.
    rewrite body_update_eq in Hb' by done. fold b in Hb'. rewrite Hb'. simpl.
    split; [done|split; [|split; [done|]]].
    + intros _. destruct Htouch as [[Hvy Hy]|[Hvy Hy]]; [left|right];
        (split; [done|split; lra]).
    + unfold coll_count_of in Hcount. fold b in Hcount. by rewrite Hcount.
Qed.

End WallContact.

Lemma committed_wall_at_contact_witness :
  exists s1', snapshot (set_pq (set_pq crossing [first_wall]) []) = Returned s1' /\
  let s2 := drift_to (e_t first_wall) s1' in
  let b := body (P_ s2) (e_a first_wall) in
  let b' := body (P_ crossing1) (e_a first_wall) in
  t_ s2 = e_t first_wall
  /\ (e_type first_wall = P_WALL_X ->
      (0 < vec_x (p_v b) /\ vec_x (p_r b) = cfg_W demo_cfg - p_rad b /\ vec_x (p_v b') < 0)
      \/ (vec_x (p_v b) < 0 /\ vec_x (p_r b) = p_rad b /\ 0 < vec_x (p_v b')))
  /\ (e_type first_wall = P_WALL_Y ->
      (0 < vec_y (p_v b) /\ vec_y (p_r b) = cfg_H demo_cfg - p_rad b /\ vec_y (p_v b') < 0)
      \/ (vec_y (p_v b) < 0 /\ vec_y (p_r b) = p_rad b /\ 0 < vec_y (p_v b')))
  /\ p_r b' = p_r b
  /\ p_coll_count b' = (coll_count_of (set_pq crossing [first_wall]) (e_a first_wall) + 1)%Z.
Proof.
  apply (committed_wall_at_contact demo_cfg [resting; mover] 0 0
           (set_pq crossing [first_wall]) first_wall []).
  - unfold contained, resting, mover, demo_cfg.
    repeat apply Forall_cons_2; try apply Forall_nil_2; simpl; lra.
  - change (mkSimulator demo_cfg [resting; mover] 0 [] []) with crossing.
    unfold loop_after. simpl. by rewrite crossing_seeded.
  - reflexivity.
  - reflexivity.
  - done.
  - rewrite (proj2 (commit_outcome _ _)) by (unfold snapshot_throws; simpl; lia).
    f_equal. apply crossing_commit_1.
Defined.

(** ** The shape of the pending events *)

Lemma event_shaped_in_range (n : Z) (e : Event) : event_shaped n e -> event_in_range n e.
Proof. intros [Ha Hb]. split; [done|]. intros Hty. rewrite Hty in Hb. lia. Qed.

Lemma wall_x_event_shaped (s : Simulator) i e n :
  wall_x_event s i e -> (0 <= i < n)%Z -> event_shaped n e.
Proof. by intros (d & _ & _ & ->) Hi. Qed.

Lemma wall_y_event_shaped (s : Simulator) i e n :
  wall_y_event s i e -> (0 <= i < n)%Z -> event_shaped n e.
Proof. by intros (d & _ & _ & ->) Hi. Qed.

Lemma pair_event_shaped (s : Simulator) i j e n :
  pair_event s i j e -> (0 <= i)%Z -> (i < j < n)%Z -> event_shaped n e.
Proof. intros (d & _ & _ & ->) Hi Hj. split; simpl; lia. Qed.

Lemma seed_event_shaped (s : Simulator) e :
  seed_event s e -> event_shaped (size (P_ s)) e.
Proof.
  intros (i & Hi & [He|[He|(j & Hj & He)]]).
  - by eapply wall_x_event_shaped.
  - by eapply wall_y_event_shaped.
  - eapply pair_event_shaped; [done|lia|lia].
Qed.

Lemma rescheduled_shaped (e : Event) (s : Simulator) e' :
  event_shaped (size (P_ s)) e -> rescheduled e s e' ->
  event_shaped (size (P_ s)) e'.
Proof.
  intros [Ha Hb]. unfold rescheduled.
  destruct (e_type e) eqn:Hty.
  - intros [He|[He|(j & Hj & He)]].
    + by eapply wall_x_event_shaped.
    + by eapply wall_y_event_shaped.
    + eapply pair_event_shaped; [done|lia|lia].
  - intros [He|[He|(j & Hj & He)]].
    + by eapply wall_x_event_shaped.
    + by eapply wall_y_event_shaped.
    + eapply pair_event_shaped; [done|lia|lia].
  - intros [He|[He|[He|[He|(k & Hk & Hka & Hkb & [He|He])]]]].
    + by eapply wall_x_event_shaped.
    + by eapply wall_y_event_shaped.
    + eapply wall_x_event_shaped; [done|lia].
    + eapply wall_y_event_shaped; [done|lia].
    + eapply pair_event_shaped; [done|lia|lia].
    + eapply pair_event_shaped; [done|lia|lia].
Qed.

Lemma pushes_shaped Φ k (s s' : Simulator) :
  pushes Φ k s s' ->
  (forall e, Φ e -> event_shaped (size (P_ s)) e) ->
  Forall (event_shaped (size (P_ s))) (pq_ s) ->
  Forall (event_shaped (size (P_ s'))) (pq_ s').
Proof.
  intros (_ & HP & _ & _ & new & Hq & HF & _) HΦ Hin.
  rewrite Hq, HP. apply Forall_app. split; [|done].
  eapply Forall_impl; eauto.
Qed.

Lemma commit_shaped (e : Event) (s : Simulator) :
  event_shaped (size (P_ s)) e ->
  Forall (event_shaped (size (P_ s))) (pq_ s) ->
  Forall (event_shaped (size (P_ (committed e s)))) (pq_ (committed e s)).
Proof.
  intros He Hin.
  pose proof (before_reschedule_frame e s) as (_ & Hq & _ & Hlen & _).
  assert (Hsz : size (P_ (before_reschedule e s)) = size (P_ s)).
  { unfold size. by rewrite Hlen. }
  eapply pushes_shaped; [apply commit_pushes| |].
  - intros e' He'. eapply rescheduled_shaped; [|done]. by rewrite Hsz.
  - by rewrite Hq, Hsz.
Qed.

(** X17.  [run] indexes the body array in range only: when the events
    pending at the start are well shaped, as after construction, where none
    is pending, then at every iteration every pending event names a body [a]
    of the array; a pair event names a second body [b] of the array with
    [a < b], never a body paired with itself; and a wall event carries
    [b = -1]. *)
Theorem run_events_shaped `{PriorityQueue} (s : Simulator) (n : nat) :
  Forall (event_shaped (size (P_ s))) (pq_ s) ->
  size (P_ (sim_of (loop_after n s))) = size (P_ s)
  /\ Forall (event_shaped (size (P_ s))) (pq_ (sim_of (loop_after n s))).
Proof.
  intros Hs.
  assert (Hsz : size (P_ (sim_of (loop_after n s))) = size (P_ s)).
  { unfold size. by pose proof (loop_after_static s n) as [_ ->]. }
  split; [done|]. rewrite <- Hsz.
  apply (loop_after_invariant (fun s' => Forall (event_shaped (size (P_ s'))) (pq_ s'))).
  - eapply pushes_shaped; [apply schedule_all_pushes| |done].
    apply seed_event_shaped.
  - intros s' e q' Hs' Hq. rewrite (pq_take_perm _ _ _ Hq) in Hs'.
    by apply Forall_cons_iff in Hs' as [_ Hs'].
  - intros s' e q' Hs' Hq _ _. rewrite (pq_take_perm _ _ _ Hq) in Hs'.
    apply Forall_cons_iff in Hs' as [He Hs']. by apply commit_shaped.
Qed.

Lemma run_events_shaped_witness :
  size (P_ (sim_of (loop_after 1 main_sim))) = size (P_ main_sim)
  /\ Forall (event_shaped (size (P_ main_sim))) (pq_ (sim_of (loop_after 1 main_sim))).
Proof. apply (run_events_shaped main_sim 1). apply Forall_nil_2. Defined.

(** ** The event budget and the collision counters *)

Lemma total_collisions_update (P : list Particle) (i : Z) f (k : Z) :
  (0 <= k)%Z -> (forall p, p_coll_count (f p) = (p_coll_count p + k)%Z) ->
  (total_collisions P <= total_collisions (update_body P i f) <= total_collisions P + k)%Z.
Proof.
  intros Hk Hf. unfold update_body, total_collisions. case_decide; [|lia].
  generalize (Z.to_nat i). intros m. revert m.
  induction P as [|p P IH]; intros m; [simpl; lia|].
  destruct m as [|m]; csimpl.
  - rewrite Hf. lia.
  - specialize (IH m). lia.
Qed.

Lemma total_collisions_bounced (e : Event) (s : Simulator) :
  (total_collisions (P_ s) <= total_collisions (P_ (bounced e s))
   <= total_collisions (P_ s) + 2)%Z.
Proof.
  unfold bounced, bounce_wall_x, bounce_wall_y, bounce_pp.
  destruct (e_type e); [| |case_decide; [lia|]]; cbn [P_ set_P].
  - pose proof (total_collisions_update (P_ s) (e_a e)
      (fun p => bump (set_v p (mkVec2 (- vec_x (p_v p)) (vec_y (p_v p))))) 1
      ltac:(lia) ltac:(done)). lia.
  - pose proof (total_collisions_update (P_ s) (e_a e)
      (fun p => bump (set_v p (mkVec2 (vec_x (p_v p)) (- vec_y (p_v p))))) 1
      ltac:(lia) ltac:(done)). lia.
  - match goal with
    | |- context [update_body (update_body (update_body (update_body ?P0 ?i ?f1) ?j ?f2) _ _) _ _] =>
        pose proof (total_collisions_update P0 i f1 0 ltac:(lia)
                      ltac:(intros; simpl; lia)) as H1;
        pose proof (total_collisions_update (update_body P0 i f1) j f2 0 ltac:(lia)
                      ltac:(intros; simpl; lia)) as H2;
        pose proof (total_collisions_update (update_body (update_body P0 i f1) j f2) i bump 1
                      ltac:(lia) ltac:(done)) as H3;
        pose proof (total_collisions_update
                      (update_body (update_body (update_body P0 i f1) j f2) i bump) j bump 1
                      ltac:(lia) ltac:(done)) as H4
    end. lia.
Qed.

Lemma total_collisions_commit (e : Event) (s : Simulator) :
  (total_collisions (P_ s) <= total_collisions (P_ (committed e s))
   <= total_collisions (P_ s) + 2)%Z.
Proof.
  pose proof (commit_pushes e s) as (_ & -> & _).
  unfold before_reschedule.
  pose proof (total_collisions_bounced e (drift_to (e_t e) (snapshot_taken s))) as Hb.
  assert (Hd : total_collisions (P_ (drift_to (e_t e) (snapshot_taken s))) = total_collisions (P_ s)).
  { unfold total_collisions. rewrite drift_to_static by done.
    by pose proof (snapshot_frame s) as (_ & -> & _). }
  lia.
Qed.

Section Budget.
Context `{PriorityQueue}.

Lemma loop_after_collisions (s : Simulator) (n : nat) :
  cfg_ (sim_of (loop_after n s)) = cfg_ s
  /\ (total_collisions (P_ s) <= total_collisions (P_ (sim_of (loop_after n s)))
      <= total_collisions (P_ s) + 2 * Z.max 0 (cfg_max_events (cfg_ s)))%Z
  /\ (forall p s', loop_after n s = Running p s' ->
        (0 <= p)%Z /\ (total_collisions (P_ s') <= total_collisions (P_ s) + 2 * p)%Z).
Proof.
  unfold loop_after. induction n as [|n (Hc & Hb & Hp)].
  - simpl. pose proof (schedule_all_pushes s) as (-> & -> & _).
    split; [done|]. split; [lia|]. intros p s' [= <- <-].
    pose proof (schedule_all_pushes s) as (_ & -> & _). lia.
  - simpl. destruct (Nat.iter n loop_step (Running 0 (schedule_all s))) as [p s'|s'|s'];
      [|done|done]. cbn [sim_of] in *.
    destruct (Hp p s' eq_refl) as [Hp0 Hps'].
    destruct (loop_step_kind p s') as [| |e q' Hq|e q' Hq|e q' Hq Hlt|e q' Hq];
      cbn [sim_of];
      try (split; [done|]; split; [done|]; intros ? ? [=]; subst; done).
    pose proof (commit_frame e (set_pq s' q')) as (Hcc & _).
    pose proof (total_collisions_commit e (set_pq s' q')) as Htc.
    cbn [P_ set_pq cfg_] in *. rewrite Hc in Hlt.
    split; [by rewrite Hcc|]. split; [lia|].
    intros p1 s1 [= <- <-]. lia.
Qed.

(** X18.  The event budget bounds the collisions a run counts: the sum of
    the collision counters never decreases, and [run] adds at most two per
    event of the budget [max_events] to it, nothing when the budget is zero or
    negative; this holds whether [run] returns or an exception of [snapshot]
    ends it. *)
Theorem run_collisions_bounded (s : Simulator) :
  (total_collisions (P_ s) <= total_collisions (P_ (state_of (run s)))
   <= total_collisions (P_ s) + 2 * Z.max 0 (cfg_max_events (cfg_ s)))%Z.
Proof.
  pose proof (loop_after_collisions s (loop_bound s)) as (_ & Hb & _).
  unfold run.
  destruct (loop_after (loop_bound s) s) as [p s'|s'|s']; cbn [state_of sim_of] in *;
    try done;
    (replace (total_collisions (P_ (drift_to (cfg_T_end (cfg_ s')) s')))
       with (total_collisions (P_ s'));
     [done|unfold total_collisions; by rewrite drift_to_static]).
Qed.

End Budget.

(** ** The snapshot stack during a run, and what a commit reschedules *)

(** X19.  With a rollback depth of at least one, the snapshot stack never
    grows beyond the depth: when it holds at most [rollback_depth] snapshots
    at the start, it does so after every iteration of the loop, and [run]
    returns with at most that many. *)
Theorem run_history_bounded `{PriorityQueue} (s : Simulator) :
  (1 <= cfg_rollback_depth (cfg_ s))%Z ->
  (Z.of_nat (length (undo_ s)) <= cfg_rollback_depth (cfg_ s))%Z ->
  (forall n, (Z.of_nat (length (undo_ (sim_of (loop_after n s))))
              <= cfg_rollback_depth (cfg_ s))%Z)
  /\ exists s_end, run s = Returned s_end
       /\ (Z.of_nat (length (undo_ s_end)) <= cfg_rollback_depth (cfg_ s))%Z.
Proof.
  intros Hd Hlen.
  assert (Hloop : forall n, (Z.of_nat (length (undo_ (sim_of (loop_after n s))))
                             <= cfg_rollback_depth (cfg_ s))%Z).
  { intros n. by apply history_bounded_during_run. }
  split; [done|].
  assert (Halive : alive (loop_after (loop_bound s) s)).
  { apply loop_after_alive. unfold snapshot_throws. lia. }
  specialize (Hloop (loop_bound s)). unfold run.
  destruct (loop_after (loop_bound s) s) as [p s'|s'|s']; [| |done];
    (eexists; split; [reflexivity|]);
    by pose proof (drift_to_frame (cfg_T_end (cfg_ s')) s') as (_ & _ & -> & _).
Qed.

Lemma run_history_bounded_witness :
  (forall n, (Z.of_nat (length (undo_ (sim_of (loop_after n main_sim))))
              <= cfg_rollback_depth (cfg_ main_sim))%Z)
  /\ exists s_end, run main_sim = Returned s_end
       /\ (Z.of_nat (length (undo_ s_end)) <= cfg_rollback_depth (cfg_ main_sim))%Z.
Proof. apply (run_history_bounded main_sim); simpl; lia. Defined.

(** X20.  What committing an event leaves pending, when the commit returns:
    the events that were pending before and the events rescheduled from the
    state after the snapshot, the drift and the bounce, no others.  After a
    wall event of body [a] these are the due wall events of [a] and its due
    pair events with the bodies of higher index; after a pair event of [a] and
    [b] they are the due wall events of both and the due pair events of each
    with every third body. *)
Theorem commit_reschedules_exactly (e : Event) (s s2 : Simulator) (e' : Event) :
  commit e s = Returned s2 ->
  exists s1, snapshot s = Returned s1
    /\ (e' ∈ pq_ s2
        <-> rescheduled e (bounced e (drift_to (e_t e) s1)) e' \/ e' ∈ pq_ s).
Proof.
  intros [Hno ->]%commit_returned.
  exists (snapshot_taken s). split; [by apply snapshot_outcome|].
  change (bounced e (drift_to (e_t e) (snapshot_taken s))) with (before_reschedule e s).
  pose proof (before_reschedule_frame e s) as (_ & Hq & _).
  split.
  - intros He'. rewrite <- Hq. eapply pushes_new_or_old; [apply commit_pushes|done].
  - intros [He'|He'].
    + by apply commit_reschedules.
    + eapply pushes_elem; [apply commit_pushes|]. by rewrite Hq.
Qed.

Lemma commit_reschedules_exactly_witness :
  exists s1, snapshot (set_pq crossing []) = Returned s1
    /\ (second_wall ∈ pq_ crossing1
        <-> rescheduled first_wall (bounced first_wall (drift_to (e_t first_wall) s1))
              second_wall
            \/ second_wall ∈ pq_ (set_pq crossing [])).
Proof.
  apply (commit_reschedules_exactly first_wall (set_pq crossing []) crossing1 second_wall).
  rewrite (proj2 (commit_outcome _ _)) by (unfold snapshot_throws; simpl; lia).
  f_equal. apply crossing_commit_1.
Defined.
